(** * Embroidery filter: a shallow embedding of the image pipeline

    The development follows the layout of the repository:
    [Utils] (src/pipeline/utils.ts), [Edges] (src/pipeline/edges.ts),
    [Orientation] (src/pipeline/orientation.ts), [Quantize]
    (src/pipeline/quantize.ts, frequency variant), [Textures]
    (src/pipeline/textures.ts), [Warnings] (src/pipeline/warnings.ts),
    [Embroidery] (src/pipeline/embroidery.ts), [Composite]
    (src/pipeline/composite.ts with src/pipeline/cache.ts) and [Server]
    (src/server.ts).

    Conventions.
    - A [Uint8Array], [Buffer] or [Float32Array] is a [list Z]; an index is a
      [nat]; reading past the end gives [None] (JavaScript's [undefined]) and
      the source's [??] / [||] defaults are written out with [get].
    - A store into a byte buffer wraps modulo 256 ([toUint8]).
    - A number of the distance transform is carried as the integer count of
      its units of [2^-52]: every number that the transform computes is a
      non-negative multiple of [2^-52].  An arithmetic result is rounded to
      binary64 and a store into a [Float32Array] to binary32, both to
      nearest, ties to even ([Float.round]).
    - Calls into the image codec (sharp) and the canvas are parameters of the
      functions that make them. *)

From Stdlib Require Import ZArith List Lia Ascii String QArith Qcanon DecimalString
  Permutation Sorted Bool Arith.
From stdpp Require Import base list.
Import ListNotations.

Open Scope Z_scope.

(** ** Loops *)

(** [for (let i = 0; i < n; i++) body] *)
Definition for_range {A : Type} (n : nat) (body : nat -> A -> A) (a : A) : A :=
  fold_left (fun s i => body i s) (seq 0 n) a.

(** [for (let i = n - 1; i >= 0; i--) body] *)
Definition for_range_down {A : Type} (n : nat) (body : nat -> A -> A) (a : A) : A :=
  fold_left (fun s i => body i s) (rev (seq 0 n)) a.

(** Typed-array read with the default the source gives for [undefined]. *)
Definition get (l : list Z) (i : nat) (d : Z) : Z := default d (l !! i).

(** JavaScript truthiness of a typed-array element. *)
Definition truthy (o : option Z) : bool :=
  match o with
  | Some v => negb (v =? 0)
  | None => false
  end.

(** Store conversion of a [Uint8Array] / [Buffer]. *)
Definition toUint8 (v : Z) : Z := v mod 256.

(** ** Floating-point numbers *)
Module Float.

(** [x >= 0] rounded to [p] significant bits, to nearest, ties to even: with
    [s] bits to drop, [q] the bits kept and [r] the bits dropped. *)
Definition round (p x : Z) : Z :=
  let s := Z.log2 x + 1 - p in
  if s <=? 0 then x
  else
    let q := x / 2 ^ s in
    let r := x mod 2 ^ s in
    let half := 2 ^ (s - 1) in
    if (r <? half) || ((r =? half) && Z.even q) then q * 2 ^ s else (q + 1) * 2 ^ s.

(** The number 1, in units of [2^-52]. *)
Definition one : Z := 2 ^ 52.

(** [x + y] on numbers: the exact sum, rounded to binary64. *)
Definition add (x y : Z) : Z := round 53 (x + y).

(** The value kept by a store into a [Float32Array] ([Math.fround]); a read
    gives it back unchanged. *)
Definition fround (x : Z) : Z := round 24 x.

End Float.

(** ** src/pipeline/utils.ts *)
Module Utils.

(** *** seededRandom *)

(** [x >>> 0] on an integer. *)
Definition toUint32 (x : Z) : Z := x mod 2 ^ 32.

(** [let s = seed >>> 0] *)
Definition seededRandom (seed : Z) : Z := toUint32 seed.

(** [s = (s * 1664525 + 1013904223) >>> 0] *)
Definition lcg (s : Z) : Z := toUint32 (s * 1664525 + 1013904223).

(** [(s & 0xfffffff) / 0xfffffff] *)
Definition lcg_value (s : Z) : Q := Z.land s 268435455 # 268435455.

(** One call of the closure: the new state and the returned number. *)
Definition next (s : Z) : Z * Q :=
  let s' := lcg s in (s', lcg_value s').

(** The state after [n] calls, and the value the [n]-th call returns. *)
Fixpoint state_after (n : nat) (s : Z) : Z :=
  match n with
  | O => s
  | S n' => fst (next (state_after n' s))
  end.

Definition nth_value (n : nat) (seed : Z) : Q :=
  snd (next (state_after n (seededRandom seed))).

(** *** distanceTransform *)

(** [inf = 1e9], the cost [1] and the cost [1.4], which as a binary64 is
    [6305039478318694 * 2^-52]. *)
Definition inf : Z := 1000000000 * Float.one.
Definition cost_orth : Z := Float.one.
Definition cost_diag : Z := 6305039478318694.

(** [if (cond) best = Math.min(best, Number(dist[j] ?? inf) + cost)] *)
Definition relax (cond : bool) (dist : list Z) (j : nat) (cost : Z) (best : Z) : Z :=
  if cond then Z.min best (Float.add (get dist j inf) cost) else best.

(** [dist[i] = (src[i] ?? 0) > 0 ? 0 : inf], a store into the
    [Float32Array]. *)
Definition dt_init (src : list Z) (n : nat) : list Z :=
  (fun i => Float.fround (if 0 <? get src i 0 then 0 else inf)) <$> seq 0 n.

(** The body of the forward loop at [(x, y)], from [const i = y * w + x] to
    the store [dist[i] = best]. *)
Definition dt_forward_px (width height : nat) (y x : nat) (dist : list Z) : list Z :=
  let w := width in
  let i := (y * w + x)%nat in
  let cur := get dist i inf in
  let best := cur in
  let best := relax (0 <? x)%nat dist (i - 1) cost_orth best in
  let best := relax (0 <? y)%nat dist (i - w) cost_orth best in
  let best := relax ((0 <? x)%nat && (0 <? y)%nat) dist (i - w - 1) cost_diag best in
  let best := relax ((x + 1 <? width)%nat && (0 <? y)%nat) dist (i - w + 1) cost_diag best in
  <[i := Float.fround best]> dist.

(** The body of the backward loop, which reads [cur] with the default 0. *)
Definition dt_backward_px (width height : nat) (y x : nat) (dist : list Z) : list Z :=
  let w := width in
  let i := (y * w + x)%nat in
  let cur := get dist i 0 in
  let best := cur in
  let best := relax (x + 1 <? width)%nat dist (i + 1) cost_orth best in
  let best := relax (y + 1 <? height)%nat dist (i + w) cost_orth best in
  let best := relax ((x + 1 <? width)%nat && (y + 1 <? height)%nat) dist (i + w + 1) cost_diag best in
  let best := relax ((0 <? x)%nat && (y + 1 <? height)%nat) dist (i + w - 1) cost_diag best in
  <[i := Float.fround best]> dist.

Definition dt_forward (width height : nat) (dist : list Z) : list Z :=
  for_range height (fun y => for_range width (fun x => dt_forward_px width height y x)) dist.

Definition dt_backward (width height : nat) (dist : list Z) : list Z :=
  for_range_down height
    (fun y => for_range_down width (fun x => dt_backward_px width height y x)) dist.

Definition distanceTransform (src : list Z) (width height : nat) : list Z :=
  dt_backward width height (dt_forward width height (dt_init src (width * height))).

(** *** binsFromGradients *)

Section Bins.
(** [Math.floor(a * scale)] for [a = Math.atan2(gy, gx)], folded into
    [0, pi) by adding [Math.PI] when negative, and [scale = numBins / Math.PI]:
    [angle_bin gy gx numBins]. *)
Variable angle_bin : Z -> Z -> nat -> Z.

(** [bins[i] = b] after the two clamps. *)
Definition bin_at (gx gy : list Z) (numBins : nat) (i : nat) : Z :=
  let b := angle_bin (get gy i 0) (get gx i 0) numBins in
  let b := if b <? 0 then 0 else b in
  let b := if Z.of_nat numBins <=? b then Z.of_nat numBins - 1 else b in
  toUint8 b.

Definition binsFromGradients (gx gy : list Z) (width height numBins : nat) : list Z :=
  bin_at gx gy numBins <$> seq 0 (width * height).
End Bins.

(** *** upscaleNearest *)

Definition upscaleNearest (src : list Z) (w h W H : nat) : list Z :=
  if ((W =? w) && (H =? h))%nat then src
  else (fun p =>
          let x := (p mod W)%nat in
          let y := (p / W)%nat in
          let sx := Z.min (Z.of_nat w - 1) (Z.of_nat (x * w / W)) in
          let sy := Z.min (Z.of_nat h - 1) (Z.of_nat (y * h / H)) in
          let j := sy * Z.of_nat w + sx in
          if j <? 0 then 0 else get src (Z.to_nat j) 0)
       <$> seq 0 (W * H).

(** *** extractAlpha *)

(** [for (let i = 0, p = 0; i < rgba.length; i += channels, p++)
       out[p] = Number(rgba[i + 3] ?? 255)]; a store past the end of [out]
    is dropped and a pixel the loop does not reach stays 0. *)
Definition extractAlpha (rgba : list Z) (width height channels : nat) : list Z :=
  if (channels <? 4)%nat then replicate (width * height) 255
  else (fun p =>
          if (channels * p <? length rgba)%nat
          then toUint8 (default 255 (rgba !! (channels * p + 3)%nat))
          else 0)
       <$> seq 0 (width * height).

(** *** maskForBin *)

(** [out[i] = (Number(bins[i] ?? 0) === binIndex ? 255 : 0)] *)
Definition maskForBin (bins : list Z) (width height binIndex : nat) : list Z :=
  (fun i => if get bins i 0 =? Z.of_nat binIndex then 255 else 0) <$> seq 0 (width * height).

(** *** Rasters written pixel by pixel *)

(** [for (let y = 0; y < height; y++) for (let x = 0; x < width; x++)
       out[y * width + x] = f(x, y)] on a zero-filled array. *)
Definition raster_fill (width height : nat) (f : nat -> nat -> Z) : list Z :=
  for_range height
    (fun y => for_range width (fun x out => <[(y * width + x)%nat := f x y]> out))
    (replicate (width * height) 0).

(** [Math.max(0, Math.min(n - 1, v))] *)
Definition clamp_index (n : nat) (v : Z) : Z := Z.max 0 (Z.min (Z.of_nat n - 1) v).

(** The nine samples [gray[yy * width + xx] ?? 0] around [(x, y)], rows
    [j = -1, 0, 1] outside and columns [i = -1, 0, 1] inside, with the
    coordinates clamped to the image. *)
Definition offsets3x3 : list (Z * Z) :=
  [(-1, -1); (-1, 0); (-1, 1); (0, -1); (0, 0); (0, 1); (1, -1); (1, 0); (1, 1)].

Definition sample_at (gray : list Z) (width height x y : nat) (o : Z * Z) : Z :=
  let yy := clamp_index height (Z.of_nat y + fst o) in
  let xx := clamp_index width (Z.of_nat x + snd o) in
  get gray (Z.to_nat (yy * Z.of_nat width + xx)) 0.

Definition window (gray : list Z) (width height x y : nat) : list Z :=
  sample_at gray width height x y <$> offsets3x3.

(** [acc += v * k[idx++]] over the window. *)
Definition weighted (k v : list Z) : Z := fold_right Z.add 0 (zip_with Z.mul v k).

(** [Math.round(acc / wsum)] for [wsum > 0]: halves round up. *)
Definition round_div (acc wsum : Z) : Z := (2 * acc + wsum) / (2 * wsum).

(** *** gaussianBlur3x3 *)

Definition gauss_kernel : list Z := [1; 2; 1; 2; 4; 2; 1; 2; 1].

Definition gaussianBlur3x3 (gray : list Z) (width height : nat) : list Z :=
  raster_fill width height (fun x y =>
    let acc := weighted gauss_kernel (window gray width height x y) in
    let wsum := fold_right Z.add 0 gauss_kernel in
    toUint8 (if 0 <? wsum then round_div acc wsum
             else get gray (y * width + x)%nat 0)).

(** *** sobel *)

Definition sobel_kx : list Z := [-1; 0; 1; -2; 0; 2; -1; 0; 1].
Definition sobel_ky : list Z := [-1; -2; -1; 0; 0; 0; 1; 2; 1].

(** [{ gx, gy }] *)
Definition sobel (gray : list Z) (width height : nat) : list Z * list Z :=
  (raster_fill width height (fun x y => weighted sobel_kx (window gray width height x y)),
   raster_fill width height (fun x y => weighted sobel_ky (window gray width height x y))).

(** *** downsampleNearest, for a whole-number [scale] *)

(** [{ data, w, h }] *)
Definition downsampleNearest (src : list Z) (w h scale : nat) : list Z * nat * nat :=
  if (scale <=? 1)%nat then (src, w, h)
  else
    let nw := Nat.max 1 (w / scale) in
    let nh := Nat.max 1 (h / scale) in
    (raster_fill nw nh (fun x y =>
       let sx := Z.min (Z.of_nat w - 1) (Z.of_nat (x * scale)) in
       let sy := Z.min (Z.of_nat h - 1) (Z.of_nat (y * scale)) in
       let j := sy * Z.of_nat w + sx in
       toUint8 (if j <? 0 then 0 else get src (Z.to_nat j) 0)),
     nw, nh).

End Utils.

(** ** src/pipeline/edges.ts: the stitch dashing of [detectEdges] *)
Module Edges.

(** [const stitchLen = Math.max(2, options.threadThickness)] *)
Definition stitchLen (threadThickness : nat) : nat := Nat.max 2 threadThickness.

(** [(Math.floor(x / stitchLen) % 2) === 0] *)
Definition dash_on (x len : nat) : bool := ((x / len) mod 2 =? 0)%nat.

Definition stitch_px (edgeMap : list Z) (width threadThickness : nat)
    (y x : nat) (stitched : list Z) : list Z :=
  let i := (y * width + x)%nat in
  if truthy (edgeMap !! i)
  then <[i := if dash_on x (stitchLen threadThickness) then 255 else 0]> stitched
  else stitched.

(** The loop that fills [stitched] from the (undashed) [edgeMap]. *)
Definition dashEdges (edgeMap : list Z) (width height threadThickness : nat) : list Z :=
  for_range height
    (fun y => for_range width (fun x => stitch_px edgeMap width threadThickness y x))
    (replicate (length edgeMap) 0).

(** A pixel of a mask is kept when its byte is not zero. *)
Definition kept (mask : list Z) (width : nat) (x y : nat) : bool :=
  truthy (mask !! (y * width + x)%nat).

(** [const scale = Math.max(1, Math.ceil(Math.max(info.width, info.height) / targetMax))]
    with [targetMax = 600]. *)
Definition scale (width height : nat) : nat :=
  Nat.max 1 ((Nat.max width height + 599) / 600).

(** [const size = Math.max(3, options.threadThickness * 2 + 1)] *)
Definition kernel_size (threadThickness : nat) : nat := Nat.max 3 (threadThickness * 2 + 1).

(** [alphaBin[i] = alphaRaw[i] ? 255 : 0] *)
Definition alphaBin (alphaRaw : list Z) : list Z :=
  (fun v => if v =? 0 then 0 else 255) <$> alphaRaw.

(** [rimBand[i] = (v > size * size * 0.1 && v < size * size * 0.9) ? 255 : 0]
    for the byte [v = blurred[i] || 0].  The products are compared exactly:
    [10 * v] is even and [size * size] is odd for the odd sizes the function
    uses, so neither comparison is decided by rounding. *)
Definition rim_px (size : nat) (v : Z) : Z :=
  let s2 := Z.of_nat (size * size) in
  if (s2 <? 10 * v) && (10 * v <? 9 * s2) then 255 else 0.

Definition rimBand (blurred : list Z) (threadThickness : nat) : list Z :=
  rim_px (kernel_size threadThickness) <$> blurred.

End Edges.

(** ** src/pipeline/warnings.ts *)
Module Warnings.

Definition thin_strokes : string := "Thin strokes may not embroider cleanly".
Definition dense_detail : string := "Dense detail may fill in on fabric".

(** [`Reduced colors to ${maxColors}`] *)
Definition reduced_colors (maxColors : nat) : string :=
  String.append "Reduced colors to " (NilZero.string_of_uint (Nat.to_uint maxColors)).

(** [Math.min(minStroke, v)] where [None] is [Infinity]. *)
Definition min_inf (m : option Z) (v : Z) : Z :=
  match m with
  | None => v
  | Some m' => Z.min m' v
  end.

(** [if (alphaMask[i]) { minStroke = Math.min(minStroke, Number(distIn[i] ?? 0) * 2); samples++; }]
    The state is [(minStroke, samples)]; distances are in units of [2^-52],
    and doubling one is exact. *)
Definition stroke_px (alphaMask distIn : list Z) (i : nat) (st : option Z * nat) : option Z * nat :=
  if truthy (alphaMask !! i)
  then (Some (min_inf (fst st) (get distIn i 0 * 2)), S (snd st))
  else st.

(** [minStroke < threadThickness], both sides in units of [2^-52]. *)
Definition stroke_below (minStroke : option Z) (threadThickness : nat) : bool :=
  match minStroke with
  | None => false
  | Some m => m <? Float.one * Z.of_nat threadThickness
  end.

(** [on += edgeMask[i] ? 1 : 0] *)
Definition count_on (edgeMask : list Z) : nat :=
  for_range (length edgeMask)
    (fun i on => if truthy (edgeMask !! i) then S on else on) 0%nat.

(** [computeWarnings]; the optional arguments are [None] when omitted.
    The test [on / edgeMask.length > 0.12] is written [25 * on > 3 * length],
    which also gives [false] on the empty mask, where the source compares
    [NaN]. *)
Definition computeWarnings (alphaMask : list Z) (width height threadThickness : nat)
    (edgeMask : option (list Z)) (maxColors paletteSize : option nat) : list string :=
  let distIn := Utils.distanceTransform alphaMask width height in
  let st := for_range (length distIn) (stroke_px alphaMask distIn) (None, 0%nat) in
  let minStroke := fst st in
  let samples := snd st in
  let thin :=
    if (0 <? samples)%nat && stroke_below minStroke threadThickness
    then [thin_strokes] else [] in
  let dense :=
    match edgeMask with
    | Some em =>
        if (3 * length em <? 25 * count_on em)%nat then [dense_detail] else []
    | None => []
    end in
  let reduced :=
    match maxColors, paletteSize with
    | Some m, Some p => if (m <? p)%nat then [reduced_colors m] else []
    | _, _ => []
    end in
  thin ++ dense ++ reduced.

End Warnings.

(** ** src/pipeline/quantize.ts *)
Module Quantize.

(** A palette entry [{ r, g, b, a }]. *)
Record Color : Type := mkColor { red : Z; green : Z; blue : Z; alpha : Z }.

Definition Color_eqb (c d : Color) : bool :=
  (red c =? red d) && (green c =? green d) && (blue c =? blue d) && (alpha c =? alpha d).

(** *** The frequency variant: extractPaletteFast *)

(** [rgba[i] || d] *)
Definition or_else (o : option Z) (d : Z) : Z :=
  match o with
  | Some v => if v =? 0 then d else v
  | None => d
  end.

(** [Math.round(c / 16) * 16]: halves round up. *)
Definition round16 (c : Z) : Z := (c + 8) / 16 * 16.

(** The rounded color read at byte offset [i]. *)
Definition sample (rgba : list Z) (i : nat) : Color :=
  let r := or_else (rgba !! i) 0 in
  let g := or_else (rgba !! (i + 1)%nat) 0 in
  let b := or_else (rgba !! (i + 2)%nat) 0 in
  let a := or_else (rgba !! (i + 3)%nat) 255 in
  mkColor (round16 r) (round16 g) (round16 b) a.

(** The colors visited by [for (let i = 0; i < rgba.length; i += 4 * step)]
    with [step = 4], in order. *)
Definition samples (rgba : list Z) : list Color :=
  (fun j => sample rgba (16 * j)) <$> seq 0 ((length rgba + 15) / 16).

(** [colorFreq]: a [Map] keeps its keys in insertion order, so it is an
    association list.  The key string [`${r},${g},${b},${a}`] determines the
    color and is represented by it. *)
Fixpoint bump (c : Color) (m : list (Color * nat)) : list (Color * nat) :=
  match m with
  | [] => [(c, 1%nat)]
  | (c', n) :: m' =>
      if Color_eqb c c' then (c', S n) :: m' else (c', n) :: bump c m'
  end.

Definition colorFreq (rgba : list Z) : list (Color * nat) :=
  fold_left (fun m c => bump c m) (samples rgba) [].

(** [.sort((a, b) => b.count - a.count)]: [Array.prototype.sort] is stable,
    which fixes its result; it is computed here by insertion, an entry going
    in front of the entries that follow it in the map and do not count more. *)
Fixpoint insert_by_count (e : Color * nat) (l : list (Color * nat)) : list (Color * nat) :=
  match l with
  | [] => [e]
  | e' :: l' =>
      if (snd e' <=? snd e)%nat then e :: e' :: l' else e' :: insert_by_count e l'
  end.

Fixpoint sort_by_count (l : list (Color * nat)) : list (Color * nat) :=
  match l with
  | [] => []
  | e :: l' => insert_by_count e (sort_by_count l')
  end.

Definition extractPaletteFast (rgba : list Z) (maxColors : nat) : list Color :=
  fst <$> take maxColors (sort_by_count (colorFreq rgba)).

(** *** applyPaletteToImage *)

Definition distance (r g b : Z) (c : Color) : Z :=
  let dr := r - red c in
  let dg := g - green c in
  let db := b - blue c in
  dr * dr + dg * dg + db * db.

(** The inner loop; [minDistance = None] is [Infinity]. *)
Fixpoint closest (r g b : Z) (palette : list Color) (closestColor : Color)
    (minDistance : option Z) : Color :=
  match palette with
  | [] => closestColor
  | c :: rest =>
      let d := distance r g b c in
      if match minDistance with None => true | Some m => d <? m end
      then closest r g b rest c (Some d)
      else closest r g b rest closestColor minDistance
  end.

(** The outer loop, four bytes at a time; the stores into the [Buffer] wrap
    modulo 256.  A trailing group of fewer than four bytes (which a raw RGBA
    buffer does not have) reads [undefined]: with the blue channel missing
    every distance is [NaN] and the first palette entry is kept, and the
    stores past the end are dropped. *)
Fixpoint remap (palette : list Color) (first : Color) (data : list Z) : list Z :=
  match data with
  | r :: g :: b :: a :: rest =>
      let c := closest r g b palette first None in
      toUint8 (red c) :: toUint8 (green c) :: toUint8 (blue c) :: a
        :: remap palette first rest
  | [r; g; b] =>
      let c := closest r g b palette first None in
      [toUint8 (red c); toUint8 (green c); toUint8 (blue c)]
  | [_; _] => [toUint8 (red first); toUint8 (green first)]
  | [_] => [toUint8 (red first)]
  | [] => []
  end.

(** [None] is the [TypeError] of reading [closestColor.r] when the palette
    is empty and there is a pixel to write. *)
Definition applyPaletteToImage (data : list Z) (palette : list Color) : option (list Z) :=
  match palette, data with
  | [], _ :: _ => None
  | [], [] => Some []
  | first :: _, _ => Some (remap palette first data)
  end.

(** *** quantizeColors *)

Record QuantizationResult : Type := mkQuantized {
  q_data : list Z;
  q_width : nat;
  q_height : nat;
  q_palette : list Color;
  paletteSize : nat
}.

(** [Math.max(1, Math.ceil(Math.max(w, h) / Math.min(400, Math.max(w, h) * 0.6)))]
    for a non-empty image. *)
Definition scale (width height : nat) : nat :=
  let m := Nat.max width height in
  if (3 * m <=? 2000)%nat then 2%nat else Nat.max 1 ((m + 399) / 400).

Section QuantizeColors.
(** The codec's nearest-neighbour resize of an RGBA buffer:
    [resize data w h w' h'] is the [w' x h'] buffer, or [None] when the
    codec rejects the request. *)
Variable resize : list Z -> nat -> nat -> nat -> nat -> option (list Z).

(** [None] is the rethrown ["Color quantization failed: ..."]. *)
Definition quantizeColors (data : list Z) (width height : nat) (maxColors : nat)
    : option QuantizationResult :=
  let s := scale width height in
  match resize data width height (width / s) (height / s) with
  | None => None
  | Some downscaled =>
      let usedPalette := extractPaletteFast downscaled maxColors in
      match applyPaletteToImage data usedPalette with
      | None => None
      | Some quantizedFull =>
          Some (mkQuantized quantizedFull width height usedPalette (length usedPalette))
      end
  end.
End QuantizeColors.

(** The pixel that a nearest-neighbour rule reading the top-left source
    sample copies; used to run the examples. *)
Definition resize_top_left (data : list Z) (w h w' h' : nat) : option (list Z) :=
  if ((w' =? 0) || (h' =? 0))%nat then None
  else Some (concat ((fun p =>
         let x := (p mod w' * w / w')%nat in
         let y := (p / w' * h / h')%nat in
         let i := (4 * (y * w + x))%nat in
         [get data i 0; get data (i + 1) 0; get data (i + 2) 0; get data (i + 3) 0])
       <$> seq 0 (w' * h'))).

(** *** The scan-order variant: extractPaletteFromImage *)

(** A channel read by [Number(rgba[i])]; [None] is [NaN]. *)
Definition RawColor : Type := (option Z * option Z * option Z * option Z)%type.

Definition RawColor_eqb (c d : RawColor) : bool :=
  bool_decide (c = d).

Definition pixels (rgba : list Z) : list RawColor :=
  (fun j => (rgba !! (4 * j)%nat, rgba !! (4 * j + 1)%nat,
             rgba !! (4 * j + 2)%nat, rgba !! (4 * j + 3)%nat))
  <$> seq 0 ((length rgba + 3) / 4).

(** [for (...; i < rgba.length && palette.length < k; ...)]; [seen] holds
    the keys of [palette], so membership in [palette] stands for it. *)
Fixpoint scan (px : list RawColor) (k : nat) (palette : list RawColor) : list RawColor :=
  match px with
  | [] => palette
  | c :: rest =>
      if (length palette <? k)%nat
      then if existsb (RawColor_eqb c) palette
           then scan rest k palette
           else scan rest k (palette ++ [c])
      else palette
  end.

Definition extractPaletteFromImage (rgba : list Z) (k : nat) : list RawColor :=
  scan (pixels rgba) k [].

End Quantize.

(** ** src/pipeline/orientation.ts *)
Module Orientation.

(** [orientationMethod === 'binned-8' ? (mode === 'logo' ? 4 : 6)
                                       : (mode === 'logo' ? 8 : 12)] *)
Definition numBins (orientationMethod mode : string) : nat :=
  if String.eqb orientationMethod "binned-8"
  then (if String.eqb mode "logo" then 4 else 6)%nat
  else (if String.eqb mode "logo" then 8 else 12)%nat.

(** [const ANALYSIS_SIZE = mode === 'logo' ? 300 : 400] *)
Definition ANALYSIS_SIZE (mode : string) : nat :=
  if String.eqb mode "logo" then 300%nat else 400%nat.

Section ComputeOrientation.
Variable angle_bin : Z -> Z -> nat -> Z.
(** The codec's grey-scale, blur and Sobel convolutions on the image
    resized to at most [w' x h'], read back as 16-bit integers: [(gx, gy)]. *)
Variable gradients : list Z -> nat -> nat -> nat -> nat -> list Z * list Z.
(** The codec's nearest-neighbour resize of a one-channel raster from
    [w x h] to [W x H]. *)
Variable nearest : list Z -> nat -> nat -> nat -> nat -> list Z.

(** The [orientationBins] of the result. *)
Definition computeOrientation (data : list Z) (width height : nat)
    (orientationMethod mode : string) : list Z :=
  let dsw := Nat.min width (ANALYSIS_SIZE mode) in
  let dsh := Nat.min height (ANALYSIS_SIZE mode) in
  let '(gx, gy) := gradients data width height dsw dsh in
  let n := numBins orientationMethod mode in
  let orientationBinsDownscaled := Utils.binsFromGradients angle_bin gx gy dsw dsh n in
  nearest orientationBinsDownscaled dsw dsh width height.
End ComputeOrientation.

(** [createOrientationMask]: [out[i] = orientationBins[i] === binIndex ? 255 : 0] *)
Definition createOrientationMask (orientationBins : list Z) (binIndex : nat)
    (width height : nat) : list Z :=
  (fun i => if bool_decide (orientationBins !! i = Some (Z.of_nat binIndex)) then 255 else 0)
  <$> seq 0 (width * height).

End Orientation.

(** ** src/pipeline/textures.ts *)
Module Textures.

(** A texture is the PNG that the canvas renders for a drawing call; it is
    identified by that call. *)
Inductive Tile : Type :=
| ThreadTexture (size : nat) (angle : nat) (thickness : nat) (density : Qc)
| ClearCanvas (size : nat)
| HatchPattern (size : nat) (angle : nat) (density : Qc)
| CrossHatch (size : nat) (density : Qc).

Record TextureResult : Type := mkTextures {
  threadTextures : list Tile;
  hatchPatterns : list Tile;
  threadThickness : nat
}.

(** The outcome of a call: a value, or a thrown [Error] with its message. *)
Inductive Outcome (A : Type) : Type :=
| Returned (a : A)
| Threw (message : string).
Arguments Returned {A} a.
Arguments Threw {A} message.

(** [Math.max(0.5, Math.min(2, options.densityScale ?? 1))] *)
Definition clampDensity (densityScale : option Qc) : Qc :=
  let d := default (Q2Qc 1) densityScale in
  let d := if Qclt_le_dec (Q2Qc 2) d then Q2Qc 2 else d in
  if Qclt_le_dec d (Q2Qc (1 # 2)) then Q2Qc (1 # 2) else d.

Definition generateThreadTexturesFast (thickness : nat) (density : Qc) : list Tile :=
  let size := 64%nat in
  let numBins := 6%nat in
  (fun binIndex => ThreadTexture size (binIndex * 180 / numBins) thickness density)
  <$> seq 0 numBins.

(** The [if / else if] chain has no final [else]. *)
Definition generateHatchPatternsFast (hatchType : string) (density : Qc) : list Tile :=
  let size := 32%nat in
  if String.eqb hatchType "none" then [ClearCanvas size]
  else if String.eqb hatchType "diagonal" then [HatchPattern size 45 density]
  else if String.eqb hatchType "cross" then [CrossHatch size density]
  else [].

(** [globalTextureCache]: keys [`${threadThickness}_${hatch}_${density}`],
    represented by the triple they print. *)
Definition CacheKey : Type := (nat * string * Qc)%type.
Definition Cache : Type := list (CacheKey * list Tile).

Definition key_eqb (k k' : CacheKey) : bool :=
  (fst (fst k) =? fst (fst k'))%nat && String.eqb (snd (fst k)) (snd (fst k'))
  && bool_decide (snd k = snd k').

Fixpoint cache_get (cache : Cache) (k : CacheKey) : option (list Tile) :=
  match cache with
  | [] => None
  | (k', v) :: rest => if key_eqb k k' then Some v else cache_get rest k
  end.

(** [generateTextures]: the cache is threaded through the call.  Nothing
    inside the [try] block throws, so the [catch] is never entered. *)
Definition generateTextures (cache : Cache) (thickness : nat) (hatch : string)
    (densityScale : option Qc) : Outcome TextureResult * Cache :=
  let density := clampDensity densityScale in
  let cacheKey := (thickness, hatch, density) in
  match cache_get cache cacheKey with
  | Some cached =>
      (Returned (mkTextures (take 6 cached) (drop 6 cached) thickness), cache)
  | None =>
      let threads := generateThreadTexturesFast thickness density in
      let hatches := generateHatchPatternsFast hatch density in
      (Returned (mkTextures threads hatches thickness),
       cache ++ [(cacheKey, threads ++ hatches)])
  end.

(** The hatch values of the option type. *)
Definition valid_hatch (hatch : string) : bool :=
  String.eqb hatch "none" || String.eqb hatch "diagonal" || String.eqb hatch "cross".

End Textures.

(** ** src/pipeline/embroidery.ts: applyBackgroundLocal *)
Module Embroidery.

(** [{ type, hex?, name? }] *)
Record Background : Type := mkBackground {
  bg_type : string;
  bg_hex : option string;
  bg_name : option string
}.

Record Options : Type := mkOptions {
  preserveTransparency : bool;
  background : option Background
}.

Record Info : Type := mkInfo { width : nat; height : nat }.

Record Composited : Type := mkComposited { c_buffer : list Z; c_info : Info }.

Record Processed : Type := mkProcessed { buffer : list Z; mime : string; info : Info }.

(** [s.replace('#', '')]: the first ['#'] is removed. *)
Fixpoint remove_hash (s : string) : string :=
  match s with
  | EmptyString => EmptyString
  | String c rest => if Ascii.eqb c "#"%char then rest else String c (remove_hash rest)
  end.

(** [x || d] on an optional string: the empty string is falsy. *)
Definition str_or (x : option string) (d : string) : string :=
  match x with
  | Some EmptyString | None => d
  | Some s => s
  end.

(** [`${name}`] *)
Definition str_of (x : option string) : string := default "undefined"%string x.

Section Background.
(** [parseInt(s, 16)]; [None] is [NaN]. *)
Variable parseInt16 : string -> option Z.
(** A solid PNG of the given size and color. *)
Variable solid : nat -> nat -> Z * Z * Z -> list Z.
(** Whether the file at a path opens as an image, and that image resized
    to cover the given size. *)
Variable opens : string -> bool.
Variable cover : string -> nat -> nat -> list Z.
(** [sharp(background).composite([{ input }]).png().toBuffer()] *)
Variable composite_over : list Z -> list Z -> list Z.

(** [parseInt(hex.slice(a, a + 2), 16) || d] *)
Definition channel (hex : string) (a : nat) (d : Z) : Z :=
  match parseInt16 (substring a 2 hex) with
  | Some v => if v =? 0 then d else v
  | None => d
  end.

Definition is_color (bg : option Background) : bool :=
  match bg with
  | None => true
  | Some b => String.eqb (bg_type b) "color"
  end.

Definition applyBackgroundLocal (composited : Composited) (options : Options) : Processed :=
  if preserveTransparency options
  then mkProcessed (c_buffer composited) "image/png" (c_info composited)
  else
    let info := c_info composited in
    let backgroundBuffer :=
      if is_color (background options)
      then
        let hex := remove_hash
          (str_or (match background options with Some b => bg_hex b | None => None end)
                  "#E5E0D6") in
        let r := channel hex 0 229 in
        let g := channel hex 2 224 in
        let b := channel hex 4 214 in
        solid (width info) (height info) (r, g, b)
      else
        let name := str_of (match background options with Some b => bg_name b | None => None end) in
        let candidates :=
          [String.append "assets/fabrics/" (String.append name ".jpg");
           String.append "assets/fabrics/" (String.append name ".jpeg");
           String.append "assets/fabrics/" (String.append name ".png")] in
        match List.find opens candidates with
        | None => solid (width info) (height info) (229, 224, 214)
        | Some p => cover p (width info) (height info)
        end in
    mkProcessed (composite_over backgroundBuffer (c_buffer composited)) "image/png" info.
End Background.

Section Notices.
(** The codec's resize inside [quantizeColors], and the [edgeMap] that
    [detectEdges] returns for the quantized image and a thread thickness. *)
Variable resize : list Z -> nat -> nat -> nat -> nat -> option (list Z).
Variable edgeMap_of : list Z -> nat -> nat -> nat -> list Z.

(** The [warnings] of [processEmbroidery]:
    [quantized = await quantizeColors(normalized, options.maxColors)],
    [alpha = extractAlpha(quantized.data, quantized.info)], where
    [quantized.info.channels] is 4, and
    [computeWarnings(alpha, width, height, options.threadThickness,
       edges.edgeMap, options.maxColors, quantized.paletteSize)].
    [None] when the quantization throws. *)
Definition processEmbroidery_warnings (data : list Z) (width height : nat)
    (maxColors threadThickness : nat) : option (list string) :=
  match Quantize.quantizeColors resize data width height maxColors with
  | None => None
  | Some quantized =>
      let w := Quantize.q_width quantized in
      let h := Quantize.q_height quantized in
      let alpha := Utils.extractAlpha (Quantize.q_data quantized) w h 4 in
      let edgeMap := edgeMap_of (Quantize.q_data quantized) w h threadThickness in
      Some (Warnings.computeWarnings alpha w h threadThickness (Some edgeMap)
              (Some maxColors) (Some (Quantize.paletteSize quantized)))
  end.
End Notices.

End Embroidery.

(** ** src/pipeline/composite.ts *)
Module Composite.

(** *** The rim stitch patterns *)

(** [createSimpleStitchPattern]: [dash = Math.max(4, Math.round(stitchLength * 2))];
    with [width = 0] the column [i % width] is [NaN] and nothing is kept. *)
Definition createSimpleStitchPattern (rimBand : list Z) (stitchLength width height : nat)
    : list Z :=
  let dash := Nat.max 4 (stitchLength * 2) in
  for_range (length rimBand)
    (fun i out =>
       if truthy (rimBand !! i)
       then
         let on := negb (width =? 0)%nat && ((i mod width / dash) mod 2 =? 0)%nat in
         <[i := if on then 255 else 0]> out
       else out)
    (replicate (length rimBand) 0).

(** [createEnhancedStitchPattern]:
    [dash = Math.max(2, Math.round(stitchLength * 1.5))], halves rounding up. *)
Definition enhanced_dash (stitchLength : nat) : nat := Nat.max 2 ((3 * stitchLength + 1) / 2).

Definition createEnhancedStitchPattern (rimBand : list Z) (stitchLength width height : nat)
    : list Z :=
  let dash := enhanced_dash stitchLength in
  for_range height
    (fun y => for_range width
       (fun x out =>
          let i := (y * width + x)%nat in
          if truthy (rimBand !! i)
          then <[i := if ((x / dash + y / dash) mod 2 =? 0)%nat then 255 else 0]> out
          else out))
    (replicate (length rimBand) 0).

(** *** The thread layers *)

(** A tile sheet is the raw buffer the codec makes by tiling a texture over
    a [w x h] canvas; it is identified by that call. *)
Inductive Sheet : Type := Tiled (tile : option Textures.Tile) (w h : nat).

(** [keyTile(type, angle, w, h)] and [keyMask(bin, w, h, sig)]: the keys
    [`${type}:${angle}:${w}x${h}`] and [`${bin}:${w}x${h}:${sig}`],
    represented by the tuples they print. *)
Definition TileKey : Type := (string * nat * nat * nat)%type.
Definition MaskKey : Type := (nat * nat * nat * string)%type.
Definition keyTile (type : string) (angle w h : nat) : TileKey := (type, angle, w, h).
Definition keyMask (bin w h : nat) (sig : string) : MaskKey := (bin, w, h, sig).

(** [tileSheetCache] and [maskCache], as the entries that [get] finds; [set]
    adds an entry.  Eviction by capacity (64 and 128 entries) and by age
    (5 and 2 minutes) is not modelled. *)
Definition TileCache : Type := list (TileKey * Sheet).
Definition MaskCache : Type := list (MaskKey * list Z).

Definition tile_key_eqb (k k' : TileKey) : bool :=
  let '(t, a, w, h) := k in
  let '(t', a', w', h') := k' in
  String.eqb t t' && (a =? a')%nat && (w =? w')%nat && (h =? h')%nat.

Definition mask_key_eqb (k k' : MaskKey) : bool :=
  let '(b, w, h, s) := k in
  let '(b', w', h', s') := k' in
  (b =? b')%nat && (w =? w')%nat && (h =? h')%nat && String.eqb s s'.

Fixpoint tile_get (cache : TileCache) (k : TileKey) : option Sheet :=
  match cache with
  | [] => None
  | (k', v) :: rest => if tile_key_eqb k k' then Some v else tile_get rest k
  end.

Fixpoint mask_get (cache : MaskCache) (k : MaskKey) : option (list Z) :=
  match cache with
  | [] => None
  | (k', v) :: rest => if mask_key_eqb k k' then Some v else mask_get rest k
  end.

(** One layer pushed on [compositeOps]: the sheet and the mask it is seen
    through. *)
Record ThreadLayer : Type := mkLayer {
  layer_bin : nat;
  layer_sheet : Sheet;
  layer_mask : list Z
}.

(** The body of the loop for the bin [actualBin]. *)
Definition thread_layer (threadTextures : list Textures.Tile) (orientationBins : list Z)
    (w h : nat) (actualBin : nat) (st : TileCache * MaskCache * list ThreadLayer)
    : TileCache * MaskCache * list ThreadLayer :=
  let '(tiles, masks, ops) := st in
  let tileKey := keyTile "thread" actualBin w h in
  let '(threadSheet, tiles) :=
    match tile_get tiles tileKey with
    | Some sheet => (sheet, tiles)
    | None =>
        let sheet := Tiled (threadTextures !! actualBin) w h in
        (sheet, (tileKey, sheet) :: tiles)
    end in
  let maskKey := keyMask actualBin w h "bins" in
  let '(maskBuf, masks) :=
    match mask_get masks maskKey with
    | Some m => (m, masks)
    | None =>
        let m := Orientation.createOrientationMask orientationBins actualBin w h in
        (m, (maskKey, m) :: masks)
    end in
  (tiles, masks, ops ++ [mkLayer actualBin threadSheet maskBuf]).

(** [for (let binIndex = 0; binIndex < threadTextures.length; binIndex++)] *)
Definition thread_layers_full (threadTextures : list Textures.Tile)
    (orientationBins : list Z) (w h : nat) (tiles : TileCache) (masks : MaskCache)
    : TileCache * MaskCache * list ThreadLayer :=
  for_range (length threadTextures)
    (fun binIndex => thread_layer threadTextures orientationBins w h binIndex)
    (tiles, masks, []).

(** [const maxBins = Math.min(3, threadTextures.length)] and
    [const actualBin = binIndex * 2 % threadTextures.length] *)
Definition thread_layers_fast (threadTextures : list Textures.Tile)
    (orientationBins : list Z) (w h : nat) (tiles : TileCache) (masks : MaskCache)
    : TileCache * MaskCache * list ThreadLayer :=
  for_range (Nat.min 3 (length threadTextures))
    (fun binIndex =>
       thread_layer threadTextures orientationBins w h
         (binIndex * 2 mod length threadTextures))
    (tiles, masks, []).

End Composite.

(** ** src/server.ts: the options of a request *)
Module Server.

(** The parsed [options] field; a missing member is [None]. *)
Record RawBackground : Type := mkRawBackground {
  raw_type : string;
  raw_hex : option string;
  raw_name : option string
}.

Record RawOptions : Type := mkRaw {
  raw_maxColors : option Z;
  raw_threadThickness : option Z;
  raw_preserveTransparency : option bool;
  raw_hatch : option string;
  raw_background : option RawBackground;
  raw_borderStitch : option bool;
  raw_borderWidth : option Z
}.

Record Options : Type := mkOptions {
  maxColors : Z;
  threadThickness : Z;
  preserveTransparency : bool;
  hatch : string;
  background : option RawBackground;
  borderStitch : bool;
  borderWidth : Z
}.

(** A [400] reply with its [error] text, or the options handed to the
    worker. *)
Inductive Reply : Type :=
| BadRequest (error : string)
| Run (options : Options).

(** [!s] on an optional string. *)
Definition missing (s : option string) : bool :=
  match s with
  | Some (String _ _) => false
  | _ => true
  end.

Definition normalize (raw : RawOptions) : Options :=
  mkOptions
    (Z.min 12 (Z.max 2 (default 8 (raw_maxColors raw))))
    (Z.max 1 (Z.min 10 (default 3 (raw_threadThickness raw))))
    (default true (raw_preserveTransparency raw))
    (default "diagonal"%string (raw_hatch raw))
    (raw_background raw)
    (default true (raw_borderStitch raw))
    (default (default 3 (raw_threadThickness raw)) (raw_borderWidth raw)).

Definition validate (raw : RawOptions) : Reply :=
  let options := normalize raw in
  if negb (Textures.valid_hatch (hatch options))
  then BadRequest "Invalid hatch option"
  else
    match background options with
    | None => Run options
    | Some bg =>
        if negb (String.eqb (raw_type bg) "color" || String.eqb (raw_type bg) "fabric")
        then BadRequest "Invalid background type"
        else if String.eqb (raw_type bg) "color" && missing (raw_hex bg)
        then BadRequest "Missing background color"
        else if String.eqb (raw_type bg) "fabric" && missing (raw_name bg)
        then BadRequest "Missing fabric name"
        else Run options
    end.

End Server.

(** * Vocabulary of the statements *)

(** ** Stitch dashing *)

Section DashingVocabulary.
Variables (edgeMap : list Z) (w T : nat).

(** What [stitched] holds once the indices below [k] have been visited. *)
Definition stitched_upto (k i : nat) : option Z :=
  if (i <? length edgeMap)%nat
  then Some (if (i <? k)%nat && truthy (edgeMap !! i)
                && Edges.dash_on (i mod w) (Edges.stitchLen T)
             then 255 else 0)
  else None.

End DashingVocabulary.

(** ** Rounding *)

(** The shape of [x >= 0] rounded to [p] significant bits: [x] itself when it
    has at most [p] bits, else its leading [p] bits [q], moved up by one when
    the dropped bits [r] are above the half, or at the half with [q] odd. *)
Definition rounds_to (p x v : Z) : Prop :=
  (x < 2 ^ p /\ v = x) \/
  exists s q r, 0 < s /\ x = q * 2 ^ s + r /\ 0 <= r < 2 ^ s /\
    2 ^ (p - 1) <= q < 2 ^ p /\
    v = (if (r <? 2 ^ (s - 1)) || ((r =? 2 ^ (s - 1)) && Z.even q) then q else q + 1) * 2 ^ s.

(** What a pixel holds after a relaxation against a neighbour that holds [v]:
    the binary64 sum [v + cost], stored as a binary32. *)
Definition step (cost v : Z) : Z := Float.fround (Float.add v cost).

(** [v] lies above (resp. below) the exact length [C] by at most
    [C^2 / 2^75] units: for a length of [D] pixels, [D^2 / 2^23] pixels. *)
Definition near_above (C v : Z) : Prop := (v - C) * 2 ^ 75 <= C * C.
Definition near_below (C v : Z) : Prop := (C - v) * 2 ^ 75 <= C * C.

(** ** Chamfer distances *)

(** Two pixels that share an edge, and two that share only a corner. *)
Definition adjacent4 (x y x' y' : nat) : Prop :=
  (x = x' /\ (y = S y' \/ y' = S y)) \/ (y = y' /\ (x = S x' \/ x' = S x)).

Definition adjacent_diag (x y x' y' : nat) : Prop :=
  (x = S x' \/ x' = S x) /\ (y = S y' \/ y' = S y).

(** A neighbour of a pixel and the cost of the step between them. *)
Definition neighbour (x y x' y' : nat) (c : Z) : Prop :=
  (adjacent4 x y x' y' /\ c = Utils.cost_orth) \/
  (adjacent_diag x y x' y' /\ c = Utils.cost_diag).

(** The sides for which the error bounds are proved. *)
Definition max_side : Z := 2 ^ 20.

Section ChamferVocabulary.
Variables (src : list Z) (w h : nat).

(** The value of the pixel in column [x] of row [y]. *)
Definition px (d : list Z) (x y : nat) : Z := get d (y * w + x)%nat Utils.inf.

(** A set pixel of the input: [(src[i] ?? 0) > 0]. *)
Definition is_set (x y : nat) : Prop := 0 < get src (y * w + x)%nat 0.

(** The exact Chamfer length of the displacement between two pixels: the
    shorter side in diagonal steps, the rest in straight steps. *)
Definition cham (x y sx sy : nat) : Z :=
  let dx := Z.abs (Z.of_nat x - Z.of_nat sx) in
  let dy := Z.abs (Z.of_nat y - Z.of_nat sy) in
  Utils.cost_orth * (Z.max dx dy - Z.min dx dy) + Utils.cost_diag * Z.min dx dy.

(** A stored value: a binary32, 0 on a set pixel and at least 1 elsewhere. *)
Definition good_at (x y : nat) (v : Z) : Prop :=
  0 <= v /\ Float.fround v = v /\
  (is_set x y -> v = 0) /\ (~ is_set x y -> Float.one <= v).

Definition good (d : list Z) : Prop :=
  forall x y, (x < w)%nat -> (y < h)%nat -> good_at x y (px d x y).

(** A value that no path from a set pixel undercuts by more than the
    rounding of its steps. *)
Definition sound_at (x y : nat) (v : Z) : Prop :=
  Utils.inf <= v \/
  exists sx sy, (sx < w)%nat /\ (sy < h)%nat /\ is_set sx sy /\
    near_below (cham x y sx sy) v.

Definition sound (d : list Z) : Prop :=
  forall x y, (x < w)%nat -> (y < h)%nat -> sound_at x y (px d x y).

(** Pixels with flat index below [k] are relaxed against the forward mask. *)
Definition fwd_closed (k : nat) (d : list Z) : Prop :=
  forall x y, (x < w)%nat -> (y < h)%nat -> (y * w + x < k)%nat ->
    ((0 < x)%nat -> px d x y <= step Utils.cost_orth (px d (x - 1) y)) /\
    ((0 < y)%nat -> px d x y <= step Utils.cost_orth (px d x (y - 1))) /\
    ((0 < x)%nat -> (0 < y)%nat -> px d x y <= step Utils.cost_diag (px d (x - 1) (y - 1))) /\
    ((x + 1 < w)%nat -> (0 < y)%nat -> px d x y <= step Utils.cost_diag (px d (x + 1) (y - 1))).

(** Pixels with flat index at least [k] are relaxed against the backward mask. *)
Definition bwd_closed (k : nat) (d : list Z) : Prop :=
  forall x y, (x < w)%nat -> (y < h)%nat -> (k <= y * w + x)%nat ->
    ((x + 1 < w)%nat -> px d x y <= step Utils.cost_orth (px d (x + 1) y)) /\
    ((y + 1 < h)%nat -> px d x y <= step Utils.cost_orth (px d x (y + 1))) /\
    ((x + 1 < w)%nat -> (y + 1 < h)%nat -> px d x y <= step Utils.cost_diag (px d (x + 1) (y + 1))) /\
    ((0 < x)%nat -> (y + 1 < h)%nat -> px d x y <= step Utils.cost_diag (px d (x - 1) (y + 1))).

Definition below (d d0 : list Z) : Prop :=
  forall x y, (x < w)%nat -> (y < h)%nat -> px d x y <= px d0 x y.

(** The value [best] of the forward pass at a pixel, before it is stored. *)
Definition fwd_best (d : list Z) (x y : nat) : Z :=
  Utils.relax ((x + 1 <? w)%nat && (0 <? y)%nat) d ((y - 1) * w + (x + 1)) Utils.cost_diag
    (Utils.relax ((0 <? x)%nat && (0 <? y)%nat) d ((y - 1) * w + (x - 1)) Utils.cost_diag
      (Utils.relax (0 <? y)%nat d ((y - 1) * w + x) Utils.cost_orth
        (Utils.relax (0 <? x)%nat d (y * w + (x - 1)) Utils.cost_orth (px d x y)))).

(** The value [best] of the backward pass at a pixel, before it is stored. *)
Definition bwd_best (d : list Z) (x y : nat) : Z :=
  Utils.relax ((0 <? x)%nat && (y + 1 <? h)%nat) d ((y + 1) * w + (x - 1)) Utils.cost_diag
    (Utils.relax ((x + 1 <? w)%nat && (y + 1 <? h)%nat) d ((y + 1) * w + (x + 1)) Utils.cost_diag
      (Utils.relax (y + 1 <? h)%nat d ((y + 1) * w + x) Utils.cost_orth
        (Utils.relax (x + 1 <? w)%nat d (y * w + (x + 1)) Utils.cost_orth (px d x y)))).

(** [best] is the value of the pixel or the sum at one of its neighbours. *)
Definition picked (d : list Z) (x y : nat) (best : Z) : Prop :=
  best = px d x y \/
  exists x' y' c, (x' < w)%nat /\ (y' < h)%nat /\ neighbour x y x' y' c /\
    best = Float.add (px d x' y') c.

(** The state of a pass that started from [d0], with the forward (resp.
    backward) mask applied up to flat index [k]. *)
Definition fwd_inv (d0 : list Z) (k : nat) (d : list Z) : Prop :=
  length d = length d0 /\ below d d0 /\ good d /\ fwd_closed k d.

Definition bwd_inv (d0 : list Z) (k : nat) (d : list Z) : Prop :=
  length d = length d0 /\ below d d0 /\ good d /\ bwd_closed k d.

End ChamferVocabulary.


(** ** The thin-stroke loop of computeWarnings *)

Section ThinStrokesVocabulary.
Variable alphaMask : list Z.

(** After [k] pixels: nothing opaque seen yet, or the minimum is already 0. *)
Definition stroke_inv (k : nat) (st : option Z * nat) : Prop :=
  (st = (None, 0%nat) /\ forall i, (i < k)%nat -> truthy (alphaMask !! i) = false) \/
  (fst st = Some 0 /\ (0 < snd st)%nat /\
   exists i, (i < k)%nat /\ truthy (alphaMask !! i) = true).

End ThinStrokesVocabulary.

(** ** The texture cache *)

(** What a miss stores under a key. *)
Definition generated (k : Textures.CacheKey) : list Textures.Tile :=
  Textures.generateThreadTexturesFast (fst (fst k)) (snd k)
  ++ Textures.generateHatchPatternsFast (snd (fst k)) (snd k).

(** Every entry of the cache was stored by a miss. *)
Definition cache_ok (cache : Textures.Cache) : Prop :=
  Forall (fun e => snd e = generated (fst e)) cache.

(** ** Palettes *)

#[global] Instance Color_eq_dec : EqDecision Quantize.Color.
Proof. solve_decision. Defined.

Section Distinct.
Context {A : Type} `{EqDecision A}.

(** The distinct elements of a list, in order of first occurrence. *)
Definition add_new (c : A) (acc : list A) : list A :=
  if bool_decide (c ∈ acc) then acc else acc ++ [c].

Definition firsts (l : list A) : list A :=
  fold_left (fun acc c => add_new c acc) l [].

Definition occurrences (c : A) (l : list A) : nat :=
  length (List.filter (fun d => bool_decide (d = c)) l).

(** [a] stands before [b] in [l]. *)
Definition precedes (l : list A) (a b : A) : Prop :=
  exists l1 l2 l3, l = l1 ++ a :: l2 ++ b :: l3.
End Distinct.

(** Entries in descending order of count. *)
Definition count_ge (e e' : Quantize.Color * nat) : Prop := (snd e' <= snd e)%nat.

(** The entries with a given count. *)
Definition with_count (n : nat) (l : list (Quantize.Color * nat)) : list (Quantize.Color * nat) :=
  List.filter (fun e => (snd e =? n)%nat) l.

(** The pixel with index [j] of an RGBA buffer. *)
Definition pixel_at (data : list Z) (j : nat) : option (Z * Z * Z * Z) :=
  match data !! (4 * j)%nat, data !! (4 * j + 1)%nat,
        data !! (4 * j + 2)%nat, data !! (4 * j + 3)%nat with
  | Some r, Some g, Some b, Some a => Some (r, g, b, a)
  | _, _, _, _ => None
  end.

(** An 18 x 2 opaque image of three vertical bands: red, green, blue. *)
Definition banded_18x2 : list Z :=
  concat ((fun p =>
             let band := (p mod 18 / 6)%nat in
             [if (band =? 0)%nat then 192 else 0;
              if (band =? 1)%nat then 192 else 0;
              if (band =? 2)%nat then 192 else 0;
              255])
          <$> seq 0 36).

(** A 2 x 2 opaque white image. *)
Definition white_2x2 : list Z := replicate 16 255.

(** Its nearest-neighbour reduction to 9 x 1. *)
Definition banded_9x1 : list Z :=
  concat ((fun p =>
             let band := (p / 3)%nat in
             [if (band =? 0)%nat then 192 else 0;
              if (band =? 1)%nat then 192 else 0;
              if (band =? 2)%nat then 192 else 0;
              255])
          <$> seq 0 9).

(** An opaque 104 x 2 image of 13 vertical bands, 8 pixels wide, whose red
    channels are 0, 16, ..., 192. *)
Definition banded_104x2 : list Z :=
  concat ((fun p => [16 * Z.of_nat (p mod 104 / 8); 0; 0; 255]) <$> seq 0 208).

(** Its nearest-neighbour reduction to 52 x 1. *)
Definition banded_52x1 : list Z :=
  concat ((fun p => [16 * Z.of_nat (p / 4); 0; 0; 255]) <$> seq 0 52).

(** The alpha mask of an [n x n] image whose only opaque pixels are those
    of the 1-px-wide main diagonal. *)
Definition diagonal_mask (n : nat) : list Z :=
  (fun i => if (i mod n =? i / n)%nat then 255 else 0) <$> seq 0 (n * n).

(** ** The thread layers and their caches *)

Section LayerVocabulary.
Variables (threadTextures : list Textures.Tile) (orientationBins : list Z) (w h : nat).

(** What a miss builds for a bin. *)
Definition fresh_sheet (b : nat) : Composite.Sheet :=
  Composite.Tiled (threadTextures !! b) w h.

Definition fresh_mask (b : nat) : list Z :=
  Orientation.createOrientationMask orientationBins b w h.

Definition fresh_layer (b : nat) : Composite.ThreadLayer :=
  Composite.mkLayer b (fresh_sheet b) (fresh_mask b).

(** Caches whose entries for this size were built from these textures and
    these bins. *)
Definition caches_from (tiles : Composite.TileCache) (masks : Composite.MaskCache) : Prop :=
  (forall b s, Composite.tile_get tiles (Composite.keyTile "thread" b w h) = Some s ->
               s = fresh_sheet b) /\
  (forall b m, Composite.mask_get masks (Composite.keyMask b w h "bins") = Some m ->
               m = fresh_mask b).

(** Caches that hold those entries for the bins of [bs]. *)
Definition caches_hold (bs : list nat)
    (tiles : Composite.TileCache) (masks : Composite.MaskCache) : Prop :=
  forall b, In b bs ->
    Composite.tile_get tiles (Composite.keyTile "thread" b w h) = Some (fresh_sheet b) /\
    Composite.mask_get masks (Composite.keyMask b w h "bins") = Some (fresh_mask b).

(** The loop body run over a list of bins. *)
Definition run_layers (bs : list nat)
    (st : Composite.TileCache * Composite.MaskCache * list Composite.ThreadLayer)
    : Composite.TileCache * Composite.MaskCache * list Composite.ThreadLayer :=
  fold_left (fun st b => Composite.thread_layer threadTextures orientationBins w h b st) bs st.

End LayerVocabulary.

(** The bins the reduced loop visits for [n] textures. *)
Definition fast_bins (n : nat) : list nat :=
  (fun binIndex => (binIndex * 2 mod n)%nat) <$> seq 0 (Nat.min 3 n).

(** ** Palettes, continued *)

(** A byte. *)
Definition is_byte (v : Z) : Prop := 0 <= v < 256.

(** The index of the palette entry nearest to [(r, g, b)], the first one
    among equally near entries. *)
Definition nearest_at (palette : list Quantize.Color) (r g b : Z) (i : nat)
    (c : Quantize.Color) : Prop :=
  palette !! i = Some c /\
  (forall j c', palette !! j = Some c' ->
     Quantize.distance r g b c <= Quantize.distance r g b c') /\
  (forall j c', (j < i)%nat -> palette !! j = Some c' ->
     Quantize.distance r g b c < Quantize.distance r g b c').
(** * Properties *)

(** ** Loop invariants *)

Lemma for_range_inv {A : Type} (P : nat -> A -> Prop) (n : nat)
    (body : nat -> A -> A) (a : A) :
  P 0%nat a ->
  (forall k s, (k < n)%nat -> P k s -> P (S k) (body k s)) ->
  P n (for_range n body a).
Proof.
  unfold for_range. induction n as [|n IH]; intros H0 Hstep.
  - exact H0.
  - rewrite seq_S, fold_left_app. simpl.
    apply Hstep; [lia|]. apply IH; [exact H0|].
    intros k s Hk. apply Hstep. lia.
Qed.

Lemma for_range_down_inv {A : Type} (P : nat -> A -> Prop) (n : nat)
    (body : nat -> A -> A) (a : A) :
  P n a ->
  (forall k s, (k < n)%nat -> P (S k) s -> P k (body k s)) ->
  P 0%nat (for_range_down n body a).
Proof.
  unfold for_range_down. revert a. induction n as [|n IH]; intros a Hn Hstep.
  - exact Hn.
  - rewrite seq_S, rev_app_distr. simpl.
    apply IH.
    + apply Hstep; [lia|exact Hn].
    + intros k s Hk. apply Hstep. lia.
Qed.

(** A row-major sweep visits the flat indices [0 .. h*w - 1] in order. *)
Lemma raster_inv {A : Type} (P : nat -> A -> Prop) (w h : nat)
    (f : nat -> nat -> A -> A) (a : A) :
  P 0%nat a ->
  (forall y x s, (y < h)%nat -> (x < w)%nat ->
     P (y * w + x)%nat s -> P (S (y * w + x)) (f y x s)) ->
  P (h * w)%nat (for_range h (fun y => for_range w (fun x => f y x)) a).
Proof.
  intros H0 Hstep.
  apply (for_range_inv (fun y s => P (y * w)%nat s)); [exact H0|].
  intros y s Hy Hs.
  replace (S y * w)%nat with (y * w + w)%nat by lia.
  apply (for_range_inv (fun x s => P (y * w + x)%nat s)).
  - now rewrite Nat.add_0_r.
  - intros x s' Hx Hs'. rewrite Nat.add_succ_r. now apply Hstep.
Qed.

(** The reverse sweep visits them from [h*w - 1] down to [0]. *)
Lemma raster_down_inv {A : Type} (P : nat -> A -> Prop) (w h : nat)
    (f : nat -> nat -> A -> A) (a : A) :
  P (h * w)%nat a ->
  (forall y x s, (y < h)%nat -> (x < w)%nat ->
     P (S (y * w + x)) s -> P (y * w + x)%nat (f y x s)) ->
  P 0%nat (for_range_down h (fun y => for_range_down w (fun x => f y x)) a).
Proof.
  intros Hn Hstep.
  apply (for_range_down_inv (fun y s => P (y * w)%nat s)); [exact Hn|].
  intros y s Hy Hs.
  replace (y * w)%nat with (y * w + 0)%nat by lia.
  apply (for_range_down_inv (fun x s => P (y * w + x)%nat s)).
  - now replace (y * w + w)%nat with (S y * w)%nat by lia.
  - intros x s' Hx Hs'. apply Hstep; [exact Hy|exact Hx|].
    now rewrite <- Nat.add_succ_r.
Qed.

(** ** seededRandom *)

Lemma toUint32_range (x : Z) : 0 <= Utils.toUint32 x < 2 ^ 32.
Proof. unfold Utils.toUint32. apply Z.mod_pos_bound. lia. Qed.

Lemma state_after_range (n : nat) (seed : Z) :
  0 <= Utils.state_after n (Utils.seededRandom seed) < 2 ^ 32.
Proof.
  destruct n as [|n]; simpl.
  - apply toUint32_range.
  - unfold Utils.lcg. apply toUint32_range.
Qed.

(** The product and sum of the update stay below 2^53, so the source's
    double-precision arithmetic computes them exactly before [>>> 0]. *)
Lemma lcg_exact_in_double (s : Z) :
  0 <= s < 2 ^ 32 -> 0 <= s * 1664525 + 1013904223 < 2 ^ 53.
Proof. intros H. split; nia. Qed.

(** The update is one-to-one on the states: every state is reached from
    exactly one state. *)
Lemma lcg_injective (s1 s2 : Z) :
  0 <= s1 < 2 ^ 32 -> 0 <= s2 < 2 ^ 32 -> Utils.lcg s1 = Utils.lcg s2 -> s1 = s2.
Proof.
  intros H1 H2 E. unfold Utils.lcg, Utils.toUint32 in E.
  assert (E' : ((s1 * 1664525 + 1013904223) * 4276115653) mod 2 ^ 32
             = ((s2 * 1664525 + 1013904223) * 4276115653) mod 2 ^ 32)
    by (rewrite <- Z.mul_mod_idemp_l, E, Z.mul_mod_idemp_l; lia).
  rewrite (Z.mod_eq _ (2 ^ 32)) in E' by lia.
  rewrite (Z.mod_eq ((s2 * 1664525 + 1013904223) * 4276115653) (2 ^ 32)) in E' by lia.
  set (q1 := _ / 2 ^ 32) in E'. set (q2 := _ / 2 ^ 32) in E'.
  change (2 ^ 32) with 4294967296 in *. lia.
Qed.

Lemma land_low28 (s : Z) : Z.land s 268435455 = s mod 2 ^ 28.
Proof. change 268435455 with (Z.ones 28). apply Z.land_ones. lia. Qed.

(** C7 (as amended): on every call the state becomes
    [(s * 1664525 + 1013904223) mod 2^32], and the number returned is
    [(s' mod 2^28) / (2^28 - 1)] for the new state [s']: it is read from the
    low 28 bits of the state and lies in the closed interval [0, 1]. *)
Theorem seededRandom_update_and_value (n : nat) (seed : Z) :
  let s := Utils.state_after n (Utils.seededRandom seed) in
  let s' := Utils.state_after (S n) (Utils.seededRandom seed) in
  s' = (s * 1664525 + 1013904223) mod 2 ^ 32 /\
  (Utils.nth_value n seed == (s' mod 2 ^ 28) # 268435455)%Q /\
  (0 <= Utils.nth_value n seed)%Q /\ (Utils.nth_value n seed <= 1)%Q.
Proof.
  intros s s'. subst s s'. unfold Utils.nth_value. simpl.
  set (t := Utils.lcg (Utils.state_after n (Utils.seededRandom seed))).
  unfold Utils.lcg_value. rewrite land_low28.
  assert (Ht : 0 <= t mod 2 ^ 28 < 2 ^ 28) by (apply Z.mod_pos_bound; lia).
  split; [reflexivity|]. split; [reflexivity|].
  split; unfold Qle; simpl; lia.
Qed.

(** C7 (as stated) fails: the first number returned for seed 116766496 is
    exactly 1, outside the half-open interval. *)
Lemma seededRandom_returns_one :
  (Utils.nth_value 0 116766496 == 1)%Q /\ ~ (Utils.nth_value 0 116766496 < 1)%Q.
Proof.
  split.
  - vm_compute. reflexivity.
  - vm_compute. intros H. discriminate H.
Qed.

(** ** The stitch dashing of detectEdges *)

Lemma truthy_flag (b : bool) : truthy (Some (if b then 255 else 0)) = b.
Proof. now destruct b. Qed.

Section Dashing.
Variables (edgeMap : list Z) (w T : nat).
Local Abbreviation stitched_upto := (stitched_upto edgeMap w T).

Lemma stitched_init (i : nat) :
  replicate (length edgeMap) 0 !! i = stitched_upto 0 i.
Proof.
  unfold stitched_upto. destruct (i <? length edgeMap)%nat eqn:E.
  - apply Nat.ltb_lt in E. simpl. now apply lookup_replicate_2.
  - apply Nat.ltb_ge in E. apply lookup_replicate_None. lia.
Qed.

Lemma stitch_px_step (y x : nat) (st : list Z) :
  (x < w)%nat ->
  (forall i, st !! i = stitched_upto (y * w + x) i) ->
  forall i, Edges.stitch_px edgeMap w T y x st !! i = stitched_upto (S (y * w + x)) i.
Proof.
  intros Hx Hst i. unfold Edges.stitch_px.
  assert (Hmod : ((y * w + x) mod w = x)%nat).
  { rewrite Nat.add_comm, Nat.Div0.mod_add. now apply Nat.mod_small. }
  destruct (decide (i = (y * w + x)%nat)) as [->|Hne].
  - unfold stitched_upto. rewrite Hmod.
    replace (y * w + x <? S (y * w + x))%nat with true
      by (symmetry; apply Nat.ltb_lt; lia).
    destruct (edgeMap !! (y * w + x)%nat) as [v|] eqn:Hv; simpl.
    + assert (Hlt : (y * w + x < length edgeMap)%nat)
        by (apply lookup_lt_is_Some; eauto).
      replace (y * w + x <? length edgeMap)%nat with true
        by (symmetry; apply Nat.ltb_lt; lia).
      destruct (negb (v =? 0)) eqn:Hz; simpl.
      * rewrite list_lookup_insert_eq; [reflexivity|].
        assert (Hs := Hst (y * w + x)%nat). unfold stitched_upto in Hs.
        replace (y * w + x <? length edgeMap)%nat with true in Hs
          by (symmetry; apply Nat.ltb_lt; lia).
        apply lookup_lt_is_Some. eauto.
      * rewrite Hst. unfold stitched_upto.
        replace (y * w + x <? length edgeMap)%nat with true
          by (symmetry; apply Nat.ltb_lt; lia).
        rewrite Hv. simpl. rewrite Hz. now rewrite andb_false_r.
    + rewrite Hst. unfold stitched_upto. rewrite Hv. simpl.
      now rewrite andb_false_r.
  - assert (Hsame : Edges.stitch_px edgeMap w T y x st !! i = st !! i).
    { unfold Edges.stitch_px. destruct (truthy _); [|reflexivity].
      apply list_lookup_insert_ne. congruence. }
    unfold Edges.stitch_px in Hsame. rewrite Hsame, Hst.
    unfold stitched_upto.
    replace (i <? S (y * w + x))%nat with (i <? y * w + x)%nat; [reflexivity|].
    destruct (i <? y * w + x)%nat eqn:E1; symmetry.
    + apply Nat.ltb_lt in E1. apply Nat.ltb_lt. lia.
    + apply Nat.ltb_ge in E1. apply Nat.ltb_ge. lia.
Qed.

Lemma dashEdges_lookup (h i : nat) :
  Edges.dashEdges edgeMap w h T !! i = stitched_upto (h * w) i.
Proof.
  revert i. unfold Edges.dashEdges.
  apply (raster_inv (fun k st => forall i, st !! i = stitched_upto k i)).
  - apply stitched_init.
  - intros y x st _ Hx Hst. now apply stitch_px_step.
Qed.
End Dashing.

(** C4 (as amended): the dashed edge output keeps the pixel at column [x]
    iff the underlying (undashed) edge pixel is set and
    [floor (x / max 2 T) mod 2 = 0]; the run length is [max 2 T], not [T]. *)
Theorem dashEdges_keeps_iff (edgeMap : list Z) (w h T x y : nat) :
  (x < w)%nat -> (y < h)%nat ->
  Edges.kept (Edges.dashEdges edgeMap w h T) w x y = true <->
  Edges.kept edgeMap w x y = true /\ ((x / Nat.max 2 T) mod 2 = 0)%nat.
Proof.
  intros Hx Hy. unfold Edges.kept. rewrite dashEdges_lookup.
  unfold stitched_upto.
  assert (Hmod : ((y * w + x) mod w = x)%nat).
  { rewrite Nat.add_comm, Nat.Div0.mod_add. now apply Nat.mod_small. }
  assert (Hin : (y * w + x < h * w)%nat) by nia.
  rewrite Hmod. apply Nat.ltb_lt in Hin. rewrite Hin.
  unfold Edges.dash_on, Edges.stitchLen.
  destruct (edgeMap !! (y * w + x)%nat) as [v|] eqn:Hv.
  - assert (Hlt : (y * w + x < length edgeMap)%nat)
      by (apply lookup_lt_is_Some; eauto).
    apply Nat.ltb_lt in Hlt. rewrite Hlt, truthy_flag.
    rewrite andb_true_l, andb_true_iff, Nat.eqb_eq. reflexivity.
  - apply lookup_ge_None in Hv. apply Nat.ltb_ge in Hv. rewrite Hv.
    cbn [truthy]. split; [discriminate|]. intros [E' _]. discriminate E'.
Qed.

Lemma dashEdges_keeps_iff_witness :
  Edges.kept (Edges.dashEdges [255; 255; 0; 255] 4 1 2) 4 1 0 = true <->
  Edges.kept [255; 255; 0; 255] 4 1 0 = true /\ ((1 / Nat.max 2 2) mod 2 = 0)%nat.
Proof. apply (dashEdges_keeps_iff [255; 255; 0; 255] 4 1 2 1 0); lia. Defined.

(** C4 (as stated) fails at thread thickness 1: the edge pixel in column 1
    is kept although [floor (1 / 1) mod 2 = 1]. *)
Lemma dashEdges_thickness_one :
  ~ (Edges.kept (Edges.dashEdges [255; 255] 2 1 1) 2 1 0 = true <->
     Edges.kept [255; 255] 2 1 0 = true /\ ((1 / 1) mod 2 = 0)%nat).
Proof.
  intros [H _]. assert (E : Edges.kept (Edges.dashEdges [255; 255] 2 1 1) 2 1 0 = true)
    by reflexivity.
  destruct (H E) as [_ E']. vm_compute in E'. discriminate E'.
Qed.

(** ** Rounding to nearest, ties to even *)

Lemma round_spec (p x : Z) : 0 < p -> 0 <= x -> rounds_to p x (Float.round p x).
Proof.
  intros Hp Hx. unfold Float.round, rounds_to. cbv zeta.
  destruct (Z.eq_dec x 0) as [->|Hx0].
  - change (Z.log2 0) with 0.
    destruct (Z.leb_spec (0 + 1 - p) 0); [|lia]. left. split; [|reflexivity].
    apply Z.pow_pos_nonneg; lia.
  - assert (Hpos : 0 < x) by lia.
    destruct (Z.log2_spec x Hpos) as [Hlo Hhi].
    assert (Hn : 0 <= Z.log2 x) by apply Z.log2_nonneg.
    set (n := Z.log2 x) in *.
    destruct (Z.leb_spec (n + 1 - p) 0) as [Hs|Hs].
    + left. split; [|reflexivity].
      apply Z.lt_le_trans with (2 ^ Z.succ n); [exact Hhi|].
      apply Z.pow_le_mono_r; lia.
    + right. set (s := n + 1 - p) in *.
      assert (H2s : 0 < 2 ^ s) by (apply Z.pow_pos_nonneg; lia).
      exists s, (x / 2 ^ s), (x mod 2 ^ s).
      split; [exact Hs|]. split; [rewrite Z.mul_comm; apply Z.div_mod; lia|].
      split; [apply Z.mod_pos_bound; exact H2s|]. split.
      * split.
        -- apply Z.div_le_lower_bound; [exact H2s|].
           rewrite <- Z.pow_add_r by lia. replace (s + (p - 1)) with n by (unfold s; lia).
           exact Hlo.
        -- apply Z.div_lt_upper_bound; [exact H2s|].
           rewrite <- Z.pow_add_r by lia. replace (s + p) with (Z.succ n) by (unfold s; lia).
           exact Hhi.
      * destruct (_ || _); reflexivity.
Qed.

Lemma pow2_half (s : Z) : 0 < s -> 2 ^ s = 2 * 2 ^ (s - 1).
Proof. intros Hs. rewrite <- Z.pow_succ_r by lia. f_equal. lia. Qed.

Lemma rounds_to_nonneg (p x v : Z) : 0 < p -> 0 <= x -> rounds_to p x v -> 0 <= v.
Proof.
  intros Hp Hx [[_ ->]|(s & q & r & Hs & -> & Hr & Hq & ->)]; [exact Hx|].
  assert (0 < 2 ^ s) by (apply Z.pow_pos_nonneg; lia).
  assert (0 < 2 ^ (p - 1)) by (apply Z.pow_pos_nonneg; lia).
  destruct (_ || _); nia.
Qed.

Lemma rounds_to_err (p x v : Z) :
  0 < p -> 0 <= x -> rounds_to p x v -> Z.abs (v - x) * 2 ^ p <= x.
Proof.
  intros Hp Hx [[_ ->]|(s & q & r & Hs & -> & Hr & Hq & ->)].
  - replace (x - x) with 0 by lia. cbn. exact Hx.
  - assert (H2s := pow2_half s Hs). assert (H2p := pow2_half p Hp).
    set (half := 2 ^ (s - 1)) in *. set (hp := 2 ^ (p - 1)) in *.
    assert (Hh : 0 < half) by (apply Z.pow_pos_nonneg; lia).
    assert (Hhp : 0 < hp) by (apply Z.pow_pos_nonneg; lia).
    assert (Habs : Z.abs ((if (r <? half) || ((r =? half) && Z.even q) then q else q + 1)
                          * 2 ^ s - (q * 2 ^ s + r)) <= half).
    { destruct (Z.ltb_spec r half) as [Hlt|Hge]; cbn [orb].
      - replace (q * 2 ^ s - (q * 2 ^ s + r)) with (- r) by lia. lia.
      - destruct (Z.eqb_spec r half) as [He|Hne]; cbn [andb].
        + destruct (Z.even q).
          * replace (q * 2 ^ s - (q * 2 ^ s + r)) with (- r) by lia. lia.
          * replace ((q + 1) * 2 ^ s - (q * 2 ^ s + r)) with (2 ^ s - r) by lia. lia.
        + replace ((q + 1) * 2 ^ s - (q * 2 ^ s + r)) with (2 ^ s - r) by lia. lia. }
    apply Z.le_trans with (half * 2 ^ p).
    + apply Z.mul_le_mono_nonneg_r; [lia|exact Habs].
    + rewrite H2p, H2s. nia.
Qed.

Lemma rounds_to_mono (p x y vx vy : Z) :
  0 < p -> 0 <= x -> x <= y -> rounds_to p x vx -> rounds_to p y vy -> vx <= vy.
Proof.
  intros Hp Hx Hxy Rx Ry.
  assert (Hpow : forall a b, 0 <= a -> a <= b -> 2 ^ a <= 2 ^ b)
    by (intros; apply Z.pow_le_mono_r; lia).
  assert (Hpp : 2 ^ p = 2 * 2 ^ (p - 1)) by now apply pow2_half.
  assert (Hhp : 0 < 2 ^ (p - 1)) by (apply Z.pow_pos_nonneg; lia).
  destruct Rx as [[Hxs ->]|(s & q & r & Hs & -> & Hr & Hq & ->)];
  destruct Ry as [[Hys ->]|(s' & q' & r' & Hs' & -> & Hr' & Hq' & ->)].
  - exact Hxy.
  - (* x exact, y rounded *)
    assert (H2s' : 2 <= 2 ^ s').
    { change 2 with (2 ^ 1) at 1. apply Hpow; lia. }
    apply Z.le_trans with (q' * 2 ^ s'); [nia|].
    destruct (_ || _); nia.
  - (* x rounded, y exact: impossible *)
    exfalso. assert (H2s : 2 <= 2 ^ s).
    { change 2 with (2 ^ 1) at 1. apply Hpow; lia. }
    nia.
  - assert (H2s := pow2_half s Hs). assert (H2s' := pow2_half s' Hs').
    assert (Hh : 0 < 2 ^ (s - 1)) by (apply Z.pow_pos_nonneg; lia).
    assert (Hh' : 0 < 2 ^ (s' - 1)) by (apply Z.pow_pos_nonneg; lia).
    destruct (Z.lt_trichotomy s s') as [Hlt|[<-|Hgt]].
    + (* smaller exponent *)
      assert (Hss : 2 * 2 ^ s <= 2 ^ s').
      { rewrite <- Z.pow_succ_r by lia. apply Hpow; lia. }
      apply Z.le_trans with ((q + 1) * 2 ^ s); [destruct (_ || _); nia|].
      apply Z.le_trans with (q' * 2 ^ s'); [nia|destruct (_ || _); nia].
    + (* same exponent *)
      destruct (Z.lt_trichotomy q q') as [Hq1|[<-|Hq1]].
      * apply Z.le_trans with ((q + 1) * 2 ^ s); [destruct (_ || _); nia|].
        apply Z.le_trans with (q' * 2 ^ s); [nia|destruct (_ || _); nia].
      * assert (Hrr : r <= r') by lia.
        apply Z.mul_le_mono_nonneg_r; [lia|].
        destruct (Z.ltb_spec r (2 ^ (s - 1))), (Z.ltb_spec r' (2 ^ (s - 1)));
          cbn [orb]; try lia.
        -- destruct ((r' =? _) && _); lia.
        -- destruct (Z.eqb_spec r (2 ^ (s - 1))), (Z.eqb_spec r' (2 ^ (s - 1)));
             cbn [andb]; try lia; destruct (Z.even q); lia.
      * exfalso. nia.
    + exfalso.
      assert (Hss : 2 * 2 ^ s' <= 2 ^ s).
      { rewrite <- Z.pow_succ_r by lia. apply Hpow; lia. }
      nia.
Qed.

Lemma rounds_to_fixed (p v x : Z) :
  0 < p -> 0 <= x -> rounds_to p x v -> rounds_to p v v.
Proof.
  intros Hp Hx R.
  destruct R as [[Hxs ->]|(s & q & r & Hs & -> & Hr & Hq & ->)].
  - left. now split.
  - assert (Hpp : 2 ^ p = 2 * 2 ^ (p - 1)) by now apply pow2_half.
    assert (Hhp : 0 < 2 ^ (p - 1)) by (apply Z.pow_pos_nonneg; lia).
    assert (H2s := pow2_half s Hs).
    assert (Hh : 0 < 2 ^ (s - 1)) by (apply Z.pow_pos_nonneg; lia).
    set (up := (r <? 2 ^ (s - 1)) || ((r =? 2 ^ (s - 1)) && Z.even q)).
    destruct (Z.eq_dec (if up then q else q + 1) (2 ^ p)) as [E|NE].
    + (* carried into the next binade *)
      right. exists (s + 1), (2 ^ (p - 1)), 0.
      replace (s + 1 - 1) with s by lia.
      split; [lia|]. rewrite E, Z.pow_add_r by lia. split; [lia|].
      split; [lia|]. split; [lia|].
      destruct (Z.ltb_spec 0 (2 ^ s)) as [_|H0]; [|lia]. cbn [orb]. lia.
    + right. exists s, (if up then q else q + 1), 0.
      split; [exact Hs|]. split; [lia|]. split; [lia|].
      split; [destruct up; lia|].
      destruct (Z.ltb_spec 0 (2 ^ (s - 1))) as [_|H0]; [|lia]. reflexivity.
Qed.

Lemma rounds_to_unique (p x v v' : Z) :
  0 < p -> 0 <= x -> rounds_to p x v -> rounds_to p x v' -> v = v'.
Proof.
  intros Hp Hx R R'.
  assert (H1 := rounds_to_mono p x x v v' Hp Hx ltac:(lia) R R').
  assert (H2 := rounds_to_mono p x x v' v Hp Hx ltac:(lia) R' R). lia.
Qed.

Lemma round_nonneg (p x : Z) : 0 < p -> 0 <= x -> 0 <= Float.round p x.
Proof. intros Hp Hx. eapply rounds_to_nonneg; eauto using round_spec. Qed.

Lemma round_mono (p x y : Z) :
  0 < p -> 0 <= x -> x <= y -> Float.round p x <= Float.round p y.
Proof.
  intros Hp Hx Hxy.
  apply (rounds_to_mono p x y); auto; apply round_spec; lia.
Qed.

Lemma round_err (p x : Z) :
  0 < p -> 0 <= x -> Z.abs (Float.round p x - x) * 2 ^ p <= x.
Proof. intros Hp Hx. apply rounds_to_err; auto using round_spec. Qed.

Lemma round_idem (p x : Z) :
  0 < p -> 0 <= x -> Float.round p (Float.round p x) = Float.round p x.
Proof.
  intros Hp Hx.
  assert (R := round_spec p x Hp Hx).
  assert (Hv := rounds_to_nonneg p x _ Hp Hx R).
  apply (rounds_to_unique p (Float.round p x) _ _ Hp Hv).
  - now apply round_spec.
  - exact (rounds_to_fixed p _ x Hp Hx R).
Qed.

(** ** One relaxation: a binary64 sum stored as a binary32 *)

Lemma step_nonneg (k v : Z) : 0 <= v -> 0 <= k -> 0 <= step k v.
Proof.
  intros Hv Hk. unfold step, Float.fround, Float.add.
  apply round_nonneg; [lia|]. apply round_nonneg; lia.
Qed.

Lemma step_mono (k v v' : Z) : 0 <= v -> 0 <= k -> v <= v' -> step k v <= step k v'.
Proof.
  intros Hv Hk Hvv. unfold step, Float.fround, Float.add.
  apply round_mono; [lia|apply round_nonneg; lia|]. apply round_mono; lia.
Qed.

Lemma step_stored (k v : Z) : 0 <= v -> 0 <= k -> Float.fround (step k v) = step k v.
Proof.
  intros Hv Hk. unfold step, Float.fround, Float.add.
  apply round_idem; [lia|]. apply round_nonneg; lia.
Qed.

Lemma step_err (k v : Z) :
  0 <= v -> 0 <= k ->
  Z.abs (step k v - (v + k)) * 2 ^ 53 <= (v + k) * (2 ^ 29 + 2).
Proof.
  intros Hv Hk. unfold step, Float.fround, Float.add.
  set (y := v + k). assert (Hy : 0 <= y) by (unfold y; lia).
  assert (H1 := round_err 53 y ltac:(lia) Hy).
  set (z := Float.round 53 y) in *.
  assert (Hz : 0 <= z) by (apply round_nonneg; lia).
  assert (H2 := round_err 24 z ltac:(lia) Hz).
  set (t := Float.round 24 z) in *.
  lia.
Qed.

Lemma near_above_step (C v k v' : Z) :
  0 <= v -> 0 <= C <= 2 ^ 75 -> Float.one <= k ->
  near_above C v -> v' <= step k v -> near_above (C + k) v'.
Proof.
  unfold near_above, Float.one. intros Hv HC Hk Hnear Hv'.
  assert (He := step_err k v Hv ltac:(lia)).
  set (e := step k v - (v + k)) in *.
  assert (Hve : v' - (C + k) <= (v - C) + e) by (unfold e; lia).
  set (K := 2 ^ 75) in *.
  assert (HK : K = 2 ^ 75) by reflexivity.
  assert (HvC : v <= 2 * C) by nia.
  assert (HeK : e * K <= (v + k) * (2 ^ 51 + 2 ^ 23)) by lia.
  assert (Hk2 : (v + k) * (2 ^ 51 + 2 ^ 23) <= (2 * C + k) * k).
  { apply Z.mul_le_mono_nonneg; lia. }
  replace ((C + k) * (C + k)) with (C * C + (2 * C + k) * k) by ring.
  lia.
Qed.

Lemma near_below_step (C C' v k : Z) :
  0 <= v -> 0 <= C -> 0 <= C' <= C + k -> C + k <= 2 ^ 73 -> Float.one <= k ->
  near_below C v -> near_below C' (step k v).
Proof.
  unfold near_below, Float.one. intros Hv HC HC' Hlim Hk Hnear.
  assert (Hk0 : 0 <= k) by lia.
  assert (He := step_err k v Hv Hk0).
  assert (Hs := step_nonneg k v Hv Hk0).
  set (v' := step k v) in *.
  destruct (Z.le_gt_cases C' v') as [Hge|Hlt].
  - apply Z.le_trans with 0; [|nia].
    apply Z.mul_nonpos_nonneg; lia.
  - set (e := (v + k) - v').
    assert (HeB : e * 2 ^ 53 <= (v + k) * (2 ^ 29 + 2)) by (unfold e; lia).
    set (K := 2 ^ 75) in *.
    assert (HK : K = 2 ^ 75) by reflexivity.
    (* the bound is monotone in the length below K / 2 *)
    assert (Hmono : (C' - v') * K - C' * C'
                    <= (C + k - v') * K - (C + k) * (C + k)).
    { assert (H0 : (C + k - C') * (C + k + C') <= (C + k - C') * K).
      { apply Z.mul_le_mono_nonneg_l; lia. }
      nia. }
    assert (HeK : e * K <= (v + k) * (2 ^ 51 + 2 ^ 23)) by lia.
    assert (Hvk : (v + k) * (2 ^ 51 + 2 ^ 23) <= (C + k) * 2 ^ 52) by (unfold e in *; lia).
    assert (Hk2 : (C + k) * 2 ^ 52 <= (2 * C + k) * k) by nia.
    assert (H3 : (C + k - v') * K <= C * C + (2 * C + k) * k).
    { replace (C + k - v') with ((C - v) + e) by (unfold e; lia). lia. }
    replace ((C + k) * (C + k)) with (C * C + (2 * C + k) * k) in Hmono by ring.
    lia.
Qed.

Lemma near_above_le (C v v' : Z) : v' <= v -> near_above C v -> near_above C v'.
Proof. unfold near_above. intros. nia. Qed.

Lemma fround_zero : Float.fround 0 = 0.
Proof. reflexivity. Qed.

Lemma fround_inf : Float.fround Utils.inf = Utils.inf.
Proof. vm_compute. reflexivity. Qed.

Lemma step_inf (c v : Z) :
  c = Utils.cost_orth \/ c = Utils.cost_diag -> Utils.inf <= v -> Utils.inf <= step c v.
Proof.
  intros Hc Hv.
  assert (H0 : Utils.inf <= step c Utils.inf)
    by (destruct Hc as [->| ->]; vm_compute; discriminate).
  assert (Hc0 : 0 <= c) by (destruct Hc as [->| ->]; vm_compute; discriminate).
  assert (Hi : 0 <= Utils.inf) by (vm_compute; discriminate).
  assert (H1 := step_mono c Utils.inf v Hi Hc0 Hv). lia.
Qed.

Lemma step_one (c v : Z) :
  c = Utils.cost_orth \/ c = Utils.cost_diag -> 0 <= v -> Float.one <= step c v.
Proof.
  intros Hc Hv.
  assert (H0 : Float.one <= step c 0)
    by (destruct Hc as [->| ->]; vm_compute; discriminate).
  assert (Hc0 : 0 <= c) by (destruct Hc as [->| ->]; vm_compute; discriminate).
  assert (H1 := step_mono c 0 v ltac:(lia) Hc0 Hv). lia.
Qed.

(** A walk of [m] relaxations of cost [c] stays near the exact length. *)
Lemma chain_near (g : nat -> Z) (c C0 : Z) (m : nat) :
  Float.one <= c -> 0 <= C0 -> C0 + c * Z.of_nat m <= 2 ^ 75 ->
  (forall k, (k <= m)%nat -> 0 <= g k) ->
  (forall k, (k < m)%nat -> g (S k) <= step c (g k)) ->
  near_above C0 (g 0%nat) -> near_above (C0 + c * Z.of_nat m) (g m).
Proof.
  intros Hc HC0. induction m as [|m IH]; intros Hlim Hpos Hstep H0.
  - replace (C0 + c * Z.of_nat 0) with C0 by lia. exact H0.
  - assert (Hc0 : 0 < c) by (unfold Float.one in Hc; lia).
    replace (C0 + c * Z.of_nat (S m)) with (C0 + c * Z.of_nat m + c) by lia.
    apply (near_above_step _ (g m)).
    + apply Hpos. lia.
    + nia.
    + exact Hc.
    + apply IH; [nia|intros; apply Hpos; lia|intros; apply Hstep; lia|exact H0].
    + apply Hstep. lia.
Qed.


(** ** distanceTransform: the two-pass Chamfer transform *)

Lemma get_lookup (l : list Z) (i : nat) (d v : Z) : l !! i = Some v -> get l i d = v.
Proof. unfold get. now intros ->. Qed.

Lemma get_default_irrelevant (l : list Z) (i : nat) (a b : Z) :
  (i < length l)%nat -> get l i a = get l i b.
Proof.
  intros H. apply lookup_lt_is_Some in H. destruct H as [v Hv].
  now rewrite (get_lookup _ _ a v Hv), (get_lookup _ _ b v Hv).
Qed.

Lemma get_insert_eq (l : list Z) (i : nat) (v d : Z) :
  (i < length l)%nat -> get (<[i := v]> l) i d = v.
Proof. intros H. apply get_lookup. now apply list_lookup_insert_eq. Qed.

Lemma get_insert_ne (l : list Z) (i j : nat) (v d : Z) :
  i <> j -> get (<[i := v]> l) j d = get l j d.
Proof. intros H. unfold get. now rewrite list_lookup_insert_ne. Qed.

Lemma idx_inj (w x y x' y' : nat) :
  (x < w)%nat -> (x' < w)%nat -> (y * w + x = y' * w + x')%nat -> x = x' /\ y = y'.
Proof.
  intros Hx Hx' E.
  destruct (lt_eq_lt_dec y y') as [[Hlt|Heq]|Hgt].
  - exfalso. nia.
  - subst y'. split; lia.
  - exfalso. nia.
Qed.

Lemma neighbour_cost (x y x' y' : nat) (c : Z) :
  neighbour x y x' y' c -> c = Utils.cost_orth \/ c = Utils.cost_diag.
Proof. intros [[_ ->]|[_ ->]]; auto. Qed.

Lemma cost_ge_one (c : Z) :
  c = Utils.cost_orth \/ c = Utils.cost_diag -> Float.one <= c.
Proof. intros [->| ->]; vm_compute; discriminate. Qed.

Section Chamfer.
Variables (src : list Z) (w h : nat).
Local Abbreviation px := (px w).
Local Abbreviation is_set := (is_set src w).
Local Abbreviation good_at := (good_at src w).
Local Abbreviation good := (good src w h).
Local Abbreviation sound_at := (sound_at src w h).
Local Abbreviation sound := (sound src w h).
Local Abbreviation fwd_closed := (fwd_closed w h).
Local Abbreviation bwd_closed := (bwd_closed w h).
Local Abbreviation below := (below w h).
Local Abbreviation fwd_best := (fwd_best w).
Local Abbreviation bwd_best := (bwd_best w h).
Local Abbreviation picked := (picked w h).
Local Abbreviation fwd_inv := (fwd_inv src w h).
Local Abbreviation bwd_inv := (bwd_inv src w h).

Lemma px_insert_eq (d : list Z) (x y : nat) (v : Z) :
  (y * w + x < length d)%nat -> px (<[(y * w + x)%nat := v]> d) x y = v.
Proof. intros H. unfold px. now apply get_insert_eq. Qed.

Lemma px_insert_ne (d : list Z) (x y x' y' : nat) (v : Z) :
  (y * w + x <> y' * w + x')%nat ->
  px (<[(y * w + x)%nat := v]> d) x' y' = px d x' y'.
Proof. intros H. unfold px. now apply get_insert_ne. Qed.

Lemma idx_lt (x y : nat) : (x < w)%nat -> (y < h)%nat -> (y * w + x < h * w)%nat.
Proof. intros. nia. Qed.

(** *** Exact Chamfer lengths *)

Lemma cham_nonneg (x y sx sy : nat) : 0 <= cham x y sx sy.
Proof. unfold cham, Utils.cost_orth, Utils.cost_diag, Float.one. lia. Qed.

Lemma cham_self (x y : nat) : cham x y x y = 0.
Proof. unfold cham, Utils.cost_orth, Utils.cost_diag, Float.one. lia. Qed.

Lemma cham_neighbour (x y x' y' sx sy : nat) (c : Z) :
  neighbour x y x' y' c -> cham x y sx sy <= cham x' y' sx sy + c.
Proof.
  unfold neighbour, adjacent4, adjacent_diag, cham, Utils.cost_orth, Utils.cost_diag,
    Float.one.
  intros [[H ->]|[H ->]]; lia.
Qed.

Lemma cham_bound (x y sx sy : nat) (c : Z) :
  Z.of_nat w <= max_side -> Z.of_nat h <= max_side ->
  (x < w)%nat -> (y < h)%nat -> (sx < w)%nat -> (sy < h)%nat ->
  c = Utils.cost_orth \/ c = Utils.cost_diag ->
  cham x y sx sy + c <= 2 ^ 73.
Proof.
  unfold cham, Utils.cost_orth, Utils.cost_diag, Float.one, max_side.
  intros Hw Hh Hx Hy Hsx Hsy [->| ->]; lia.
Qed.

(** *** The value picked at a pixel *)

Lemma relax_cond_index (c : bool) (d : list Z) (i j : nat) (cost best : Z) :
  (c = true -> i = j) -> Utils.relax c d i cost best = Utils.relax c d j cost best.
Proof. intros H. destruct c; [now rewrite H|reflexivity]. Qed.

Lemma relax_picked (cond : bool) (d : list Z) (x y x' y' : nat) (c best : Z) :
  picked d x y best ->
  (cond = true -> (x' < w)%nat /\ (y' < h)%nat /\ neighbour x y x' y' c) ->
  picked d x y (Utils.relax cond d (y' * w + x') c best).
Proof.
  intros Hb Hn. unfold Utils.relax. destruct cond; [|exact Hb].
  destruct (Hn eq_refl) as (Hx' & Hy' & Hnb).
  destruct (Z.min_spec best (Float.add (get d (y' * w + x') Utils.inf) c)) as [[_ ->]|[_ ->]].
  - exact Hb.
  - right. exists x', y', c. repeat split; assumption.
Qed.

Lemma fwd_best_picked (d : list Z) (x y : nat) :
  (x < w)%nat -> (y < h)%nat -> picked d x y (fwd_best d x y).
Proof.
  intros Hx Hy. unfold fwd_best.
  repeat apply relax_picked; [now left|..];
    intros E; repeat (apply andb_true_iff in E; destruct E as [? E]);
    repeat match goal with H : (_ <? _)%nat = true |- _ => apply Nat.ltb_lt in H end;
    unfold neighbour, adjacent4, adjacent_diag; (split; [lia|split; [lia|]]).
  - left. split; [lia|reflexivity].
  - left. split; [lia|reflexivity].
  - right. split; [lia|reflexivity].
  - right. split; [lia|reflexivity].
Qed.

Lemma bwd_best_picked (d : list Z) (x y : nat) :
  (x < w)%nat -> (y < h)%nat -> picked d x y (bwd_best d x y).
Proof.
  intros Hx Hy. unfold bwd_best.
  repeat apply relax_picked; [now left|..];
    intros E; repeat (apply andb_true_iff in E; destruct E as [? E]);
    repeat match goal with H : (_ <? _)%nat = true |- _ => apply Nat.ltb_lt in H end;
    unfold neighbour, adjacent4, adjacent_diag; (split; [lia|split; [lia|]]).
  - left. split; [lia|reflexivity].
  - left. split; [lia|reflexivity].
  - right. split; [lia|reflexivity].
  - right. split; [lia|reflexivity].
Qed.

Lemma fwd_best_le (d : list Z) (x y : nat) :
  fwd_best d x y <= px d x y /\
  ((0 < x)%nat -> fwd_best d x y <= Float.add (px d (x - 1) y) Utils.cost_orth) /\
  ((0 < y)%nat -> fwd_best d x y <= Float.add (px d x (y - 1)) Utils.cost_orth) /\
  ((0 < x)%nat -> (0 < y)%nat ->
     fwd_best d x y <= Float.add (px d (x - 1) (y - 1)) Utils.cost_diag) /\
  ((x + 1 < w)%nat -> (0 < y)%nat ->
     fwd_best d x y <= Float.add (px d (x + 1) (y - 1)) Utils.cost_diag).
Proof.
  unfold fwd_best, Utils.relax, px.
  destruct (Nat.ltb_spec 0 x), (Nat.ltb_spec 0 y), (Nat.ltb_spec (x + 1) w);
    cbn [andb]; repeat split; intros; lia.
Qed.

Lemma bwd_best_le (d : list Z) (x y : nat) :
  bwd_best d x y <= px d x y /\
  ((x + 1 < w)%nat -> bwd_best d x y <= Float.add (px d (x + 1) y) Utils.cost_orth) /\
  ((y + 1 < h)%nat -> bwd_best d x y <= Float.add (px d x (y + 1)) Utils.cost_orth) /\
  ((x + 1 < w)%nat -> (y + 1 < h)%nat ->
     bwd_best d x y <= Float.add (px d (x + 1) (y + 1)) Utils.cost_diag) /\
  ((0 < x)%nat -> (y + 1 < h)%nat ->
     bwd_best d x y <= Float.add (px d (x - 1) (y + 1)) Utils.cost_diag).
Proof.
  unfold bwd_best, Utils.relax, px.
  destruct (Nat.ltb_spec 0 x), (Nat.ltb_spec (y + 1) h), (Nat.ltb_spec (x + 1) w);
    cbn [andb]; repeat split; intros; lia.
Qed.

(** *** One step of each pass *)

Lemma dt_forward_px_eq (d : list Z) (x y : nat) :
  Utils.dt_forward_px w h y x d = <[(y * w + x)%nat := Float.fround (fwd_best d x y)]> d.
Proof.
  unfold Utils.dt_forward_px, fwd_best, px. cbv zeta. do 2 f_equal.
  rewrite (relax_cond_index _ d (y * w + x - w + 1) ((y - 1) * w + (x + 1))).
  2:{ intros E. apply andb_true_iff in E. destruct E as [_ E].
      apply Nat.ltb_lt in E. nia. }
  f_equal.
  rewrite (relax_cond_index _ d (y * w + x - w - 1) ((y - 1) * w + (x - 1))).
  2:{ intros E. apply andb_true_iff in E. destruct E as [E1 E2].
      apply Nat.ltb_lt in E1, E2. nia. }
  f_equal.
  rewrite (relax_cond_index _ d (y * w + x - w) ((y - 1) * w + x)).
  2:{ intros E. apply Nat.ltb_lt in E. nia. }
  f_equal.
  apply relax_cond_index. intros E. apply Nat.ltb_lt in E. lia.
Qed.

Lemma dt_backward_px_eq (d : list Z) (x y : nat) :
  (y * w + x < length d)%nat ->
  Utils.dt_backward_px w h y x d = <[(y * w + x)%nat := Float.fround (bwd_best d x y)]> d.
Proof.
  intros Hlen. unfold Utils.dt_backward_px, bwd_best, px.
  cbv zeta. do 2 f_equal.
  rewrite (get_default_irrelevant d _ 0 Utils.inf Hlen).
  rewrite (relax_cond_index _ d (y * w + x + w - 1) ((y + 1) * w + (x - 1))).
  2:{ intros E. apply andb_true_iff in E. destruct E as [E _].
      apply Nat.ltb_lt in E. nia. }
  f_equal.
  rewrite (relax_cond_index _ d (y * w + x + w + 1) ((y + 1) * w + (x + 1))).
  2:{ intros _. nia. }
  f_equal.
  rewrite (relax_cond_index _ d (y * w + x + w) ((y + 1) * w + x)).
  2:{ intros _. nia. }
  f_equal.
  apply relax_cond_index. intros _. lia.
Qed.

(** *** The value stored at a pixel *)

Lemma picked_nonneg (d : list Z) (x y : nat) (best : Z) :
  (x < w)%nat -> (y < h)%nat -> good d -> picked d x y best -> 0 <= best.
Proof.
  intros Hx Hy Hg [->|(x' & y' & c & Hx' & Hy' & Hn & ->)].
  - now destruct (Hg x y Hx Hy).
  - destruct (Hg x' y' Hx' Hy') as (H0 & _).
    assert (Hc := cost_ge_one c (neighbour_cost _ _ _ _ _ Hn)). unfold Float.one in Hc.
    unfold Float.add. apply round_nonneg; lia.
Qed.

Lemma stored_le (v best : Z) :
  0 <= best -> best <= v -> Float.fround v = v -> Float.fround best <= v.
Proof.
  intros H0 Hle Hv. rewrite <- Hv. unfold Float.fround. apply round_mono; lia.
Qed.

Lemma stored_step (v c best : Z) :
  0 <= best -> best <= Float.add v c -> Float.fround best <= step c v.
Proof. intros H0 Hle. unfold step, Float.fround. apply round_mono; lia. Qed.

Lemma stored_good (d : list Z) (x y : nat) (best : Z) :
  (x < w)%nat -> (y < h)%nat -> good d -> picked d x y best -> best <= px d x y ->
  good_at x y (Float.fround best).
Proof.
  intros Hx Hy Hg Hp Hle.
  assert (H0 := picked_nonneg d x y best Hx Hy Hg Hp).
  destruct (Hg x y Hx Hy) as (Hc0 & Hcf & Hcs & Hcn).
  assert (Hle' := stored_le _ _ H0 Hle Hcf).
  destruct Hp as [->|(x' & y' & c & Hx' & Hy' & Hn & ->)].
  - rewrite Hcf. repeat split; assumption.
  - destruct (Hg x' y' Hx' Hy') as (Hn0 & _).
    assert (Hc := neighbour_cost _ _ _ _ _ Hn).
    assert (Hc1 := cost_ge_one c Hc). unfold Float.one in Hc1.
    fold (step c (px d x' y')) in *.
    split; [apply step_nonneg; lia|].
    split; [apply step_stored; lia|].
    split.
    + intros Hs. specialize (Hcs Hs).
      assert (0 <= step c (px d x' y')) by (apply step_nonneg; lia). lia.
    + intros _. now apply step_one.
Qed.

Section Sized.
Hypothesis Hw : Z.of_nat w <= max_side.
Hypothesis Hh : Z.of_nat h <= max_side.

Lemma stored_sound (d : list Z) (x y : nat) (best : Z) :
  (x < w)%nat -> (y < h)%nat -> good d -> sound d -> picked d x y best ->
  sound_at x y (Float.fround best).
Proof.
  intros Hx Hy Hg Hs [->|(x' & y' & c & Hx' & Hy' & Hn & ->)].
  - destruct (Hg x y Hx Hy) as (_ & -> & _). now apply Hs.
  - fold (step c (px d x' y')).
    assert (Hc := neighbour_cost _ _ _ _ _ Hn).
    destruct (Hg x' y' Hx' Hy') as (Hn0 & _).
    destruct (Hs x' y' Hx' Hy') as [Hinf|(sx & sy & Hsx & Hsy & Hset & Hnear)].
    + left. now apply step_inf.
    + right. exists sx, sy. repeat split; try assumption.
      apply (near_below_step (cham x' y' sx sy)); auto using cham_nonneg, cost_ge_one.
      * split; [apply cham_nonneg|now apply cham_neighbour].
      * now apply cham_bound.
Qed.

End Sized.

(** *** The passes keep their invariants *)

Lemma below_refl (d : list Z) : below d d.
Proof. intros x y _ _. lia. Qed.

Lemma below_trans (a b c : list Z) : below a b -> below b c -> below a c.
Proof. intros H1 H2 x y Hx Hy. specialize (H1 x y Hx Hy). specialize (H2 x y Hx Hy). lia. Qed.

Lemma insert_below (d d0 : list Z) (x y : nat) (v : Z) :
  (x < w)%nat -> below d d0 -> v <= px d x y ->
  (y * w + x < length d)%nat ->
  below (<[(y * w + x)%nat := v]> d) d0.
Proof.
  intros Hx Hb Hv Hlen x' y' Hx' Hy'.
  destruct (decide ((y * w + x)%nat = (y' * w + x')%nat)) as [E|NE].
  - destruct (idx_inj w x y x' y' Hx Hx' E) as [-> ->].
    rewrite px_insert_eq by exact Hlen. specialize (Hb x' y' Hx' Hy'). lia.
  - rewrite px_insert_ne by exact NE. now apply Hb.
Qed.

Lemma insert_pixels (P : nat -> nat -> Z -> Prop) (d : list Z) (x y : nat) (v : Z) :
  (x < w)%nat ->
  (forall x' y', (x' < w)%nat -> (y' < h)%nat -> P x' y' (px d x' y')) ->
  P x y v -> (y * w + x < length d)%nat ->
  forall x' y', (x' < w)%nat -> (y' < h)%nat ->
    P x' y' (px (<[(y * w + x)%nat := v]> d) x' y').
Proof.
  intros Hx Hs Hv Hlen x' y' Hx' Hy'.
  destruct (decide ((y * w + x)%nat = (y' * w + x')%nat)) as [E|NE].
  - destruct (idx_inj w x y x' y' Hx Hx' E) as [-> ->].
    now rewrite px_insert_eq by exact Hlen.
  - rewrite px_insert_ne by exact NE. now apply Hs.
Qed.

Lemma dt_forward_px_inv (d0 d : list Z) (x y : nat) :
  length d0 = (h * w)%nat -> (y < h)%nat -> (x < w)%nat ->
  fwd_inv d0 (y * w + x) d ->
  fwd_inv d0 (S (y * w + x)) (Utils.dt_forward_px w h y x d).
Proof.
  intros Hn Hy Hx (Hlen & Hbelow & Hgood & Hclosed).
  assert (Hi : (y * w + x < length d)%nat) by (rewrite Hlen, Hn; now apply idx_lt).
  rewrite dt_forward_px_eq.
  assert (Hp := fwd_best_picked d x y Hx Hy).
  assert (H0 := picked_nonneg d x y _ Hx Hy Hgood Hp).
  destruct (fwd_best_le d x y) as (Hle & Hl & Hu & Hul & Hur).
  destruct (Hgood x y Hx Hy) as (_ & Hcf & _).
  assert (Hle' := stored_le _ _ H0 Hle Hcf).
  split; [now rewrite length_insert|].
  split; [now apply insert_below|].
  split; [intros x0 y0; apply (insert_pixels good_at); auto; now apply (stored_good d)|].
  intros x' y' Hx' Hy' Hlt.
  destruct (decide ((y * w + x)%nat = (y' * w + x')%nat)) as [E|NE].
  - destruct (idx_inj w x y x' y' Hx Hx' E) as [<- <-].
    rewrite px_insert_eq by exact Hi.
    repeat split; intros; rewrite px_insert_ne by nia; apply stored_step; auto.
  - assert (Hlt' : (y' * w + x' < y * w + x)%nat) by lia.
    destruct (Hclosed x' y' Hx' Hy' Hlt') as (H1 & H2 & H3 & H4).
    rewrite px_insert_ne by exact NE.
    repeat split; intros; rewrite px_insert_ne by nia; auto.
Qed.

Lemma dt_backward_px_inv (d0 d : list Z) (x y : nat) :
  length d0 = (h * w)%nat -> (y < h)%nat -> (x < w)%nat ->
  bwd_inv d0 (S (y * w + x)) d ->
  bwd_inv d0 (y * w + x) (Utils.dt_backward_px w h y x d).
Proof.
  intros Hn Hy Hx (Hlen & Hbelow & Hgood & Hclosed).
  assert (Hi : (y * w + x < length d)%nat) by (rewrite Hlen, Hn; now apply idx_lt).
  rewrite dt_backward_px_eq by exact Hi.
  assert (Hp := bwd_best_picked d x y Hx Hy).
  assert (H0 := picked_nonneg d x y _ Hx Hy Hgood Hp).
  destruct (bwd_best_le d x y) as (Hle & Hr & Hd & Hdr & Hdl).
  destruct (Hgood x y Hx Hy) as (_ & Hcf & _).
  assert (Hle' := stored_le _ _ H0 Hle Hcf).
  split; [now rewrite length_insert|].
  split; [now apply insert_below|].
  split; [intros x0 y0; apply (insert_pixels good_at); auto; now apply (stored_good d)|].
  intros x' y' Hx' Hy' Hge.
  destruct (decide ((y * w + x)%nat = (y' * w + x')%nat)) as [E|NE].
  - destruct (idx_inj w x y x' y' Hx Hx' E) as [<- <-].
    rewrite px_insert_eq by exact Hi.
    repeat split; intros; rewrite px_insert_ne by nia; apply stored_step; auto.
  - assert (Hge' : (S (y * w + x) <= y' * w + x')%nat) by lia.
    destruct (Hclosed x' y' Hx' Hy' Hge') as (H1 & H2 & H3 & H4).
    rewrite px_insert_ne by exact NE.
    repeat split; intros; rewrite px_insert_ne by nia; auto.
Qed.

Lemma dt_forward_inv (d0 : list Z) :
  length d0 = (h * w)%nat -> good d0 ->
  fwd_inv d0 (h * w) (Utils.dt_forward w h d0).
Proof.
  intros Hn Hg. unfold Utils.dt_forward. apply (raster_inv (fwd_inv d0)).
  - split; [reflexivity|]. split; [apply below_refl|]. split; [exact Hg|].
    intros x y _ _ Hlt. lia.
  - intros y x d Hy Hx. now apply dt_forward_px_inv.
Qed.

Lemma dt_backward_inv (d0 : list Z) :
  length d0 = (h * w)%nat -> good d0 ->
  bwd_inv d0 0 (Utils.dt_backward w h d0).
Proof.
  intros Hn Hg. unfold Utils.dt_backward. apply (raster_down_inv (bwd_inv d0)).
  - split; [reflexivity|]. split; [apply below_refl|]. split; [exact Hg|].
    intros x y Hx Hy Hge. assert (y * w + x < h * w)%nat by now apply idx_lt. lia.
  - intros y x d Hy Hx. now apply dt_backward_px_inv.
Qed.

Lemma dt_forward_sound (d0 : list Z) :
  Z.of_nat w <= max_side -> Z.of_nat h <= max_side ->
  length d0 = (h * w)%nat -> good d0 -> sound d0 ->
  sound (Utils.dt_forward w h d0).
Proof.
  intros Hw Hh Hn Hg Hs. unfold Utils.dt_forward.
  apply (raster_inv (fun k d => fwd_inv d0 k d /\ sound d)).
  - split; [|exact Hs].
    split; [reflexivity|]. split; [apply below_refl|]. split; [exact Hg|].
    intros x y _ _ Hlt. lia.
  - intros y x d Hy Hx [Hinv Hsd]. split; [now apply dt_forward_px_inv|].
    destruct Hinv as (Hlen & _ & Hgd & _).
    rewrite dt_forward_px_eq. intros x0 y0. apply (insert_pixels sound_at); auto.
    + apply (stored_sound Hw Hh d); auto. now apply fwd_best_picked.
    + rewrite Hlen, Hn. now apply idx_lt.
Qed.

Lemma dt_backward_sound (d0 : list Z) :
  Z.of_nat w <= max_side -> Z.of_nat h <= max_side ->
  length d0 = (h * w)%nat -> good d0 -> sound d0 ->
  sound (Utils.dt_backward w h d0).
Proof.
  intros Hw Hh Hn Hg Hs. unfold Utils.dt_backward.
  apply (raster_down_inv (fun k d => bwd_inv d0 k d /\ sound d)).
  - split; [|exact Hs].
    split; [reflexivity|]. split; [apply below_refl|]. split; [exact Hg|].
    intros x y Hx Hy Hge. assert (y * w + x < h * w)%nat by now apply idx_lt. lia.
  - intros y x d Hy Hx [Hinv Hsd]. split; [now apply dt_backward_px_inv|].
    destruct Hinv as (Hlen & _ & Hgd & _).
    assert (Hi : (y * w + x < length d)%nat) by (rewrite Hlen, Hn; now apply idx_lt).
    rewrite dt_backward_px_eq by exact Hi. intros x0 y0. apply (insert_pixels sound_at); auto.
    apply (stored_sound Hw Hh d); auto. now apply bwd_best_picked.
Qed.

(** *** The initial map *)

Lemma dt_init_length (n : nat) : length (Utils.dt_init src n) = n.
Proof. unfold Utils.dt_init. now rewrite length_fmap, length_seq. Qed.

Lemma dt_init_px (x y : nat) :
  (x < w)%nat -> (y < h)%nat ->
  px (Utils.dt_init src (h * w)) x y =
  if 0 <? get src (y * w + x)%nat 0 then 0 else Utils.inf.
Proof.
  intros Hx Hy. unfold px.
  rewrite (get_lookup _ _ _ (Float.fround (if 0 <? get src (y * w + x)%nat 0
                                             then 0 else Utils.inf))).
  - destruct (0 <? _); [apply fround_zero|apply fround_inf].
  - unfold Utils.dt_init.
    rewrite list_lookup_fmap, lookup_seq_lt by now apply idx_lt. reflexivity.
Qed.

Lemma dt_init_good : good (Utils.dt_init src (h * w)).
Proof.
  intros x y Hx Hy. rewrite dt_init_px by assumption. unfold good_at, is_set.
  destruct (Z.ltb_spec 0 (get src (y * w + x)%nat 0)) as [Hs|Hs].
  - split; [lia|]. split; [apply fround_zero|]. split; [reflexivity|lia].
  - split; [vm_compute; discriminate|]. split; [apply fround_inf|].
    split; [lia|]. intros _. vm_compute. discriminate.
Qed.

Lemma dt_init_sound : sound (Utils.dt_init src (h * w)).
Proof.
  intros x y Hx Hy. rewrite dt_init_px by assumption.
  destruct (Z.ltb_spec 0 (get src (y * w + x)%nat 0)) as [Hs|Hs].
  - right. exists x, y. repeat split; try assumption.
    unfold near_below. rewrite cham_self. lia.
  - left. lia.
Qed.

(** *** Walks along one mask direction *)

Section Walks.
Variables (F B : list Z).
Hypothesis HF : fwd_closed (h * w) F.
Hypothesis HB : bwd_closed 0 B.
Hypothesis GF : good F.
Hypothesis GB : good B.

Lemma good_nonneg (d : list Z) (x y : nat) :
  good d -> (x < w)%nat -> (y < h)%nat -> 0 <= px d x y.
Proof. intros Hg Hx Hy. now destruct (Hg x y Hx Hy). Qed.

Lemma orth_ge_one : Float.one <= Utils.cost_orth.
Proof. vm_compute. discriminate. Qed.

Lemma diag_ge_one : Float.one <= Utils.cost_diag.
Proof. vm_compute. discriminate. Qed.

Lemma fwd_right (x x' y k : nat) (C : Z) :
  x' = (x + k)%nat -> (x' < w)%nat -> (y < h)%nat ->
  0 <= C -> C + Utils.cost_orth * Z.of_nat k <= 2 ^ 75 ->
  near_above C (px F x y) ->
  near_above (C + Utils.cost_orth * Z.of_nat k) (px F x' y).
Proof.
  intros -> Hx Hy HC Hlim H0.
  assert (H := chain_near (fun j => px F (x + j) y) Utils.cost_orth C k orth_ge_one HC Hlim).
  cbv beta in H. rewrite Nat.add_0_r in H. apply H; [| |exact H0].
  - intros j Hj. apply good_nonneg; [exact GF|lia|exact Hy].
  - intros j Hj.
    destruct (HF (x + S j)%nat y ltac:(lia) Hy ltac:(apply idx_lt; lia)) as (H1 & _).
    replace (x + S j - 1)%nat with (x + j)%nat in H1 by lia. apply H1. lia.
Qed.

Lemma fwd_down (x y y' k : nat) (C : Z) :
  y' = (y + k)%nat -> (x < w)%nat -> (y' < h)%nat ->
  0 <= C -> C + Utils.cost_orth * Z.of_nat k <= 2 ^ 75 ->
  near_above C (px F x y) ->
  near_above (C + Utils.cost_orth * Z.of_nat k) (px F x y').
Proof.
  intros -> Hx Hy HC Hlim H0.
  assert (H := chain_near (fun j => px F x (y + j)) Utils.cost_orth C k orth_ge_one HC Hlim).
  cbv beta in H. rewrite Nat.add_0_r in H. apply H; [| |exact H0].
  - intros j Hj. apply good_nonneg; [exact GF|exact Hx|lia].
  - intros j Hj.
    destruct (HF x (y + S j)%nat Hx ltac:(lia) ltac:(apply idx_lt; lia)) as (_ & H1 & _).
    replace (y + S j - 1)%nat with (y + j)%nat in H1 by lia. apply H1. lia.
Qed.

Lemma fwd_down_right (x y x' y' k : nat) (C : Z) :
  x' = (x + k)%nat -> y' = (y + k)%nat -> (x' < w)%nat -> (y' < h)%nat ->
  0 <= C -> C + Utils.cost_diag * Z.of_nat k <= 2 ^ 75 ->
  near_above C (px F x y) ->
  near_above (C + Utils.cost_diag * Z.of_nat k) (px F x' y').
Proof.
  intros -> -> Hx Hy HC Hlim H0.
  assert (H := chain_near (fun j => px F (x + j) (y + j)) Utils.cost_diag C k
                 diag_ge_one HC Hlim).
  cbv beta in H. rewrite !Nat.add_0_r in H. apply H; [| |exact H0].
  - intros j Hj. apply good_nonneg; [exact GF|lia|lia].
  - intros j Hj.
    destruct (HF (x + S j)%nat (y + S j)%nat ltac:(lia) ltac:(lia) ltac:(apply idx_lt; lia))
      as (_ & _ & H1 & _).
    replace (x + S j - 1)%nat with (x + j)%nat in H1 by lia.
    replace (y + S j - 1)%nat with (y + j)%nat in H1 by lia. apply H1; lia.
Qed.

Lemma fwd_down_left (x y x' y' k : nat) (C : Z) :
  x = (x' + k)%nat -> y' = (y + k)%nat -> (x < w)%nat -> (y' < h)%nat ->
  0 <= C -> C + Utils.cost_diag * Z.of_nat k <= 2 ^ 75 ->
  near_above C (px F x y) ->
  near_above (C + Utils.cost_diag * Z.of_nat k) (px F x' y').
Proof.
  intros -> -> Hx Hy HC Hlim H0.
  assert (H := chain_near (fun j => px F (x' + k - j) (y + j)) Utils.cost_diag C k
                 diag_ge_one HC Hlim).
  cbv beta in H. rewrite Nat.add_0_r, Nat.sub_0_r in H.
  replace (x' + k - k)%nat with x' in H by lia. apply H; [| |exact H0].
  - intros j Hj. apply good_nonneg; [exact GF|lia|lia].
  - intros j Hj.
    destruct (HF (x' + k - S j)%nat (y + S j)%nat ltac:(lia) ltac:(lia) ltac:(apply idx_lt; lia))
      as (_ & _ & _ & H1).
    replace (x' + k - S j + 1)%nat with (x' + k - j)%nat in H1 by lia.
    replace (y + S j - 1)%nat with (y + j)%nat in H1 by lia. apply H1; lia.
Qed.

Lemma bwd_left (x x' y k : nat) (C : Z) :
  x = (x' + k)%nat -> (x < w)%nat -> (y < h)%nat ->
  0 <= C -> C + Utils.cost_orth * Z.of_nat k <= 2 ^ 75 ->
  near_above C (px B x y) ->
  near_above (C + Utils.cost_orth * Z.of_nat k) (px B x' y).
Proof.
  intros -> Hx Hy HC Hlim H0.
  assert (H := chain_near (fun j => px B (x' + k - j) y) Utils.cost_orth C k
                 orth_ge_one HC Hlim).
  cbv beta in H. rewrite Nat.sub_0_r in H.
  replace (x' + k - k)%nat with x' in H by lia. apply H; [| |exact H0].
  - intros j Hj. apply good_nonneg; [exact GB|lia|exact Hy].
  - intros j Hj.
    destruct (HB (x' + k - S j)%nat y ltac:(lia) Hy (Nat.le_0_l _)) as (H1 & _).
    replace (x' + k - S j + 1)%nat with (x' + k - j)%nat in H1 by lia. apply H1. lia.
Qed.

Lemma bwd_up (x y y' k : nat) (C : Z) :
  y = (y' + k)%nat -> (x < w)%nat -> (y < h)%nat ->
  0 <= C -> C + Utils.cost_orth * Z.of_nat k <= 2 ^ 75 ->
  near_above C (px B x y) ->
  near_above (C + Utils.cost_orth * Z.of_nat k) (px B x y').
Proof.
  intros -> Hx Hy HC Hlim H0.
  assert (H := chain_near (fun j => px B x (y' + k - j)) Utils.cost_orth C k
                 orth_ge_one HC Hlim).
  cbv beta in H. rewrite Nat.sub_0_r in H.
  replace (y' + k - k)%nat with y' in H by lia. apply H; [| |exact H0].
  - intros j Hj. apply good_nonneg; [exact GB|exact Hx|lia].
  - intros j Hj.
    destruct (HB x (y' + k - S j)%nat Hx ltac:(lia) (Nat.le_0_l _)) as (_ & H1 & _).
    replace (y' + k - S j + 1)%nat with (y' + k - j)%nat in H1 by lia. apply H1. lia.
Qed.

Lemma bwd_up_left (x y x' y' k : nat) (C : Z) :
  x = (x' + k)%nat -> y = (y' + k)%nat -> (x < w)%nat -> (y < h)%nat ->
  0 <= C -> C + Utils.cost_diag * Z.of_nat k <= 2 ^ 75 ->
  near_above C (px B x y) ->
  near_above (C + Utils.cost_diag * Z.of_nat k) (px B x' y').
Proof.
  intros -> -> Hx Hy HC Hlim H0.
  assert (H := chain_near (fun j => px B (x' + k - j) (y' + k - j)) Utils.cost_diag C k
                 diag_ge_one HC Hlim).
  cbv beta in H. rewrite !Nat.sub_0_r in H.
  replace (x' + k - k)%nat with x' in H by lia.
  replace (y' + k - k)%nat with y' in H by lia. apply H; [| |exact H0].
  - intros j Hj. apply good_nonneg; [exact GB|lia|lia].
  - intros j Hj.
    destruct (HB (x' + k - S j)%nat (y' + k - S j)%nat ltac:(lia) ltac:(lia) (Nat.le_0_l _))
      as (_ & _ & H1 & _).
    replace (x' + k - S j + 1)%nat with (x' + k - j)%nat in H1 by lia.
    replace (y' + k - S j + 1)%nat with (y' + k - j)%nat in H1 by lia. apply H1; lia.
Qed.

Lemma bwd_up_right (x y x' y' k : nat) (C : Z) :
  x' = (x + k)%nat -> y = (y' + k)%nat -> (x' < w)%nat -> (y < h)%nat ->
  0 <= C -> C + Utils.cost_diag * Z.of_nat k <= 2 ^ 75 ->
  near_above C (px B x y) ->
  near_above (C + Utils.cost_diag * Z.of_nat k) (px B x' y').
Proof.
  intros -> -> Hx Hy HC Hlim H0.
  assert (H := chain_near (fun j => px B (x + j) (y' + k - j)) Utils.cost_diag C k
                 diag_ge_one HC Hlim).
  cbv beta in H. rewrite Nat.add_0_r, Nat.sub_0_r in H.
  replace (y' + k - k)%nat with y' in H by lia. apply H; [| |exact H0].
  - intros j Hj. apply good_nonneg; [exact GB|lia|lia].
  - intros j Hj.
    destruct (HB (x + S j)%nat (y' + k - S j)%nat ltac:(lia) ltac:(lia) (Nat.le_0_l _))
      as (_ & _ & _ & H1).
    replace (x + S j - 1)%nat with (x + j)%nat in H1 by lia.
    replace (y' + k - S j + 1)%nat with (y' + k - j)%nat in H1 by lia. apply H1; lia.
Qed.

Hypothesis HBF : below B F.
Hypothesis Hw : Z.of_nat w <= max_side.
Hypothesis Hh : Z.of_nat h <= max_side.

Local Ltac units :=
  unfold cham, Utils.cost_orth, Utils.cost_diag, Float.one, max_side in *; lia.

(** A forward walk followed by a backward walk reaches every pixel from a
    pixel that holds 0, near the Chamfer length of their displacement. *)
Lemma two_pass_reach (x y sx sy : nat) :
  (x < w)%nat -> (y < h)%nat -> (sx < w)%nat -> (sy < h)%nat ->
  px F sx sy = 0 ->
  near_above (cham x y sx sy) (px B x y).
Proof.
  intros Hx Hy Hsx Hsy Hz.
  assert (H0 : near_above 0 (px F sx sy)) by (rewrite Hz; unfold near_above; lia).
  destruct (le_lt_dec sx x) as [Hxx|Hxx]; destruct (le_lt_dec sy y) as [Hyy|Hyy].
  - (* right and down: forward walks only *)
    apply (near_above_le _ (px F x y)); [now apply HBF|].
    destruct (le_lt_dec (y - sy) (x - sx)) as [Hc|Hc].
    + replace (cham x y sx sy)
        with (0 + Utils.cost_diag * Z.of_nat (y - sy)
                + Utils.cost_orth * Z.of_nat (x - sx - (y - sy))) by units.
      apply (fwd_right (sx + (y - sy)) x y); [lia|lia|lia|units|units|].
      apply (fwd_down_right sx sy); [lia|lia|lia|lia|lia|units|exact H0].
    + replace (cham x y sx sy)
        with (0 + Utils.cost_diag * Z.of_nat (x - sx)
                + Utils.cost_orth * Z.of_nat (y - sy - (x - sx))) by units.
      apply (fwd_down x (sy + (x - sx)) y); [lia|lia|lia|units|units|].
      apply (fwd_down_right sx sy); [lia|lia|lia|lia|lia|units|exact H0].
  - (* right and up *)
    destruct (le_lt_dec (sy - y) (x - sx)) as [Hc|Hc].
    + replace (cham x y sx sy)
        with (0 + Utils.cost_orth * Z.of_nat (x - sx - (sy - y))
                + Utils.cost_diag * Z.of_nat (sy - y)) by units.
      apply (bwd_up_right (x - (sy - y)) sy x y); [lia|lia|lia|lia|units|units|].
      apply (near_above_le _ (px F (x - (sy - y)) sy)); [apply HBF; lia|].
      apply (fwd_right sx (x - (sy - y)) sy); [lia|lia|lia|lia|units|exact H0].
    + replace (cham x y sx sy)
        with (0 + Utils.cost_orth * Z.of_nat (sy - y - (x - sx))
                + Utils.cost_diag * Z.of_nat (x - sx)) by units.
      apply (bwd_up_right sx (y + (x - sx)) x y); [lia|lia|lia|lia|units|units|].
      apply (bwd_up sx sy (y + (x - sx))); [lia|lia|lia|lia|units|].
      apply (near_above_le _ (px F sx sy)); [now apply HBF|exact H0].
  - (* left and down *)
    destruct (le_lt_dec (y - sy) (sx - x)) as [Hc|Hc].
    + replace (cham x y sx sy)
        with (0 + Utils.cost_diag * Z.of_nat (y - sy)
                + Utils.cost_orth * Z.of_nat (sx - x - (y - sy))) by units.
      apply (bwd_left (sx - (y - sy)) x y); [lia|lia|lia|units|units|].
      apply (near_above_le _ (px F (sx - (y - sy)) y)); [apply HBF; lia|].
      apply (fwd_down_left sx sy); [lia|lia|lia|lia|lia|units|exact H0].
    + apply (near_above_le _ (px F x y)); [now apply HBF|].
      replace (cham x y sx sy)
        with (0 + Utils.cost_diag * Z.of_nat (sx - x)
                + Utils.cost_orth * Z.of_nat (y - sy - (sx - x))) by units.
      apply (fwd_down x (sy + (sx - x)) y); [lia|lia|lia|units|units|].
      apply (fwd_down_left sx sy); [lia|lia|lia|lia|lia|units|exact H0].
  - (* left and up: backward walks only *)
    assert (H0' : near_above 0 (px B sx sy))
      by (apply (near_above_le _ (px F sx sy)); [now apply HBF|exact H0]).
    destruct (le_lt_dec (sy - y) (sx - x)) as [Hc|Hc].
    + replace (cham x y sx sy)
        with (0 + Utils.cost_diag * Z.of_nat (sy - y)
                + Utils.cost_orth * Z.of_nat (sx - x - (sy - y))) by units.
      apply (bwd_left (sx - (sy - y)) x y); [lia|lia|lia|units|units|].
      apply (bwd_up_left sx sy); [lia|lia|lia|lia|lia|units|exact H0'].
    + replace (cham x y sx sy)
        with (0 + Utils.cost_diag * Z.of_nat (sx - x)
                + Utils.cost_orth * Z.of_nat (sy - y - (sx - x))) by units.
      apply (bwd_up x (sy - (sx - x)) y); [lia|lia|lia|units|units|].
      apply (bwd_up_left sx sy); [lia|lia|lia|lia|lia|units|exact H0'].
Qed.

End Walks.

(** *** The result of the two passes *)

Local Abbreviation out := (Utils.distanceTransform src w h).

Lemma distanceTransform_unfold :
  out = Utils.dt_backward w h (Utils.dt_forward w h (Utils.dt_init src (h * w))).
Proof. unfold Utils.distanceTransform. now rewrite (Nat.mul_comm w h). Qed.

Lemma dt_forward_facts :
  fwd_inv (Utils.dt_init src (h * w)) (h * w)
    (Utils.dt_forward w h (Utils.dt_init src (h * w))).
Proof. apply dt_forward_inv; [apply dt_init_length|apply dt_init_good]. Qed.

Lemma dt_backward_facts :
  bwd_inv (Utils.dt_forward w h (Utils.dt_init src (h * w))) 0 out.
Proof.
  rewrite distanceTransform_unfold.
  destruct dt_forward_facts as (Hlen & _ & Hg & _).
  apply dt_backward_inv; [now rewrite Hlen, dt_init_length|exact Hg].
Qed.

Lemma distanceTransform_length : length out = (w * h)%nat.
Proof.
  destruct dt_backward_facts as (Hlen & _). destruct dt_forward_facts as (Hlen' & _).
  rewrite Hlen, Hlen', dt_init_length. apply Nat.mul_comm.
Qed.

Lemma distanceTransform_good : good out.
Proof. now destruct dt_backward_facts as (_ & _ & Hg & _). Qed.

Lemma distanceTransform_le_inf (x y : nat) :
  (x < w)%nat -> (y < h)%nat -> px out x y <= Utils.inf.
Proof.
  intros Hx Hy.
  destruct dt_backward_facts as (_ & Hb & _). destruct dt_forward_facts as (_ & Hf & _).
  specialize (Hb x y Hx Hy). specialize (Hf x y Hx Hy).
  rewrite dt_init_px in Hf by assumption.
  assert (0 <= Utils.inf) by (vm_compute; discriminate).
  destruct (0 <? get src (y * w + x)%nat 0); lia.
Qed.


Lemma distanceTransform_zero_iff (x y : nat) :
  (x < w)%nat -> (y < h)%nat -> px out x y = 0 <-> is_set x y.
Proof.
  intros Hx Hy. destruct (distanceTransform_good x y Hx Hy) as (_ & _ & Hs & Hn).
  split; [|exact Hs].
  intros Hz. destruct (Z.lt_ge_cases 0 (get src (y * w + x)%nat 0)) as [H|H]; [exact H|].
  assert (Hone : Float.one <= px out x y) by (apply Hn; unfold is_set; lia).
  rewrite Hz in Hone. vm_compute in Hone. now exfalso.
Qed.

Section SizedResult.
Hypothesis Hw : Z.of_nat w <= max_side.
Hypothesis Hh : Z.of_nat h <= max_side.

Lemma distanceTransform_sound : sound out.
Proof.
  rewrite distanceTransform_unfold.
  destruct dt_forward_facts as (Hlen & _ & Hg & _).
  apply dt_backward_sound; auto.
  - now rewrite Hlen, dt_init_length.
  - apply dt_forward_sound; auto using dt_init_length, dt_init_good, dt_init_sound.
Qed.

Lemma distanceTransform_reach (x y sx sy : nat) :
  (x < w)%nat -> (y < h)%nat -> (sx < w)%nat -> (sy < h)%nat -> is_set sx sy ->
  near_above (cham x y sx sy) (px out x y).
Proof.
  intros Hx Hy Hsx Hsy Hset.
  destruct dt_backward_facts as (_ & Hb & Hgb & Hbc).
  destruct dt_forward_facts as (_ & Hf & Hgf & Hfc).
  apply (two_pass_reach _ _ Hfc Hbc Hgf Hgb Hb Hw Hh); auto.
  destruct (Hgf sx sy Hsx Hsy) as (_ & _ & Hs & _). now apply Hs.
Qed.


End SizedResult.

End Chamfer.






(** The six values of that image: 0, 1, 2 / 1, 1.4 as a binary32
    (1.39999997615814208984375) and the binary32 nearest to its successor
    (2.400000095367431640625). *)
Example distanceTransform_3x2 :
  Utils.distanceTransform [255; 0; 0; 0; 0; 0] 3 2 =
  [0; Float.one; 2 * Float.one; Float.one; 11744051 * 2 ^ 29; 10066330 * 2 ^ 30].
Proof. vm_compute. reflexivity. Qed.

(** ** computeWarnings: the thin-stroke test *)

Lemma truthy_lookup_pos (l : list Z) (i : nat) :
  Forall (fun v => 0 <= v) l -> truthy (l !! i) = true -> 0 < get l i 0.
Proof.
  intros Hl Ht. unfold get. destruct (l !! i) as [v|] eqn:Hv; [|discriminate Ht].
  cbn in *. rewrite Forall_forall in Hl.
  assert (0 <= v) by (apply Hl, list_elem_of_lookup; eauto).
  apply negb_true_iff, Z.eqb_neq in Ht. lia.
Qed.

(** The transform is zero at every set pixel, by flat index. *)
Lemma distanceTransform_zero_at (src : list Z) (w h i : nat) :
  (i < w * h)%nat -> 0 < get src i 0 ->
  get (Utils.distanceTransform src w h) i 0 = 0.
Proof.
  intros Hi Hs.
  assert (Hw : w <> 0%nat) by (intros ->; lia).
  assert (Hx : (i mod w < w)%nat) by now apply Nat.mod_upper_bound.
  assert (Hy : (i / w < h)%nat) by (apply Nat.Div0.div_lt_upper_bound; lia).
  assert (E : ((i / w) * w + i mod w)%nat = i)
    by (rewrite (Nat.div_mod_eq i w) at 3; lia).
  rewrite (get_default_irrelevant _ _ 0 Utils.inf)
    by now rewrite distanceTransform_length.
  assert (H := proj2 (distanceTransform_zero_iff src w h _ _ Hx Hy)).
  unfold px, is_set in H. rewrite E in H. now apply H.
Qed.

Section ThinStrokes.
Variables (alphaMask distIn : list Z).
Local Abbreviation stroke_inv := (stroke_inv alphaMask).
Hypothesis Hzero :
  forall i, (i < length distIn)%nat -> truthy (alphaMask !! i) = true -> get distIn i 0 = 0.

Lemma stroke_loop_inv :
  stroke_inv (length distIn)
    (for_range (length distIn) (Warnings.stroke_px alphaMask distIn) (None, 0%nat)).
Proof.
  apply (for_range_inv stroke_inv).
  - left. split; [reflexivity|]. intros i Hi. lia.
  - intros k st Hk Hst. unfold Warnings.stroke_px.
    destruct (truthy (alphaMask !! k)) eqn:Ht.
    + right. rewrite (Hzero k Hk Ht). cbn [fst snd].
      split.
      * destruct Hst as [[-> _]|(Hm & _)]; [reflexivity|].
        rewrite Hm. reflexivity.
      * split; [lia|]. exists k. split; [lia|exact Ht].
    + destruct Hst as [[-> Hno]|(Hm & Hs & i & Hi & Hti)].
      * left. split; [reflexivity|]. intros i Hi.
        destruct (decide (i = k)) as [->|Hne]; [exact Ht|apply Hno; lia].
      * right. split; [exact Hm|]. split; [exact Hs|]. exists i. split; [lia|exact Hti].
Qed.
End ThinStrokes.

Lemma thin_strokes_not_dense : Warnings.thin_strokes <> Warnings.dense_detail.
Proof. discriminate. Qed.

Lemma thin_strokes_not_reduced (m : nat) : Warnings.thin_strokes <> Warnings.reduced_colors m.
Proof. unfold Warnings.reduced_colors, Warnings.thin_strokes. cbn [String.append]. discriminate. Qed.

Lemma dense_not_reduced (m : nat) : Warnings.dense_detail <> Warnings.reduced_colors m.
Proof. unfold Warnings.reduced_colors, Warnings.dense_detail. cbn [String.append]. discriminate. Qed.

Lemma thin_strokes_emitted_iff (alphaMask : list Z) (w h T : nat)
    (em : option (list Z)) (mc ps : option nat) :
  Forall (fun v => 0 <= v) alphaMask ->
  In Warnings.thin_strokes (Warnings.computeWarnings alphaMask w h T em mc ps) <->
  (exists i, (i < w * h)%nat /\ truthy (alphaMask !! i) = true) /\ (0 < T)%nat.
Proof.
  intros Hbytes. unfold Warnings.computeWarnings. cbv zeta.
  set (distIn := Utils.distanceTransform alphaMask w h).
  assert (Hlen : length distIn = (w * h)%nat) by apply distanceTransform_length.
  assert (Hinv := stroke_loop_inv alphaMask distIn).
  set (st := for_range (length distIn) _ _) in *.
  assert (Hrest : forall l : list string,
    In Warnings.thin_strokes
      (l ++
       match em with
       | Some em0 =>
           if (3 * length em0 <? 25 * Warnings.count_on em0)%nat
           then [Warnings.dense_detail] else []
       | None => []
       end ++
       match mc, ps with
       | Some m, Some p => if (m <? p)%nat then [Warnings.reduced_colors m] else []
       | _, _ => []
       end) <-> In Warnings.thin_strokes l).
  { intros l. rewrite !in_app_iff. split; [|tauto].
    intros [H|[H|H]]; [exact H|exfalso..].
    - destruct em as [em0|]; [|exact H].
      destruct (_ <? _)%nat; [|exact H].
      destruct H as [H|[]]. now apply thin_strokes_not_dense.
    - destruct mc as [m|], ps as [p|]; try exact H.
      destruct (m <? p)%nat; [|exact H].
      destruct H as [H|[]]. symmetry in H. now apply thin_strokes_not_reduced in H. }
  rewrite Hrest. clear Hrest.
  destruct Hinv as [[Hst Hno]|(Hm & Hs & i & Hi & Hti)].
  - intros i Hi Ht. apply distanceTransform_zero_at; [lia|].
    now apply truthy_lookup_pos.
  - rewrite Hst. cbn. split; [intros []|].
    intros [(i & Hi & Ht) _]. rewrite Hno in Ht by lia. discriminate Ht.
  - rewrite Hm. apply Nat.ltb_lt in Hs. rewrite Hs. cbn [andb Warnings.stroke_below].
    destruct (Z.ltb_spec 0 (Float.one * Z.of_nat T)) as [HT|HT]; unfold Float.one in HT.
    + split; [|intros _; now left].
      intros _. split; [|lia]. exists i. split; [lia|exact Hti].
    + split; [intros []|]. intros [_ HT']. lia.
Qed.

(** C1: the thin-stroke warning is emitted iff some pixel is opaque and the
    thread thickness is positive: the transform is taken on the alpha mask
    itself, so it is 0 on every opaque pixel and [minStroke] is 0 as soon as
    one exists.  A 1-px diagonal line draws the warning, and so does a
    uniform opaque image, for which none is expected. *)
Theorem computeWarnings_thin_strokes (alphaMask : list Z) (w h T : nat)
    (em : option (list Z)) (mc ps : option nat) :
  Forall (fun v => 0 <= v) alphaMask ->
  In Warnings.thin_strokes (Warnings.computeWarnings alphaMask w h T em mc ps) <->
  (exists i, (i < w * h)%nat /\ truthy (alphaMask !! i) = true) /\ (0 < T)%nat.
Proof. apply thin_strokes_emitted_iff. Qed.

Lemma computeWarnings_thin_strokes_witness :
  In Warnings.thin_strokes
     (Warnings.computeWarnings [255; 255; 255; 255] 2 2 3 None None None) <->
  (exists i, (i < 2 * 2)%nat /\ truthy ([255; 255; 255; 255] !! i) = true) /\ (0 < 3)%nat.
Proof.
  apply (computeWarnings_thin_strokes [255; 255; 255; 255] 2 2 3 None None None).
  repeat constructor; lia.
Defined.

(** A uniform opaque image of any size draws the warning. *)
Lemma uniform_opaque_warns (w h T : nat) :
  (0 < w * h)%nat -> (0 < T)%nat ->
  In Warnings.thin_strokes
     (Warnings.computeWarnings (replicate (w * h) 255) w h T None None None).
Proof.
  intros Hn HT. apply thin_strokes_emitted_iff.
  - apply Forall_replicate. lia.
  - split; [|exact HT]. exists 0%nat. split; [exact Hn|].
    now rewrite lookup_replicate_2 by exact Hn.
Qed.

(** The uniform opaque 200 x 200 image with thread thickness 3. *)
Lemma uniform_opaque_200_warns :
  In Warnings.thin_strokes
     (Warnings.computeWarnings (replicate (200 * 200) 255) 200 200 3 None None None).
Proof. exact (uniform_opaque_warns 200 200 3 ltac:(lia) ltac:(lia)). Qed.

(** The 1-px-wide diagonal line draws it too. *)
Lemma diagonal_line_warns (n T : nat) :
  (0 < n)%nat -> (0 < T)%nat ->
  In Warnings.thin_strokes
     (Warnings.computeWarnings (diagonal_mask n) n n T None None None).
Proof.
  intros Hn HT. apply thin_strokes_emitted_iff.
  - unfold diagonal_mask. apply Forall_fmap, Forall_forall. intros i _. cbn.
    destruct (_ =? _)%nat; lia.
  - split; [|exact HT]. exists 0%nat. split; [nia|].
    unfold diagonal_mask. rewrite list_lookup_fmap, lookup_seq_lt by nia. cbn [fmap option_fmap option_map].
    rewrite Nat.Div0.mod_0_l, Nat.Div0.div_0_l. reflexivity.
Qed.

Lemma diagonal_line_200_warns :
  In Warnings.thin_strokes
     (Warnings.computeWarnings (diagonal_mask 200) 200 200 3 None None None).
Proof. exact (diagonal_line_warns 200 3 ltac:(lia) ltac:(lia)). Qed.

Example uniform_opaque_2x2_warnings :
  Warnings.computeWarnings [255; 255; 255; 255] 2 2 3 None None None
  = [Warnings.thin_strokes].
Proof. reflexivity. Qed.

(** ** computeOrientation: the range of the bins *)

Lemma bin_at_range (angle_bin : Z -> Z -> nat -> Z) (gx gy : list Z) (n i : nat) :
  (0 < n <= 256)%nat ->
  0 <= Utils.bin_at angle_bin gx gy n i <= Z.of_nat n - 1.
Proof.
  intros Hn. unfold Utils.bin_at, toUint8. cbv zeta.
  set (b := angle_bin _ _ _).
  destruct (Z.ltb_spec b 0); destruct (Z.leb_spec (Z.of_nat n) 0);
    try lia; try (rewrite Z.mod_small; lia);
    destruct (Z.leb_spec (Z.of_nat n) b); rewrite Z.mod_small; lia.
Qed.

Lemma binsFromGradients_range (angle_bin : Z -> Z -> nat -> Z)
    (gx gy : list Z) (w h n : nat) (v : Z) :
  (0 < n <= 256)%nat ->
  In v (Utils.binsFromGradients angle_bin gx gy w h n) -> 0 <= v <= Z.of_nat n - 1.
Proof.
  intros Hn Hv. unfold Utils.binsFromGradients in Hv.
  apply list_elem_of_In, list_elem_of_fmap in Hv. destruct Hv as (i & -> & _).
  now apply bin_at_range.
Qed.

Lemma numBins_table (orientationMethod mode : string) :
  In (Orientation.numBins orientationMethod mode) [4; 6; 8; 12]%nat.
Proof.
  unfold Orientation.numBins.
  destruct (String.eqb orientationMethod "binned-8"), (String.eqb mode "logo");
    simpl; auto.
Qed.

Lemma upscaleNearest_copies (src : list Z) (w h W H : nat) (u : Z) :
  In u (Utils.upscaleNearest src w h W H) -> In u src \/ u = 0.
Proof.
  unfold Utils.upscaleNearest. destruct ((W =? w)%nat && (H =? h)%nat); [now left|].
  intros Hu. apply list_elem_of_In, list_elem_of_fmap in Hu. destruct Hu as (p & -> & _).
  cbv zeta. destruct (_ <? 0); [now right|].
  unfold get. destruct (src !! _) as [v|] eqn:Hv; [left|now right].
  apply list_elem_of_In, list_elem_of_lookup. eauto.
Qed.

(** C5: every byte of the upscaled orientation bins lies in [0, N - 1],
    where [N] is the bin count of the method and mode (binned: logo 4,
    photo 6; lic: logo 8, photo 12).  The codec's nearest-neighbour resize
    copies bytes of its input (or writes 0). *)
Theorem computeOrientation_bins_in_range
    (angle_bin : Z -> Z -> nat -> Z)
    (gradients : list Z -> nat -> nat -> nat -> nat -> list Z * list Z)
    (nearest : list Z -> nat -> nat -> nat -> nat -> list Z)
    (data : list Z) (width height : nat) (orientationMethod mode : string) (v : Z) :
  (forall src w h W H u, In u (nearest src w h W H) -> In u src \/ u = 0) ->
  In v (Orientation.computeOrientation angle_bin gradients nearest
          data width height orientationMethod mode) ->
  0 <= v <= Z.of_nat (Orientation.numBins orientationMethod mode) - 1 /\
  Orientation.numBins "binned-8" "logo" = 4%nat /\
  Orientation.numBins "binned-8" "photo" = 6%nat /\
  Orientation.numBins "lic" "logo" = 8%nat /\
  Orientation.numBins "lic" "photo" = 12%nat.
Proof.
  intros Hnearest Hv. split; [|repeat split; reflexivity].
  unfold Orientation.computeOrientation in Hv. cbv zeta in Hv.
  destruct (gradients _ _ _ _ _) as [gx gy].
  assert (Hn : (0 < Orientation.numBins orientationMethod mode <= 256)%nat).
  { assert (H := numBins_table orientationMethod mode). simpl in H.
    destruct H as [H|[H|[H|[H|[]]]]]; rewrite <- H; lia. }
  apply Hnearest in Hv. destruct Hv as [Hv| ->]; [|lia].
  now apply binsFromGradients_range in Hv.
Qed.

Lemma computeOrientation_bins_in_range_witness :
  0 <= 5 <= Z.of_nat (Orientation.numBins "binned-8" "photo") - 1 /\
  Orientation.numBins "binned-8" "logo" = 4%nat /\
  Orientation.numBins "binned-8" "photo" = 6%nat /\
  Orientation.numBins "lic" "logo" = 8%nat /\
  Orientation.numBins "lic" "photo" = 12%nat.
Proof.
  apply (computeOrientation_bins_in_range
           (fun _ _ _ => 7) (fun _ _ _ _ _ => ([3; -1], [4; 2])) Utils.upscaleNearest
           [10; 20; 30; 255; 40; 50; 60; 255] 2 1 "binned-8" "photo" 5).
  - apply upscaleNearest_copies.
  - simpl. auto.
Defined.

(** ** generateTextures *)

Lemma key_eqb_eq (k k' : Textures.CacheKey) : Textures.key_eqb k k' = true -> k = k'.
Proof.
  destruct k as [[t s] d], k' as [[t' s'] d']. unfold Textures.key_eqb. cbn [fst snd].
  rewrite !andb_true_iff. intros [[Ht Hs] Hd].
  apply Nat.eqb_eq in Ht. apply String.eqb_eq in Hs. apply bool_decide_eq_true in Hd.
  congruence.
Qed.

Lemma cache_get_ok (cache : Textures.Cache) (k : Textures.CacheKey) (tiles : list Textures.Tile) :
  cache_ok cache -> Textures.cache_get cache k = Some tiles -> tiles = generated k.
Proof.
  unfold cache_ok. induction 1 as [|[k' v] rest Hk _ IH]; simpl; [discriminate|].
  destruct (Textures.key_eqb k k') eqn:E.
  - intros [= <-]. apply key_eqb_eq in E. subst k'. exact Hk.
  - exact IH.
Qed.

Lemma hatch_patterns_length (hatch : string) (d : Qc) :
  length (Textures.generateHatchPatternsFast hatch d)
  = if Textures.valid_hatch hatch then 1%nat else 0%nat.
Proof.
  unfold Textures.generateHatchPatternsFast, Textures.valid_hatch.
  destruct (String.eqb hatch "none"), (String.eqb hatch "diagonal"),
    (String.eqb hatch "cross"); reflexivity.
Qed.

(** C6 (as amended): texture synthesis never throws.  It returns six thread
    textures and, for a hatch among none, diagonal and cross, one hatch
    pattern; for any other hatch value it returns an empty list of hatch
    patterns and raises no error. *)
Theorem generateTextures_total (cache : Textures.Cache) (thickness : nat)
    (hatch : string) (densityScale : option Qc) :
  cache_ok cache ->
  exists r,
    fst (Textures.generateTextures cache thickness hatch densityScale) = Textures.Returned r /\
    length (Textures.threadTextures r) = 6%nat /\
    (Textures.valid_hatch hatch = true -> length (Textures.hatchPatterns r) = 1%nat) /\
    (Textures.valid_hatch hatch = false -> Textures.hatchPatterns r = []) /\
    cache_ok (snd (Textures.generateTextures cache thickness hatch densityScale)).
Proof.
  intros Hok. unfold Textures.generateTextures. cbv zeta.
  set (density := Textures.clampDensity densityScale).
  assert (Hh := hatch_patterns_length hatch density).
  destruct (Textures.cache_get cache (thickness, hatch, density)) as [cached|] eqn:Hget.
  - apply (cache_get_ok _ _ _ Hok) in Hget. unfold generated in Hget. cbn [fst snd] in Hget.
    eexists. split; [reflexivity|]. cbn [fst snd Textures.threadTextures Textures.hatchPatterns].
    subst cached.
    assert (Ht : length (Textures.generateThreadTexturesFast thickness density) = 6%nat)
      by reflexivity.
    rewrite take_app_length' by exact Ht. rewrite drop_app_length' by exact Ht.
    split; [exact Ht|].
    split; [intros E; now rewrite E in Hh|].
    split; [|exact Hok].
    intros E. rewrite E in Hh. now apply length_zero_iff_nil.
  - eexists. split; [reflexivity|]. cbn [fst snd Textures.threadTextures Textures.hatchPatterns].
    split; [reflexivity|].
    split; [intros E; now rewrite E in Hh|].
    split.
    + intros E. rewrite E in Hh. now apply length_zero_iff_nil.
    + unfold cache_ok. apply Forall_app. split; [exact Hok|].
      constructor; [reflexivity|constructor].
Qed.

Lemma generateTextures_total_witness :
  exists r,
    fst (Textures.generateTextures [] 3 "cross" None) = Textures.Returned r /\
    length (Textures.threadTextures r) = 6%nat /\
    (Textures.valid_hatch "cross" = true -> length (Textures.hatchPatterns r) = 1%nat) /\
    (Textures.valid_hatch "cross" = false -> Textures.hatchPatterns r = []) /\
    cache_ok (snd (Textures.generateTextures [] 3 "cross" None)).
Proof. apply (generateTextures_total [] 3 "cross" None). constructor. Defined.

(** C6 (as stated) fails: with the hatch value "zigzag" the call returns,
    with no hatch pattern, instead of raising "unknown hatch". *)
Lemma generateTextures_unknown_hatch_returns :
  fst (Textures.generateTextures [] 3 "zigzag" None)
    <> Textures.Threw "unknown hatch" /\
  exists r, fst (Textures.generateTextures [] 3 "zigzag" None) = Textures.Returned r /\
            Textures.hatchPatterns r = [].
Proof.
  split; [discriminate|]. eexists. split; reflexivity.
Qed.

(** ** applyBackgroundLocal *)

(** C10: with [preserveTransparency] set, the background stage returns the
    compositor's buffer unchanged, with the same width and height and mime
    "image/png", whatever the background option is. *)
Theorem applyBackgroundLocal_preserves
    (parseInt16 : string -> option Z) (solid : nat -> nat -> Z * Z * Z -> list Z)
    (opens : string -> bool) (cover : string -> nat -> nat -> list Z)
    (composite_over : list Z -> list Z -> list Z)
    (composited : Embroidery.Composited) (options : Embroidery.Options) :
  Embroidery.preserveTransparency options = true ->
  let result := Embroidery.applyBackgroundLocal parseInt16 solid opens cover
                  composite_over composited options in
  Embroidery.buffer result = Embroidery.c_buffer composited /\
  Embroidery.width (Embroidery.info result)
    = Embroidery.width (Embroidery.c_info composited) /\
  Embroidery.height (Embroidery.info result)
    = Embroidery.height (Embroidery.c_info composited) /\
  Embroidery.mime result = "image/png"%string.
Proof.
  intros Hp result. subst result. unfold Embroidery.applyBackgroundLocal.
  rewrite Hp. repeat split.
Qed.

Lemma applyBackgroundLocal_preserves_witness :
  let composited := Embroidery.mkComposited [137; 80; 78; 71] (Embroidery.mkInfo 2 1) in
  let options := Embroidery.mkOptions true
    (Some (Embroidery.mkBackground "color" (Some "#102030"%string) None)) in
  let result := Embroidery.applyBackgroundLocal (fun _ => Some 16)
                  (fun _ _ _ => [0]) (fun _ => false) (fun _ _ _ => [])
                  (fun bg fg => bg ++ fg) composited options in
  Embroidery.buffer result = Embroidery.c_buffer composited /\
  Embroidery.width (Embroidery.info result)
    = Embroidery.width (Embroidery.c_info composited) /\
  Embroidery.height (Embroidery.info result)
    = Embroidery.height (Embroidery.c_info composited) /\
  Embroidery.mime result = "image/png"%string.
Proof.
  intros composited options.
  apply (applyBackgroundLocal_preserves (fun _ => Some 16)
           (fun _ _ _ => [0]) (fun _ => false) (fun _ _ _ => [])
           (fun bg fg => bg ++ fg) composited options).
  reflexivity.
Defined.

(** Without the flag the buffer is the composite over a background. *)
Example applyBackgroundLocal_composites :
  Embroidery.buffer
    (Embroidery.applyBackgroundLocal (fun _ => Some 16)
       (fun _ _ c => [fst (fst c); snd (fst c); snd c]) (fun _ => false) (fun _ _ _ => [])
       (fun bg fg => bg ++ fg)
       (Embroidery.mkComposited [7] (Embroidery.mkInfo 1 1))
       (Embroidery.mkOptions false None))
  = [16; 16; 16; 7].
Proof. reflexivity. Qed.

(** ** Distinct elements and occurrence counts *)

Section DistinctFacts.
Context {A : Type} `{EqDecision A}.

Lemma add_new_app (c : A) (acc : list A) :
  add_new c acc = acc ++ (if bool_decide (c ∈ acc) then [] else [c]).
Proof. unfold add_new. destruct (bool_decide _); [now rewrite app_nil_r|reflexivity]. Qed.

Lemma firsts_snoc (l : list A) (c : A) : firsts (l ++ [c]) = add_new c (firsts l).
Proof. unfold firsts. now rewrite fold_left_app. Qed.

Lemma firsts_elem (l : list A) (c : A) : c ∈ firsts l <-> c ∈ l.
Proof.
  revert c. induction l as [|x l IH] using rev_ind; intros c.
  - reflexivity.
  - rewrite firsts_snoc, add_new_app, !elem_of_app, IH.
    destruct (bool_decide_reflect (x ∈ firsts l)) as [Hx|Hx].
    + rewrite IH in Hx. rewrite elem_of_nil, list_elem_of_singleton.
      split; [tauto|]. intros [Hc| ->]; tauto.
    + tauto.
Qed.

Lemma firsts_NoDup (l : list A) : NoDup (firsts l).
Proof.
  induction l as [|x l IH] using rev_ind.
  - constructor.
  - rewrite firsts_snoc, add_new_app.
    destruct (bool_decide_reflect (x ∈ firsts l)) as [Hx|Hx].
    + now rewrite app_nil_r.
    + apply NoDup_app. split; [exact IH|]. split.
      * intros y Hy Hy'. apply list_elem_of_singleton in Hy'. now subst y.
      * apply NoDup_singleton.
Qed.

Lemma occurrences_app (c : A) (l l' : list A) :
  occurrences c (l ++ l') = (occurrences c l + occurrences c l')%nat.
Proof. unfold occurrences. now rewrite List.filter_app, length_app. Qed.

Lemma occurrences_zero (c : A) (l : list A) : c ∉ l -> occurrences c l = 0%nat.
Proof.
  unfold occurrences. induction l as [|x l IH]; intros Hc; [reflexivity|].
  apply not_elem_of_cons in Hc. destruct Hc as [Hne Hc]. simpl.
  rewrite bool_decide_eq_false_2 by congruence. now apply IH.
Qed.

Lemma occurrences_pos (c : A) (l : list A) : c ∈ l -> (0 < occurrences c l)%nat.
Proof.
  unfold occurrences. induction l as [|x l IH]; intros Hc.
  - now apply elem_of_nil in Hc.
  - simpl. destruct (bool_decide_reflect (x = c)) as [->|Hne]; [simpl; lia|].
    apply elem_of_cons in Hc. destruct Hc as [->|Hc]; [congruence|now apply IH].
Qed.

(** *** Order of appearance *)

Lemma precedes_lookup (l : list A) (i j : nat) (a b : A) :
  (i < j)%nat -> l !! i = Some a -> l !! j = Some b -> precedes l a b.
Proof.
  intros Hij Ha Hb.
  apply list_elem_of_split_length in Ha. destruct Ha as (l1 & l2 & -> & Hi).
  rewrite lookup_app_r in Hb by lia. subst i.
  destruct (j - length l1)%nat as [|m] eqn:E; [lia|]. simpl in Hb.
  apply list_elem_of_split_length in Hb. destruct Hb as (l3 & l4 & -> & _).
  now exists l1, l3, l4.
Qed.

Lemma precedes_filter (f : A -> bool) (l : list A) (a b : A) :
  precedes l a b -> f a = true -> f b = true -> precedes (List.filter f l) a b.
Proof.
  intros (l1 & l2 & l3 & ->) Ha Hb.
  exists (List.filter f l1), (List.filter f l2), (List.filter f l3).
  rewrite List.filter_app. simpl. rewrite Ha, List.filter_app. simpl. now rewrite Hb.
Qed.

Lemma precedes_cons (x : A) (l : list A) (a b : A) :
  precedes l a b -> precedes (x :: l) a b.
Proof. intros (l1 & l2 & l3 & ->). now exists (x :: l1), l2, l3. Qed.

Lemma precedes_head (l : list A) (a b : A) : b ∈ l -> precedes (a :: l) a b.
Proof.
  intros Hb. apply list_elem_of_split in Hb. destruct Hb as (l2 & l3 & ->).
  now exists [], l2, l3.
Qed.

Lemma precedes_cons_inv (x : A) (l : list A) (a b : A) :
  precedes (x :: l) a b -> (x = a /\ b ∈ l) \/ precedes l a b.
Proof.
  intros (l1 & l2 & l3 & E). destruct l1 as [|y l1]; simpl in E.
  - injection E as -> ->. left. split; [reflexivity|].
    rewrite elem_of_app, elem_of_cons. tauto.
  - injection E as -> ->. right. now exists l1, l2, l3.
Qed.

Lemma filter_precedes (f : A -> bool) (l : list A) (a b : A) :
  precedes (List.filter f l) a b -> precedes l a b.
Proof.
  induction l as [|x l IH]; simpl.
  - intros (l1 & l2 & l3 & E). now destruct l1.
  - destruct (f x) eqn:Hx.
    + intros Hp. apply precedes_cons_inv in Hp. destruct Hp as [[-> Hb]|Hp].
      * apply precedes_head. apply list_elem_of_In in Hb.
        apply List.filter_In in Hb. now apply list_elem_of_In.
      * now apply precedes_cons, IH.
    + intros Hp. now apply precedes_cons, IH.
Qed.
End DistinctFacts.

Lemma precedes_map {A B : Type} (g : A -> B) (l : list A) (a b : A) :
  precedes l a b -> precedes (map g l) (g a) (g b).
Proof.
  intros (l1 & l2 & l3 & ->). exists (map g l1), (map g l2), (map g l3).
  now rewrite map_app, (map_cons g a), map_app.
Qed.

(** ** The frequency map of extractPaletteFast *)

Lemma Color_eqb_eq (c d : Quantize.Color) : Quantize.Color_eqb c d = true <-> c = d.
Proof.
  destruct c, d. unfold Quantize.Color_eqb. cbn.
  rewrite !andb_true_iff, !Z.eqb_eq. split.
  - intros [[[-> ->] ->] ->]. reflexivity.
  - intros [= -> -> -> ->]. auto.
Qed.

Lemma Color_eqb_decide (c d : Quantize.Color) : Quantize.Color_eqb c d = bool_decide (c = d).
Proof.
  destruct (bool_decide_reflect (c = d)) as [E|E].
  - now apply Color_eqb_eq.
  - destruct (Quantize.Color_eqb c d) eqn:H; [|reflexivity].
    now apply Color_eqb_eq in H.
Qed.

Lemma bump_map (c : Quantize.Color) (f : Quantize.Color -> nat) (L : list Quantize.Color) :
  NoDup L ->
  Quantize.bump c (map (fun d => (d, f d)) L)
  = map (fun d => (d, if bool_decide (d = c) then S (f d) else f d)) L
    ++ (if bool_decide (c ∈ L) then [] else [(c, 1%nat)]).
Proof.
  induction 1 as [|x L Hx HL IH]; [reflexivity|].
  cbn [map Quantize.bump]. rewrite Color_eqb_decide.
  destruct (bool_decide_reflect (c = x)) as [->|Hne].
  - rewrite bool_decide_eq_true_2 by reflexivity.
    rewrite (bool_decide_eq_true_2 (x ∈ x :: L)) by apply list_elem_of_here.
    rewrite app_nil_r. cbn [app]. f_equal.
    apply map_ext_in. intros d Hd. apply list_elem_of_In in Hd.
    rewrite bool_decide_eq_false_2; [reflexivity|]. intros ->. contradiction.
  - rewrite (bool_decide_eq_false_2 (x = c)) by congruence.
    rewrite IH. cbn [app]. f_equal. f_equal.
    rewrite (bool_decide_ext (c ∈ x :: L) (c ∈ L)); [reflexivity|].
    rewrite elem_of_cons. split; [|tauto].
    intros [E|E]; [contradiction|exact E].
Qed.

Lemma occurrences_singleton (d x : Quantize.Color) :
  occurrences d [x] = if bool_decide (x = d) then 1%nat else 0%nat.
Proof. unfold occurrences. cbn. now destruct (bool_decide (x = d)). Qed.

Lemma freq_fold_spec (S : list Quantize.Color) :
  fold_left (fun m c => Quantize.bump c m) S []
  = map (fun c => (c, occurrences c S)) (firsts S).
Proof.
  induction S as [|x S IH] using rev_ind; [reflexivity|].
  rewrite fold_left_app. cbn [fold_left]. rewrite IH, bump_map by apply firsts_NoDup.
  rewrite firsts_snoc, add_new_app, map_app. f_equal.
  - apply map_ext_in. intros d _. rewrite occurrences_app, occurrences_singleton.
    destruct (bool_decide_reflect (d = x)) as [->|Hne].
    + rewrite bool_decide_eq_true_2 by reflexivity. f_equal. lia.
    + rewrite bool_decide_eq_false_2 by congruence. f_equal. lia.
  - destruct (bool_decide_reflect (x ∈ firsts S)) as [Hx|Hx]; [reflexivity|].
    cbn [map]. rewrite occurrences_app, occurrences_singleton.
    rewrite bool_decide_eq_true_2 by reflexivity.
    rewrite firsts_elem in Hx. now rewrite (occurrences_zero x S Hx).
Qed.

Lemma colorFreq_spec (rgba : list Z) :
  Quantize.colorFreq rgba
  = map (fun c => (c, occurrences c (Quantize.samples rgba)))
        (firsts (Quantize.samples rgba)).
Proof. apply freq_fold_spec. Qed.

Lemma colorFreq_keys (rgba : list Z) :
  map fst (Quantize.colorFreq rgba) = firsts (Quantize.samples rgba).
Proof. rewrite colorFreq_spec, map_map. cbn [fst]. apply map_id. Qed.

Lemma colorFreq_count (rgba : list Z) (e : Quantize.Color * nat) :
  In e (Quantize.colorFreq rgba) ->
  snd e = occurrences (fst e) (Quantize.samples rgba).
Proof.
  rewrite colorFreq_spec. intros He. apply in_map_iff in He.
  destruct He as (c & <- & _). reflexivity.
Qed.

(** ** The stable sort by count *)

Lemma insert_by_count_perm (e : Quantize.Color * nat) (l : list (Quantize.Color * nat)) :
  Permutation (e :: l) (Quantize.insert_by_count e l).
Proof.
  induction l as [|e' l IH]; [reflexivity|]. cbn [Quantize.insert_by_count].
  destruct (snd e' <=? snd e)%nat; [reflexivity|].
  rewrite perm_swap. now apply perm_skip.
Qed.

Lemma sort_by_count_perm (l : list (Quantize.Color * nat)) :
  Permutation l (Quantize.sort_by_count l).
Proof.
  induction l as [|e l IH]; [reflexivity|]. cbn [Quantize.sort_by_count].
  rewrite <- insert_by_count_perm. now apply perm_skip.
Qed.

Lemma insert_by_count_sorted (e : Quantize.Color * nat) (l : list (Quantize.Color * nat)) :
  StronglySorted count_ge l -> StronglySorted count_ge (Quantize.insert_by_count e l).
Proof.
  induction 1 as [|e' l Hs IH Hall].
  - repeat constructor.
  - cbn [Quantize.insert_by_count].
    destruct (Nat.leb_spec (snd e') (snd e)) as [Hle|Hgt].
    + constructor; [now constructor|].
      constructor; [exact Hle|].
      eapply Forall_impl; [exact Hall|]. unfold count_ge. intros y Hy. lia.
    + constructor; [exact IH|].
      rewrite <- insert_by_count_perm. constructor; [|exact Hall].
      unfold count_ge. lia.
Qed.

Lemma sort_by_count_sorted (l : list (Quantize.Color * nat)) :
  StronglySorted count_ge (Quantize.sort_by_count l).
Proof.
  induction l as [|e l IH]; [constructor|].
  cbn [Quantize.sort_by_count]. now apply insert_by_count_sorted.
Qed.

Lemma insert_by_count_stable (n : nat) (e : Quantize.Color * nat)
    (l : list (Quantize.Color * nat)) :
  with_count n (Quantize.insert_by_count e l) = with_count n (e :: l).
Proof.
  unfold with_count. induction l as [|e' l IH]; [reflexivity|].
  cbn [Quantize.insert_by_count].
  destruct (Nat.leb_spec (snd e') (snd e)) as [Hle|Hgt]; [reflexivity|].
  cbn [List.filter] in *. rewrite IH.
  destruct (Nat.eqb_spec (snd e') n), (Nat.eqb_spec (snd e) n); try reflexivity. lia.
Qed.

Lemma sort_by_count_stable (n : nat) (l : list (Quantize.Color * nat)) :
  with_count n (Quantize.sort_by_count l) = with_count n l.
Proof.
  induction l as [|e l IH]; [reflexivity|].
  cbn [Quantize.sort_by_count]. rewrite insert_by_count_stable.
  unfold with_count in *. cbn [List.filter]. now rewrite IH.
Qed.

Lemma sorted_suffix {A : Type} (R : A -> A -> Prop) (l1 l2 : list A) :
  StronglySorted R (l1 ++ l2) -> StronglySorted R l2.
Proof.
  induction l1 as [|x l1 IH]; [trivial|].
  intros Hs. apply StronglySorted_inv in Hs. now apply IH.
Qed.

Lemma sorted_precedes (l : list (Quantize.Color * nat)) (a b : Quantize.Color * nat) :
  StronglySorted count_ge l -> precedes l a b -> count_ge a b.
Proof.
  intros Hs (l1 & l2 & l3 & ->).
  apply sorted_suffix in Hs. apply StronglySorted_inv in Hs.
  destruct Hs as [_ Hall]. rewrite Forall_forall in Hall. apply Hall.
  rewrite elem_of_app, elem_of_cons. tauto.
Qed.

(** ** The palette of extractPaletteFast *)

Lemma palette_lookup (rgba : list Z) (k i : nat) (c : Quantize.Color) :
  Quantize.extractPaletteFast rgba k !! i = Some c ->
  Quantize.sort_by_count (Quantize.colorFreq rgba) !! i
    = Some (c, occurrences c (Quantize.samples rgba)).
Proof.
  unfold Quantize.extractPaletteFast. rewrite list_lookup_fmap.
  destruct (take k _ !! i) as [e|] eqn:He; [|discriminate].
  intros [= <-]. apply lookup_take_Some in He. destruct He as [He _].
  rewrite He. f_equal. destruct e as [c n]. cbn [fst]. f_equal.
  assert (Hin : In (c, n) (Quantize.colorFreq rgba)).
  { apply (Permutation_in _ (Permutation_sym (sort_by_count_perm _))).
    apply list_elem_of_In, list_elem_of_lookup. eauto. }
  now apply colorFreq_count in Hin.
Qed.

Lemma extractPaletteFast_NoDup (rgba : list Z) (k : nat) :
  NoDup (Quantize.extractPaletteFast rgba k).
Proof.
  unfold Quantize.extractPaletteFast. rewrite fmap_take.
  eapply sublist_NoDup; [|apply sublist_take].
  assert (Hp : Permutation (fst <$> Quantize.colorFreq rgba)
                 (fst <$> Quantize.sort_by_count (Quantize.colorFreq rgba)))
    by (apply fmap_Permutation, sort_by_count_perm).
  rewrite <- Hp.
  change (NoDup (map fst (Quantize.colorFreq rgba))).
  rewrite colorFreq_keys. apply firsts_NoDup.
Qed.

Lemma extractPaletteFast_length (rgba : list Z) (k : nat) :
  length (Quantize.extractPaletteFast rgba k)
  = Nat.min k (length (firsts (Quantize.samples rgba))).
Proof.
  unfold Quantize.extractPaletteFast. rewrite length_fmap, length_take.
  rewrite <- (Permutation_length (sort_by_count_perm _)).
  rewrite <- colorFreq_keys. now rewrite length_map.
Qed.

(** C8: the palette has no repeated entry; its first entry is a most
    frequent color; its entries stand in descending order of frequency (the
    number of sampled pixels that round to them); and entries of equal
    frequency keep the insertion order of the frequency map. *)
Theorem extractPaletteFast_ordered (rgba : list Z) (maxColors i : nat)
    (ci : Quantize.Color) :
  Quantize.extractPaletteFast rgba maxColors !! i = Some ci ->
  let count c := occurrences c (Quantize.samples rgba) in
  NoDup (Quantize.extractPaletteFast rgba maxColors) /\
  (i = 0%nat -> forall c, (count c <= count ci)%nat) /\
  (forall j cj, (i < j)%nat ->
     Quantize.extractPaletteFast rgba maxColors !! j = Some cj ->
     (count cj <= count ci)%nat /\
     (count cj = count ci -> precedes (map fst (Quantize.colorFreq rgba)) ci cj)).
Proof.
  intros Hi count.
  apply palette_lookup in Hi. fold (count ci) in Hi.
  set (m := Quantize.colorFreq rgba) in *.
  assert (Hs := sort_by_count_sorted m).
  split; [apply extractPaletteFast_NoDup|]. split.
  - intros -> c.
    destruct (decide (c ∈ Quantize.samples rgba)) as [Hc|Hc].
    2:{ unfold count at 1. rewrite (occurrences_zero c _ Hc). lia. }
    assert (Hm : (c, count c) ∈ m).
    { subst m. rewrite colorFreq_spec. apply list_elem_of_In, in_map_iff.
      exists c. split; [reflexivity|]. now apply list_elem_of_In, firsts_elem. }
    assert (Hsorted : (c, count c) ∈ Quantize.sort_by_count m)
      by now rewrite <- (sort_by_count_perm m).
    apply list_elem_of_lookup in Hsorted. destruct Hsorted as [p Hp].
    destruct p as [|p].
    + rewrite Hi in Hp. injection Hp as -> _. lia.
    + exact (sorted_precedes _ _ _ Hs
               (precedes_lookup _ 0 (S p) _ _ ltac:(lia) Hi Hp)).
  - intros j cj Hij Hj.
    apply palette_lookup in Hj. fold (count cj) in Hj. fold m in Hj.
    assert (Hpre := precedes_lookup _ i j _ _ Hij Hi Hj).
    split; [exact (sorted_precedes _ _ _ Hs Hpre)|].
    intros Heq.
    apply (precedes_map fst m (ci, count ci) (cj, count cj)).
    apply (filter_precedes (fun e => (snd e =? count ci)%nat)).
    fold (with_count (count ci) m). rewrite <- sort_by_count_stable.
    apply precedes_filter; [exact Hpre|apply Nat.eqb_refl|].
    apply Nat.eqb_eq. exact Heq.
Qed.

Lemma extractPaletteFast_ordered_witness :
  let rgba := [255; 0; 0; 255; 9; 9; 9; 9; 9; 9; 9; 9; 9; 9; 9; 9;
               0; 0; 255; 255; 9; 9; 9; 9; 9; 9; 9; 9; 9; 9; 9; 9;
               0; 0; 255; 255] in
  let ci := Quantize.mkColor 0 0 256 255 in
  let count c := occurrences c (Quantize.samples rgba) in
  NoDup (Quantize.extractPaletteFast rgba 2) /\
  (0%nat = 0%nat -> forall c, (count c <= count ci)%nat) /\
  (forall j cj, (0 < j)%nat ->
     Quantize.extractPaletteFast rgba 2 !! j = Some cj ->
     (count cj <= count ci)%nat /\
     (count cj = count ci -> precedes (map fst (Quantize.colorFreq rgba)) ci cj)).
Proof.
  intros rgba ci.
  apply (extractPaletteFast_ordered rgba 2 0 ci). reflexivity.
Defined.

Example extractPaletteFast_ties :
  Quantize.extractPaletteFast
    [16; 0; 0; 255; 0; 0; 0; 0; 0; 0; 0; 0; 0; 0; 0; 0;
     0; 16; 0; 255; 0; 0; 0; 0; 0; 0; 0; 0; 0; 0; 0; 0;
     0; 0; 16; 255; 0; 0; 0; 0; 0; 0; 0; 0; 0; 0; 0; 0;
     0; 16; 0; 255] 3
  = [Quantize.mkColor 0 16 0 255; Quantize.mkColor 16 0 0 255; Quantize.mkColor 0 0 16 255].
Proof. reflexivity. Qed.

(** ** applyPaletteToImage *)

Lemma closest_in (r g b : Z) (palette : list Quantize.Color) (cur : Quantize.Color)
    (md : option Z) :
  In (Quantize.closest r g b palette cur md) (cur :: palette).
Proof.
  revert cur md. induction palette as [|c rest IH]; intros cur md; cbn [Quantize.closest].
  - now left.
  - destruct (match md with None => true | Some m => _ <? m end).
    + destruct (IH c (Some (Quantize.distance r g b c))) as [E|E];
        [right; left; exact E|right; right; exact E].
    + destruct (IH cur md) as [E|E]; [left; exact E|right; right; exact E].
Qed.

Lemma pixel_at_cons4 (x0 x1 x2 x3 : Z) (rest : list Z) (j : nat) :
  pixel_at (x0 :: x1 :: x2 :: x3 :: rest) (S j) = pixel_at rest j.
Proof.
  unfold pixel_at.
  replace (4 * S j)%nat with (S (S (S (S (4 * j))))) by lia.
  reflexivity.
Qed.

Lemma pixel_at_length (data : list Z) (j : nat) (p : Z * Z * Z * Z) :
  pixel_at data j = Some p -> (4 * j + 4 <= length data)%nat.
Proof.
  unfold pixel_at. intros H.
  destruct (data !! (4 * j + 3)%nat) as [a|] eqn:Ha.
  - apply lookup_lt_Some in Ha. lia.
  - now destruct (data !! (4 * j)%nat), (data !! (4 * j + 1)%nat),
      (data !! (4 * j + 2)%nat).
Qed.

Lemma remap_pixel (palette : list Quantize.Color) (first : Quantize.Color)
    (data : list Z) (j : nat) (r g b a : Z) :
  In first palette ->
  pixel_at data j = Some (r, g, b, a) ->
  exists c, In c palette /\
    pixel_at (Quantize.remap palette first data) j
    = Some (toUint8 (Quantize.red c), toUint8 (Quantize.green c),
            toUint8 (Quantize.blue c), a).
Proof.
  intros Hfirst. revert data. induction j as [|j IH]; intros data Hp;
    assert (Hlen := pixel_at_length _ _ _ Hp);
    destruct data as [|x0 [|x1 [|x2 [|x3 rest]]]]; cbn [length] in Hlen; try lia.
  - injection Hp as -> -> -> ->.
    exists (Quantize.closest r g b palette first None). split; [|reflexivity].
    destruct (closest_in r g b palette first None) as [<-|H]; assumption.
  - rewrite pixel_at_cons4 in Hp. cbn [Quantize.remap]. rewrite pixel_at_cons4.
    now apply IH.
Qed.

(** What the remapping does write: every whole pixel of the output carries
    the channels of some palette entry reduced modulo 256, and the alpha of
    the input pixel. *)
Lemma applyPaletteToImage_pixel (data out : list Z) (palette : list Quantize.Color)
    (j : nat) (r g b a : Z) :
  Quantize.applyPaletteToImage data palette = Some out ->
  pixel_at data j = Some (r, g, b, a) ->
  exists c, In c palette /\
    pixel_at out j = Some (toUint8 (Quantize.red c), toUint8 (Quantize.green c),
                           toUint8 (Quantize.blue c), a).
Proof.
  intros Happ Hp. unfold Quantize.applyPaletteToImage in Happ.
  destruct palette as [|first rest].
  - destruct data; [|discriminate Happ].
    apply pixel_at_length in Hp. cbn in Hp. lia.
  - injection Happ as <-. apply (remap_pixel _ _ _ _ r g b a); [now left|exact Hp].
Qed.

(** C2: on the white 2 x 2 image the palette is [(256, 256, 256, 255)],
    because 255 rounds up to 256, and every pixel of the quantized image is
    (0, 0, 0, 255), because the store of 256 into the buffer wraps to 0: no
    palette entry has the pixel's RGB. *)
Theorem quantizeColors_white_outside_palette :
  exists q,
    Quantize.quantizeColors Quantize.resize_top_left white_2x2 2 2 2 = Some q /\
    Quantize.q_palette q = [Quantize.mkColor 256 256 256 255] /\
    Quantize.q_data q = [0; 0; 0; 255; 0; 0; 0; 255; 0; 0; 0; 255; 0; 0; 0; 255] /\
    pixel_at (Quantize.q_data q) 0 = Some (0, 0, 0, 255) /\
    forall c, In c (Quantize.q_palette q) ->
      (Quantize.red c, Quantize.green c, Quantize.blue c) <> (0, 0, 0).
Proof.
  eexists. split; [reflexivity|]. cbn [Quantize.q_palette Quantize.q_data].
  split; [reflexivity|]. split; [reflexivity|]. split; [reflexivity|].
  intros c [<-|[]]. discriminate.
Qed.

(** ** The scan-order variant *)

Lemma RawColor_existsb (c : Quantize.RawColor) (palette : list Quantize.RawColor) :
  existsb (Quantize.RawColor_eqb c) palette = bool_decide (c ∈ palette).
Proof.
  induction palette as [|d rest IH]; [reflexivity|]. cbn [existsb]. rewrite IH.
  unfold Quantize.RawColor_eqb.
  destruct (bool_decide_reflect (c = d)) as [->|Hne].
  - cbn. symmetry. apply bool_decide_eq_true_2. apply list_elem_of_here.
  - cbn. apply bool_decide_ext. rewrite elem_of_cons. split; [tauto|].
    intros [E|E]; [contradiction|exact E].
Qed.

Lemma add_new_fold_prefix {A : Type} `{EqDecision A} (l acc : list A) :
  exists news, fold_left (fun acc c => add_new c acc) l acc = acc ++ news.
Proof.
  revert acc. induction l as [|c l IH]; intros acc.
  - exists []. now rewrite app_nil_r.
  - cbn [fold_left]. destruct (IH (add_new c acc)) as [news ->].
    rewrite add_new_app, <- app_assoc. eauto.
Qed.

Lemma scan_spec (px : list Quantize.RawColor) (k : nat) (palette : list Quantize.RawColor) :
  (length palette <= k)%nat ->
  Quantize.scan px k palette
  = take k (fold_left (fun acc c => add_new c acc) px palette).
Proof.
  revert palette. induction px as [|c rest IH]; intros palette Hlen.
  - cbn. symmetry. now apply take_ge.
  - cbn [Quantize.scan fold_left].
    destruct (Nat.ltb_spec (length palette) k) as [Hlt|Hge].
    + rewrite RawColor_existsb. unfold add_new.
      destruct (bool_decide (c ∈ palette)).
      * now apply IH.
      * apply IH. rewrite length_app. cbn. lia.
    + destruct (add_new_fold_prefix rest (add_new c palette)) as [news ->].
      rewrite add_new_app, <- app_assoc.
      assert (k = length palette) as -> by lia. symmetry. apply take_app_length.
Qed.

Lemma extractPaletteFromImage_spec (rgba : list Z) (k : nat) :
  Quantize.extractPaletteFromImage rgba k = take k (firsts (Quantize.pixels rgba)).
Proof. unfold Quantize.extractPaletteFromImage. apply scan_spec. cbn. lia. Qed.

Lemma extractPaletteFromImage_NoDup (rgba : list Z) (k : nat) :
  NoDup (Quantize.extractPaletteFromImage rgba k).
Proof.
  rewrite extractPaletteFromImage_spec.
  eapply sublist_NoDup; [apply firsts_NoDup|apply sublist_take].
Qed.

(** ** The size of the palette and the reduction notice *)

Lemma reduced_emitted_iff (alphaMask : list Z) (w h T : nat)
    (em : option (list Z)) (m p : nat) :
  In (Warnings.reduced_colors m)
     (Warnings.computeWarnings alphaMask w h T em (Some m) (Some p)) <-> (m < p)%nat.
Proof.
  unfold Warnings.computeWarnings. cbv zeta. rewrite !in_app_iff.
  split.
  - intros [H|[H|H]].
    + exfalso. destruct (_ && _); [|exact H].
      destruct H as [H|[]]. now apply thin_strokes_not_reduced in H.
    + exfalso. destruct em as [em0|]; [|exact H].
      destruct (_ <? _)%nat; [|exact H].
      destruct H as [H|[]]. now apply dense_not_reduced in H.
    + destruct (Nat.ltb_spec m p) as [Hlt|Hge]; [exact Hlt|destruct H].
  - intros Hlt. right. right. apply Nat.ltb_lt in Hlt. rewrite Hlt. now left.
Qed.

Lemma quantizeColors_some (resize : list Z -> nat -> nat -> nat -> nat -> option (list Z))
    (data downscaled : list Z) (w h k : nat) :
  resize data w h (w / Quantize.scale w h)%nat (h / Quantize.scale w h)%nat = Some downscaled ->
  Quantize.extractPaletteFast downscaled k <> [] ->
  exists q, Quantize.quantizeColors resize data w h k = Some q /\
            Quantize.q_palette q = Quantize.extractPaletteFast downscaled k /\
            Quantize.paletteSize q = length (Quantize.extractPaletteFast downscaled k).
Proof.
  intros Hr Hne. unfold Quantize.quantizeColors. cbv zeta. rewrite Hr.
  unfold Quantize.applyPaletteToImage.
  destruct (Quantize.extractPaletteFast downscaled k) as [|first rest]; [contradiction|].
  eexists. split; [reflexivity|]. split; reflexivity.
Qed.

Example banded_palette :
  Quantize.extractPaletteFast banded_9x1 2
  = [Quantize.mkColor 192 0 0 255; Quantize.mkColor 0 192 0 255].
Proof. reflexivity. Qed.

(** * Further properties of the pipeline *)

(** ** Rasters written pixel by pixel *)

Lemma raster_fill_spec (w h : nat) (f : nat -> nat -> Z) :
  length (Utils.raster_fill w h f) = (w * h)%nat /\
  forall x y, (x < w)%nat -> (y < h)%nat ->
    Utils.raster_fill w h f !! (y * w + x)%nat = Some (f x y).
Proof.
  unfold Utils.raster_fill.
  assert (H : length (for_range h
                (fun y => for_range w (fun x out => <[(y * w + x)%nat := f x y]> out))
                (replicate (w * h) 0)) = (w * h)%nat /\
              forall x y, (x < w)%nat -> (y < h)%nat -> (y * w + x < h * w)%nat ->
                for_range h
                  (fun y => for_range w (fun x out => <[(y * w + x)%nat := f x y]> out))
                  (replicate (w * h) 0) !! (y * w + x)%nat = Some (f x y)).
  { apply (raster_inv (fun k out =>
      length out = (w * h)%nat /\
      forall x y, (x < w)%nat -> (y < h)%nat -> (y * w + x < k)%nat ->
        out !! (y * w + x)%nat = Some (f x y))).
    - split; [apply length_replicate|]. intros x y _ _ Hlt. lia.
    - intros y x out Hy Hx [Hlen Hout]. split; [now rewrite length_insert|].
      intros x' y' Hx' Hy' Hlt.
      destruct (decide ((y * w + x)%nat = (y' * w + x')%nat)) as [E|NE].
      + destruct (idx_inj w x y x' y' Hx Hx' E) as [<- <-].
        apply list_lookup_insert_eq. rewrite Hlen. nia.
      + rewrite list_lookup_insert_ne by exact NE. apply Hout; [assumption..|lia]. }
  destruct H as [Hlen Hout]. split; [exact Hlen|].
  intros x y Hx Hy. apply Hout; [assumption..|nia].
Qed.

Lemma raster_fill_flat (w h : nat) (f : nat -> nat -> Z) (p : nat) :
  (p < w * h)%nat ->
  Utils.raster_fill w h f !! p = Some (f (p mod w) (p / w))%nat.
Proof.
  intros Hp. assert (Hw : w <> 0%nat) by (intros ->; lia).
  destruct (raster_fill_spec w h f) as [_ H].
  rewrite <- (H (p mod w) (p / w))%nat.
  - f_equal. rewrite (Nat.div_mod_eq p w) at 1. lia.
  - now apply Nat.mod_upper_bound.
  - apply Nat.Div0.div_lt_upper_bound. lia.
Qed.

Lemma raster_fill_Forall (P : Z -> Prop) (w h : nat) (f : nat -> nat -> Z) :
  (forall x y, (x < w)%nat -> (y < h)%nat -> P (f x y)) ->
  Forall P (Utils.raster_fill w h f).
Proof.
  intros Hf. apply Forall_lookup. intros p v Hv.
  assert (Hp : (p < w * h)%nat).
  { rewrite <- (proj1 (raster_fill_spec w h f)). apply lookup_lt_is_Some. eauto. }
  rewrite raster_fill_flat in Hv by exact Hp. injection Hv as <-.
  assert (Hw : w <> 0%nat) by (intros ->; lia).
  apply Hf; [now apply Nat.mod_upper_bound|].
  apply Nat.Div0.div_lt_upper_bound. lia.
Qed.

(** ** The 3 x 3 window *)

(** A sample of the window is a pixel of the image: the clamps keep the
    coordinates inside. *)
Lemma sample_at_inside (gray : list Z) (w h x y : nat) (o : Z * Z) :
  (0 < w)%nat -> (0 < h)%nat ->
  exists x' y', (x' < w)%nat /\ (y' < h)%nat /\
    Z.of_nat y' = Utils.clamp_index h (Z.of_nat y + fst o) /\
    Z.of_nat x' = Utils.clamp_index w (Z.of_nat x + snd o) /\
    Utils.sample_at gray w h x y o = get gray (y' * w + x')%nat 0.
Proof.
  intros Hw Hh. unfold Utils.sample_at. cbv zeta.
  set (yy := Utils.clamp_index h _). set (xx := Utils.clamp_index w _).
  assert (Hy : 0 <= yy < Z.of_nat h) by (unfold yy, Utils.clamp_index; lia).
  assert (Hx : 0 <= xx < Z.of_nat w) by (unfold xx, Utils.clamp_index; lia).
  exists (Z.to_nat xx), (Z.to_nat yy).
  split; [lia|]. split; [lia|]. split; [lia|]. split; [lia|].
  f_equal. nia.
Qed.

Lemma sample_at_Forall (P : Z -> Prop) (gray : list Z) (w h x y : nat) (o : Z * Z) :
  length gray = (w * h)%nat -> (0 < w)%nat -> (0 < h)%nat ->
  Forall P gray -> P (Utils.sample_at gray w h x y o).
Proof.
  intros Hlen Hw Hh Hall.
  destruct (sample_at_inside gray w h x y o Hw Hh) as (x' & y' & Hx' & Hy' & _ & _ & ->).
  assert (Hi : (y' * w + x' < length gray)%nat) by (rewrite Hlen; nia).
  apply lookup_lt_is_Some in Hi. destruct Hi as [v Hv].
  rewrite (get_lookup _ _ _ _ Hv). rewrite Forall_lookup in Hall. eauto.
Qed.

(** X1: the blur keeps the range of the image: if every pixel lies between
    [lo] and [hi] (bytes), so does every pixel of the result; in particular
    a uniform image is returned unchanged. *)
Theorem gaussianBlur3x3_range (gray : list Z) (w h : nat) (lo hi : Z) :
  length gray = (w * h)%nat -> 0 <= lo -> hi <= 255 ->
  Forall (fun v => lo <= v <= hi) gray ->
  length (Utils.gaussianBlur3x3 gray w h) = (w * h)%nat /\
  Forall (fun v => lo <= v <= hi) (Utils.gaussianBlur3x3 gray w h).
Proof.
  intros Hlen Hlo Hhi Hall. unfold Utils.gaussianBlur3x3.
  split; [apply raster_fill_spec|].
  apply raster_fill_Forall. intros x y Hx Hy.
  assert (Hs : forall o, lo <= Utils.sample_at gray w h x y o <= hi).
  { intros o. apply (sample_at_Forall (fun v => lo <= v <= hi)); auto; lia. }
  unfold Utils.window, Utils.offsets3x3, Utils.gauss_kernel, Utils.weighted,
    Utils.round_div, toUint8.
  cbn [fmap list_fmap zip_with fold_right].
  repeat match goal with
  | |- context [Utils.sample_at gray w h x y ?o] =>
      generalize (Hs o); generalize (Utils.sample_at gray w h x y o); intros ? ?
  end.
  clear Hs. change (0 <? 1 + (2 + (1 + (2 + (4 + (2 + (1 + (2 + (1 + 0))))))))) with true.
  cbv iota.
  match goal with |- lo <= ?q mod 256 <= hi => assert (Hq : lo <= q <= hi) end.
  { split.
    - apply Z.div_le_lower_bound; lia.
    - apply Z.lt_succ_r, Z.div_lt_upper_bound; lia. }
  rewrite Z.mod_small by lia. exact Hq.
Qed.

Lemma gaussianBlur3x3_range_witness :
  length (Utils.gaussianBlur3x3 [10; 20; 30; 20] 2 2) = (2 * 2)%nat /\
  Forall (fun v => 10 <= v <= 30) (Utils.gaussianBlur3x3 [10; 20; 30; 20] 2 2).
Proof.
  apply (gaussianBlur3x3_range [10; 20; 30; 20] 2 2 10 30);
    [reflexivity|lia|lia|repeat constructor; lia].
Defined.

Example gaussianBlur3x3_2x2 :
  Utils.gaussianBlur3x3 [0; 255; 255; 0] 2 2 = [96; 159; 159; 96].
Proof. reflexivity. Qed.

(** ** sobel *)

(** X2: an image whose rows are constant (no change along x) has a zero
    horizontal gradient everywhere, and one whose columns are constant has a
    zero vertical gradient; a uniform image has both. *)
Theorem sobel_flat_directions (gray : list Z) (w h : nat) :
  let px x y := get gray (y * w + x)%nat 0 in
  length (fst (Utils.sobel gray w h)) = (w * h)%nat /\
  length (snd (Utils.sobel gray w h)) = (w * h)%nat /\
  ((forall x x' y, (x < w)%nat -> (x' < w)%nat -> (y < h)%nat -> px x y = px x' y) ->
   Forall (fun v => v = 0) (fst (Utils.sobel gray w h))) /\
  ((forall x y y', (x < w)%nat -> (y < h)%nat -> (y' < h)%nat -> px x y = px x y') ->
   Forall (fun v => v = 0) (snd (Utils.sobel gray w h))).
Proof.
  intros px. unfold Utils.sobel. cbn [fst snd].
  split; [apply raster_fill_spec|]. split; [apply raster_fill_spec|]. split.
  - intros Hrow. apply raster_fill_Forall. intros x y Hx Hy.
    assert (Hs : forall j i i',
      Utils.sample_at gray w h x y (j, i) = Utils.sample_at gray w h x y (j, i')).
    { intros j i i'.
      destruct (sample_at_inside gray w h x y (j, i) ltac:(lia) ltac:(lia))
        as (x1 & y1 & Hx1 & Hy1 & Ey1 & _ & ->).
      destruct (sample_at_inside gray w h x y (j, i') ltac:(lia) ltac:(lia))
        as (x2 & y2 & Hx2 & Hy2 & Ey2 & _ & ->).
      cbn [fst] in Ey1, Ey2. assert (y1 = y2) as -> by lia.
      now apply Hrow. }
    unfold Utils.window, Utils.offsets3x3, Utils.sobel_kx, Utils.weighted.
    cbn [fmap list_fmap zip_with fold_right].
    rewrite (Hs (-1) (-1) 1), (Hs 0 (-1) 1), (Hs 1 (-1) 1). lia.
  - intros Hcol. apply raster_fill_Forall. intros x y Hx Hy.
    assert (Hs : forall j j' i,
      Utils.sample_at gray w h x y (j, i) = Utils.sample_at gray w h x y (j', i)).
    { intros j j' i.
      destruct (sample_at_inside gray w h x y (j, i) ltac:(lia) ltac:(lia))
        as (x1 & y1 & Hx1 & Hy1 & _ & Ex1 & ->).
      destruct (sample_at_inside gray w h x y (j', i) ltac:(lia) ltac:(lia))
        as (x2 & y2 & Hx2 & Hy2 & _ & Ex2 & ->).
      cbn [snd] in Ex1, Ex2. assert (x1 = x2) as -> by lia.
      now apply Hcol. }
    unfold Utils.window, Utils.offsets3x3, Utils.sobel_ky, Utils.weighted.
    cbn [fmap list_fmap zip_with fold_right].
    rewrite (Hs (-1) 1 (-1)), (Hs (-1) 1 0), (Hs (-1) 1 1). lia.
Qed.

Example sobel_vertical_step :
  Utils.sobel [0; 0; 9; 9; 0; 0; 9; 9] 4 2
  = ([0; 36; 36; 0; 0; 36; 36; 0], [0; 0; 0; 0; 0; 0; 0; 0]).
Proof. reflexivity. Qed.

(** ** Nearest-neighbour resampling *)

Lemma upscaleNearest_lookup (src : list Z) (w h W H p : nat) :
  ((W =? w)%nat && (H =? h)%nat = false) -> (p < W * H)%nat ->
  Utils.upscaleNearest src w h W H !! p =
  Some (let x := (p mod W)%nat in
        let y := (p / W)%nat in
        let sx := Z.min (Z.of_nat w - 1) (Z.of_nat (x * w / W)) in
        let sy := Z.min (Z.of_nat h - 1) (Z.of_nat (y * h / H)) in
        let j := sy * Z.of_nat w + sx in
        if j <? 0 then 0 else get src (Z.to_nat j) 0).
Proof.
  intros Hne Hp. unfold Utils.upscaleNearest. rewrite Hne.
  rewrite list_lookup_fmap, lookup_seq_lt by exact Hp. reflexivity.
Qed.

Lemma upscaleNearest_length (src : list Z) (w h W H : nat) :
  length src = (w * h)%nat -> length (Utils.upscaleNearest src w h W H) = (W * H)%nat.
Proof.
  intros Hlen. unfold Utils.upscaleNearest.
  destruct ((W =? w)%nat && (H =? h)%nat) eqn:E.
  - apply andb_true_iff in E. destruct E as [E1 E2].
    apply Nat.eqb_eq in E1, E2. now subst.
  - now rewrite length_fmap, length_seq.
Qed.

(** X3: enlarging an image by a whole factor and reducing it by the same
    factor gives the image back: [downsampleNearest] undoes [upscaleNearest]. *)
Theorem downsample_upscale_roundtrip (src : list Z) (w h s : nat) :
  length src = (w * h)%nat -> (0 < w)%nat -> (0 < h)%nat -> (0 < s)%nat ->
  Forall (fun v => 0 <= v < 256) src ->
  Utils.downsampleNearest (Utils.upscaleNearest src w h (w * s) (h * s)) (w * s) (h * s) s
  = (src, w, h).
Proof.
  intros Hlen Hw Hh Hs Hbytes. unfold Utils.downsampleNearest.
  destruct (Nat.leb_spec s 1) as [Hs1|Hs2].
  - assert (s = 1%nat) as -> by lia. rewrite !Nat.mul_1_r.
    unfold Utils.upscaleNearest. now rewrite !Nat.eqb_refl.
  - cbv zeta. rewrite !Nat.div_mul by lia.
    rewrite !Nat.max_r by lia. do 2 f_equal.
    assert (Hne : ((w * s =? w)%nat && (h * s =? h)%nat) = false).
    { apply andb_false_iff. left. apply Nat.eqb_neq. nia. }
    apply list_eq. intros p.
    destruct (Nat.lt_ge_cases p (w * h)) as [Hp|Hp].
    2:{ rewrite (proj2 (lookup_ge_None _ _)) by (rewrite (proj1 (raster_fill_spec _ _ _)); lia).
        symmetry. apply lookup_ge_None. lia. }
    rewrite raster_fill_flat by exact Hp. cbv zeta.
    set (x := (p mod w)%nat). set (y := (p / w)%nat).
    assert (Hx : (x < w)%nat) by (apply Nat.mod_upper_bound; lia).
    assert (Hy : (y < h)%nat) by (apply Nat.Div0.div_lt_upper_bound; lia).
    assert (Ep : p = (y * w + x)%nat)
      by (unfold x, y; rewrite (Nat.div_mod_eq p w) at 1; lia).
    rewrite !Z.min_r by nia.
    set (q := (y * s * (w * s) + x * s)%nat).
    replace (Z.of_nat (y * s) * Z.of_nat (w * s) + Z.of_nat (x * s)) with (Z.of_nat q)
      by (unfold q; lia).
    destruct (Z.ltb_spec (Z.of_nat q) 0) as [Hneg|_]; [lia|].
    rewrite Nat2Z.id.
    assert (Hq : (q < w * s * (h * s))%nat) by (unfold q; nia).
    assert (Eqm : (q mod (w * s) = x * s)%nat)
      by (symmetry; apply (Nat.mod_unique _ _ (y * s)); unfold q; nia).
    assert (Eqd : (q / (w * s) = y * s)%nat)
      by (symmetry; apply (Nat.div_unique _ _ _ (x * s)); unfold q; nia).
    rewrite (get_lookup _ _ _ _ (upscaleNearest_lookup src w h _ _ q Hne Hq)).
    cbv zeta. rewrite Eqm, Eqd.
    replace (x * s * w / (w * s))%nat with x
      by (apply (Nat.div_unique _ _ _ 0); nia).
    replace (y * s * h / (h * s))%nat with y
      by (apply (Nat.div_unique _ _ _ 0); nia).
    rewrite !Z.min_r by lia.
    destruct (Z.ltb_spec (Z.of_nat y * Z.of_nat w + Z.of_nat x) 0) as [Hneg|_]; [lia|].
    replace (Z.to_nat (Z.of_nat y * Z.of_nat w + Z.of_nat x)) with p by lia.
    assert (Hi : (p < length src)%nat) by lia.
    apply lookup_lt_is_Some in Hi. destruct Hi as [v Hv].
    rewrite (get_lookup _ _ _ _ Hv), Hv. f_equal.
    rewrite Forall_lookup in Hbytes. specialize (Hbytes p v Hv).
    unfold toUint8. apply Z.mod_small. lia.
Qed.

Lemma downsample_upscale_roundtrip_witness :
  Utils.downsampleNearest (Utils.upscaleNearest [1; 2; 3; 4; 5; 6] 3 2 (3 * 2) (2 * 2))
    (3 * 2) (2 * 2) 2
  = ([1; 2; 3; 4; 5; 6], 3%nat, 2%nat).
Proof.
  apply (downsample_upscale_roundtrip [1; 2; 3; 4; 5; 6] 3 2 2);
    [reflexivity|lia|lia|lia|repeat constructor; lia].
Defined.

(** X4: reducing an image reads inside it: the result has
    [max 1 (w / scale)] by [max 1 (h / scale)] pixels and each of them is a
    pixel of the source; a scale of 0 or 1 returns the source itself. *)
Theorem downsampleNearest_inside (src : list Z) (w h s : nat) :
  length src = (w * h)%nat -> (0 < w)%nat -> (0 < h)%nat ->
  Forall (fun v => 0 <= v < 256) src ->
  let '(data, nw, nh) := Utils.downsampleNearest src w h s in
  length data = (nw * nh)%nat /\
  (forall v, In v data -> In v src) /\
  ((s <= 1)%nat -> data = src /\ nw = w /\ nh = h) /\
  ((1 < s)%nat -> nw = Nat.max 1 (w / s) /\ nh = Nat.max 1 (h / s)).
Proof.
  intros Hlen Hw Hh Hbytes. unfold Utils.downsampleNearest.
  destruct (Nat.leb_spec s 1) as [Hs1|Hs2].
  - split; [exact Hlen|]. split; [auto|]. split; [auto|]. intros. lia.
  - cbv zeta. split; [apply raster_fill_spec|]. split; [|split; [intros; lia|auto]].
    intros v Hv. apply list_elem_of_In in Hv.
    revert v Hv. apply Forall_forall. apply raster_fill_Forall. intros x y Hx Hy.
    set (sx := Z.min (Z.of_nat w - 1) (Z.of_nat (x * s))).
    set (sy := Z.min (Z.of_nat h - 1) (Z.of_nat (y * s))).
    assert (0 <= sx < Z.of_nat w) by (unfold sx; lia).
    assert (0 <= sy < Z.of_nat h) by (unfold sy; lia).
    destruct (Z.ltb_spec (sy * Z.of_nat w + sx) 0) as [Hneg|_]; [nia|].
    assert (Hi : (Z.to_nat (sy * Z.of_nat w + sx) < length src)%nat) by (rewrite Hlen; nia).
    apply lookup_lt_is_Some in Hi. destruct Hi as [v Hv].
    rewrite (get_lookup _ _ _ _ Hv).
    rewrite Forall_lookup in Hbytes. specialize (Hbytes _ v Hv).
    unfold toUint8. rewrite Z.mod_small by lia.
    apply list_elem_of_In, list_elem_of_lookup. eauto.
Qed.

Lemma downsampleNearest_inside_witness :
  let '(data, nw, nh) := Utils.downsampleNearest [1; 2; 3; 4; 5; 6; 7; 8] 4 2 2 in
  length data = (nw * nh)%nat /\
  (forall v, In v data -> In v [1; 2; 3; 4; 5; 6; 7; 8]) /\
  ((2 <= 1)%nat -> data = [1; 2; 3; 4; 5; 6; 7; 8] /\ nw = 4%nat /\ nh = 2%nat) /\
  ((1 < 2)%nat -> nw = Nat.max 1 (4 / 2) /\ nh = Nat.max 1 (2 / 2)).
Proof.
  apply (downsampleNearest_inside [1; 2; 3; 4; 5; 6; 7; 8] 4 2 2);
    [reflexivity|lia|lia|repeat constructor; lia].
Defined.

(** ** distanceTransform: the values *)

(** X5: each value of the transform is a binary32 between 0 and [inf] that
    is near the exact Chamfer distance to a nearest set pixel, for an image
    of at most [2^20] pixels a side: it lies above the exact length [D]
    (in pixels) to any set pixel by at most [D^2 / 2^23] pixels, and below
    the exact length to some set pixel by at most as much, or it is [inf];
    with no set pixel it is [inf]. *)
Theorem distanceTransform_nearest (src : list Z) (w h x y : nat) :
  Z.of_nat w <= max_side -> Z.of_nat h <= max_side ->
  (x < w)%nat -> (y < h)%nat ->
  let v := px w (Utils.distanceTransform src w h) x y in
  0 <= v <= Utils.inf /\ Float.fround v = v /\
  (forall sx sy, (sx < w)%nat -> (sy < h)%nat -> is_set src w sx sy ->
     near_above (cham x y sx sy) v) /\
  (v = Utils.inf \/
   exists sx sy, (sx < w)%nat /\ (sy < h)%nat /\ is_set src w sx sy /\
                 near_below (cham x y sx sy) v) /\
  ((forall sx sy, (sx < w)%nat -> (sy < h)%nat -> ~ is_set src w sx sy) ->
   v = Utils.inf).
Proof.
  intros Hw Hh Hx Hy v. subst v.
  assert (Hle := distanceTransform_le_inf src w h x y Hx Hy).
  destruct (distanceTransform_good src w h x y Hx Hy) as (H0 & Hf & _).
  assert (Hs := distanceTransform_sound src w h Hw Hh x y Hx Hy).
  split; [lia|]. split; [exact Hf|]. split; [|split].
  - intros sx sy Hsx Hsy Hset. now apply distanceTransform_reach.
  - destruct Hs as [Hi|(sx & sy & Hsx & Hsy & Hset & Hc)]; [left; lia|].
    right. exists sx, sy. repeat split; assumption.
  - intros Hnone. destruct Hs as [Hi|(sx & sy & Hsx & Hsy & Hset & _)]; [lia|].
    now destruct (Hnone sx sy Hsx Hsy).
Qed.

Lemma distanceTransform_nearest_witness :
  let v := px 3 (Utils.distanceTransform [0; 0; 0; 0; 0; 255] 3 2) 0 0 in
  0 <= v <= Utils.inf /\ Float.fround v = v /\
  (forall sx sy, (sx < 3)%nat -> (sy < 2)%nat -> is_set [0; 0; 0; 0; 0; 255] 3 sx sy ->
     near_above (cham 0 0 sx sy) v) /\
  (v = Utils.inf \/
   exists sx sy, (sx < 3)%nat /\ (sy < 2)%nat /\ is_set [0; 0; 0; 0; 0; 255] 3 sx sy /\
                 near_below (cham 0 0 sx sy) v) /\
  ((forall sx sy, (sx < 3)%nat -> (sy < 2)%nat -> ~ is_set [0; 0; 0; 0; 0; 255] 3 sx sy) ->
   v = Utils.inf).
Proof.
  apply (distanceTransform_nearest [0; 0; 0; 0; 0; 255] 3 2 0 0);
    solve [vm_compute; discriminate | lia].
Defined.

(** On that image the value at the far corner is the binary32 nearest to
    the sum of the binary32 1.4 and 1; it lies above the exact length. *)
Example distanceTransform_far_corner :
  let v := px 3 (Utils.distanceTransform [0; 0; 0; 0; 0; 255] 3 2) 0 0 in
  v = 10066330 * 2 ^ 30 /\ cham 0 0 2 1 = Utils.cost_orth + Utils.cost_diag /\
  cham 0 0 2 1 < v.
Proof. vm_compute. repeat split; reflexivity. Qed.

(** ** seededRandom: the sequence of states *)

(** X6: two generators whose seeds differ modulo 2^32 never meet: after the
    same number of calls their states differ; seeds equal modulo 2^32 give
    the same numbers. *)
Theorem seededRandom_states_distinct (seed seed' : Z) (n : nat) :
  seed mod 2 ^ 32 <> seed' mod 2 ^ 32 ->
  Utils.state_after n (Utils.seededRandom seed)
  <> Utils.state_after n (Utils.seededRandom seed') /\
  (forall m, Utils.nth_value m (seed + 2 ^ 32) = Utils.nth_value m seed).
Proof.
  intros Hne. split.
  - induction n as [|n IH]; [exact Hne|].
    cbn [Utils.state_after Utils.next fst]. intros E.
    apply lcg_injective in E; [contradiction|apply state_after_range..].
  - intros m. unfold Utils.nth_value, Utils.seededRandom, Utils.toUint32.
    replace (seed + 2 ^ 32) with (seed + 1 * 2 ^ 32) by lia.
    now rewrite Z.mod_add by lia.
Qed.

Lemma seededRandom_states_distinct_witness :
  Utils.state_after 5 (Utils.seededRandom 1) <> Utils.state_after 5 (Utils.seededRandom 2) /\
  (forall m, Utils.nth_value m (1 + 2 ^ 32) = Utils.nth_value m 1).
Proof. apply (seededRandom_states_distinct 1 2 5). vm_compute. discriminate. Defined.

(** ** createOrientationMask *)

Lemma createOrientationMask_lookup (bins : list Z) (b w h i : nat) :
  (i < w * h)%nat ->
  Orientation.createOrientationMask bins b w h !! i
  = Some (if bool_decide (bins !! i = Some (Z.of_nat b)) then 255 else 0).
Proof.
  intros Hi. unfold Orientation.createOrientationMask.
  now rewrite list_lookup_fmap, lookup_seq_lt by exact Hi.
Qed.

Lemma createOrientationMask_at (bins : list Z) (w h i b0 b : nat) :
  (i < w * h)%nat -> bins !! i = Some (Z.of_nat b0) ->
  Orientation.createOrientationMask bins b w h !! i
  = Some (if (b =? b0)%nat then 255 else 0).
Proof.
  intros Hi Hb. rewrite createOrientationMask_lookup by exact Hi. rewrite Hb.
  destruct (Nat.eqb_spec b b0) as [->|Hne].
  - now rewrite bool_decide_eq_true_2.
  - rewrite bool_decide_eq_false_2; [reflexivity|]. intros E. injection E as E. lia.
Qed.

(** X7: the masks of the bins partition the image: a pixel whose bin is
    [b0] is set in the mask of [b0] and clear in the mask of every other
    bin, and a pixel without a bin is clear in all of them. *)
Theorem createOrientationMask_partition (bins : list Z) (w h i : nat) :
  (i < w * h)%nat ->
  (forall b, length (Orientation.createOrientationMask bins b w h) = (w * h)%nat) /\
  (forall b0, bins !! i = Some (Z.of_nat b0) ->
     forall b, Orientation.createOrientationMask bins b w h !! i
               = Some (if (b =? b0)%nat then 255 else 0)) /\
  (bins !! i = None ->
     forall b, Orientation.createOrientationMask bins b w h !! i = Some 0).
Proof.
  intros Hi. split; [|split].
  - intros b. unfold Orientation.createOrientationMask.
    now rewrite length_fmap, length_seq.
  - intros b0 Hb b. now apply createOrientationMask_at.
  - intros Hb b. rewrite createOrientationMask_lookup by exact Hi. rewrite Hb.
    now rewrite bool_decide_eq_false_2.
Qed.

Lemma createOrientationMask_partition_witness :
  (forall b, length (Orientation.createOrientationMask [0; 2; 1; 2] b 2 2) = (2 * 2)%nat) /\
  (forall b0, [0; 2; 1; 2] !! 1%nat = Some (Z.of_nat b0) ->
     forall b, Orientation.createOrientationMask [0; 2; 1; 2] b 2 2 !! 1%nat
               = Some (if (b =? b0)%nat then 255 else 0)) /\
  ([0; 2; 1; 2] !! 1%nat = None ->
     forall b, Orientation.createOrientationMask [0; 2; 1; 2] b 2 2 !! 1%nat = Some 0).
Proof. apply (createOrientationMask_partition [0; 2; 1; 2] 2 2 1). lia. Defined.

(** X8: [maskForBin] and [createOrientationMask] give the same mask
    wherever the pixel has a bin; they differ only past the end of the bins,
    where [maskForBin] reads bin 0 and [createOrientationMask] reads no bin. *)
Theorem maskForBin_createOrientationMask (bins : list Z) (w h b : nat) :
  ((w * h <= length bins)%nat ->
   Utils.maskForBin bins w h b = Orientation.createOrientationMask bins b w h) /\
  (forall i, (i < w * h)%nat -> (i < length bins)%nat ->
     Utils.maskForBin bins w h b !! i = Orientation.createOrientationMask bins b w h !! i) /\
  (forall i, (length bins <= i < w * h)%nat ->
     Utils.maskForBin bins w h b !! i = Some (if (b =? 0)%nat then 255 else 0) /\
     Orientation.createOrientationMask bins b w h !! i = Some 0).
Proof.
  assert (Hsame : forall i v, bins !! i = Some v ->
    (if get bins i 0 =? Z.of_nat b then 255 else 0)
    = (if bool_decide (bins !! i = Some (Z.of_nat b)) then 255 else 0)).
  { intros i v Hv. rewrite (get_lookup _ _ _ _ Hv), Hv.
    destruct (Z.eqb_spec v (Z.of_nat b)) as [->|Hne].
    - now rewrite bool_decide_eq_true_2.
    - rewrite bool_decide_eq_false_2; [reflexivity|]. now intros [= E]. }
  split; [|split].
  - intros Hlen. unfold Utils.maskForBin, Orientation.createOrientationMask.
    apply list_fmap_ext. intros j i Hi. apply lookup_seq in Hi. destruct Hi as [-> Hj].
    destruct (lookup_lt_is_Some_2 bins (0 + j) ltac:(lia)) as [v Hv].
    apply (Hsame _ v Hv).
  - intros i Hi Hb. rewrite createOrientationMask_lookup by exact Hi.
    unfold Utils.maskForBin. rewrite list_lookup_fmap, lookup_seq_lt by exact Hi.
    cbn [fmap option_fmap option_map Nat.add]. f_equal.
    destruct (lookup_lt_is_Some_2 bins i Hb) as [v Hv]. apply (Hsame _ v Hv).
  - intros i [Hb Hi]. rewrite createOrientationMask_lookup by exact Hi.
    unfold Utils.maskForBin. rewrite list_lookup_fmap, lookup_seq_lt by exact Hi.
    cbn [fmap option_fmap option_map Nat.add].
    assert (Hn : bins !! i = None) by (apply lookup_ge_None; lia).
    unfold get. rewrite Hn. cbn [default from_option].
    split; [|now rewrite bool_decide_eq_false_2].
    f_equal. destruct (Nat.eqb_spec b 0) as [->|Hne]; [reflexivity|].
    destruct (Z.eqb_spec 0 (Z.of_nat b)); [lia|reflexivity].
Qed.

(** ** The thread layers of compositeImage *)

Lemma tile_key_eqb_thread (w h b b' : nat) :
  Composite.tile_key_eqb (Composite.keyTile "thread" b w h)
                         (Composite.keyTile "thread" b' w h) = (b =? b')%nat.
Proof.
  unfold Composite.tile_key_eqb, Composite.keyTile.
  rewrite String.eqb_refl, !Nat.eqb_refl. cbn [andb]. now rewrite !andb_true_r.
Qed.

Lemma mask_key_eqb_bins (w h b b' : nat) :
  Composite.mask_key_eqb (Composite.keyMask b w h "bins")
                         (Composite.keyMask b' w h "bins") = (b =? b')%nat.
Proof.
  unfold Composite.mask_key_eqb, Composite.keyMask.
  rewrite String.eqb_refl, !Nat.eqb_refl. now rewrite !andb_true_r.
Qed.

Lemma fold_left_fmap {A B C : Type} (f : A -> B -> A) (g : C -> B) (l : list C) (a : A) :
  fold_left f (g <$> l) a = fold_left (fun a c => f a (g c)) l a.
Proof. revert a. induction l as [|c l IH]; intros a; [reflexivity|]. cbn. apply IH. Qed.

Lemma thread_layers_fast_run (tex : list Textures.Tile) (bins : list Z) (w h : nat)
    (tiles : Composite.TileCache) (masks : Composite.MaskCache) :
  Composite.thread_layers_fast tex bins w h tiles masks
  = run_layers tex bins w h (fast_bins (length tex)) (tiles, masks, []).
Proof.
  unfold Composite.thread_layers_fast, run_layers, fast_bins, for_range.
  now rewrite fold_left_fmap.
Qed.

Lemma thread_layers_full_run (tex : list Textures.Tile) (bins : list Z) (w h : nat)
    (tiles : Composite.TileCache) (masks : Composite.MaskCache) :
  Composite.thread_layers_full tex bins w h tiles masks
  = run_layers tex bins w h (seq 0 (length tex)) (tiles, masks, []).
Proof. reflexivity. Qed.

Lemma thread_layer_hit (tex : list Textures.Tile) (bins : list Z) (w h b : nat)
    (tiles : Composite.TileCache) (masks : Composite.MaskCache)
    (ops : list Composite.ThreadLayer) (s : Composite.Sheet) (m : list Z) :
  Composite.tile_get tiles (Composite.keyTile "thread" b w h) = Some s ->
  Composite.mask_get masks (Composite.keyMask b w h "bins") = Some m ->
  Composite.thread_layer tex bins w h b (tiles, masks, ops)
  = (tiles, masks, ops ++ [Composite.mkLayer b s m]).
Proof. intros Ht Hm. unfold Composite.thread_layer. now rewrite Ht, Hm. Qed.

Lemma thread_layer_from (tex : list Textures.Tile) (bins : list Z) (w h b : nat)
    (tiles : Composite.TileCache) (masks : Composite.MaskCache)
    (ops : list Composite.ThreadLayer) :
  caches_from tex bins w h tiles masks ->
  exists tiles' masks',
    Composite.thread_layer tex bins w h b (tiles, masks, ops)
    = (tiles', masks', ops ++ [fresh_layer tex bins w h b]) /\
    caches_from tex bins w h tiles' masks' /\
    forall bs, caches_hold tex bins w h bs tiles masks ->
               caches_hold tex bins w h (b :: bs) tiles' masks'.
Proof.
  intros [Ht Hm]. unfold Composite.thread_layer.
  destruct (Composite.tile_get tiles (Composite.keyTile "thread" b w h)) as [s|] eqn:Es;
  destruct (Composite.mask_get masks (Composite.keyMask b w h "bins")) as [m|] eqn:Em.
  - pose proof (Ht b s Es) as ->. pose proof (Hm b m Em) as ->.
    exists tiles, masks. split; [reflexivity|]. split; [now split|].
    intros bs Hbs b' [<-|Hin]; [now split|now apply Hbs].
  - pose proof (Ht b s Es) as ->.
    exists tiles, ((Composite.keyMask b w h "bins", fresh_mask bins w h b) :: masks).
    split; [reflexivity|]. split; [split; [exact Ht|]|].
    + intros b' m'. cbn [Composite.mask_get]. rewrite mask_key_eqb_bins.
      destruct (Nat.eqb_spec b' b) as [->|Hne]; [now intros [= <-]|apply Hm].
    + intros bs Hbs b' Hin. cbn [Composite.mask_get]. rewrite mask_key_eqb_bins.
      destruct (Nat.eqb_spec b' b) as [->|Hne]; [now split|].
      destruct Hin as [<-|Hin]; [contradiction|now apply Hbs].
  - pose proof (Hm b m Em) as ->.
    exists ((Composite.keyTile "thread" b w h, fresh_sheet tex w h b) :: tiles), masks.
    split; [reflexivity|]. split; [split; [|exact Hm]|].
    + intros b' s'. cbn [Composite.tile_get]. rewrite tile_key_eqb_thread.
      destruct (Nat.eqb_spec b' b) as [->|Hne]; [now intros [= <-]|apply Ht].
    + intros bs Hbs b' Hin. cbn [Composite.tile_get]. rewrite tile_key_eqb_thread.
      destruct (Nat.eqb_spec b' b) as [->|Hne]; [now split|].
      destruct Hin as [<-|Hin]; [contradiction|now apply Hbs].
  - exists ((Composite.keyTile "thread" b w h, fresh_sheet tex w h b) :: tiles),
           ((Composite.keyMask b w h "bins", fresh_mask bins w h b) :: masks).
    split; [reflexivity|]. split; [split|].
    + intros b' s'. cbn [Composite.tile_get]. rewrite tile_key_eqb_thread.
      destruct (Nat.eqb_spec b' b) as [->|Hne]; [now intros [= <-]|apply Ht].
    + intros b' m'. cbn [Composite.mask_get]. rewrite mask_key_eqb_bins.
      destruct (Nat.eqb_spec b' b) as [->|Hne]; [now intros [= <-]|apply Hm].
    + intros bs Hbs b' Hin. cbn [Composite.tile_get Composite.mask_get].
      rewrite tile_key_eqb_thread, mask_key_eqb_bins.
      destruct (Nat.eqb_spec b' b) as [->|Hne]; [now split|].
      destruct Hin as [<-|Hin]; [contradiction|now apply Hbs].
Qed.

Lemma run_layers_from (tex : list Textures.Tile) (bins : list Z) (w h : nat)
    (bs done : list nat) (tiles : Composite.TileCache) (masks : Composite.MaskCache)
    (ops : list Composite.ThreadLayer) :
  caches_from tex bins w h tiles masks ->
  caches_hold tex bins w h done tiles masks ->
  exists tiles' masks',
    run_layers tex bins w h bs (tiles, masks, ops)
    = (tiles', masks', ops ++ (fresh_layer tex bins w h <$> bs)) /\
    caches_from tex bins w h tiles' masks' /\
    caches_hold tex bins w h (bs ++ done) tiles' masks'.
Proof.
  revert done tiles masks ops.
  induction bs as [|b bs IH]; intros done tiles masks ops Hfrom Hhold.
  - exists tiles, masks. cbn. rewrite app_nil_r. split; [reflexivity|split; assumption].
  - destruct (thread_layer_from tex bins w h b tiles masks ops Hfrom)
      as (tiles1 & masks1 & E1 & Hfrom1 & Hhold1).
    destruct (IH (b :: done) tiles1 masks1 (ops ++ [fresh_layer tex bins w h b])
                 Hfrom1 (Hhold1 done Hhold))
      as (tiles2 & masks2 & E2 & Hfrom2 & Hhold2).
    exists tiles2, masks2. split; [|split; [exact Hfrom2|]].
    + unfold run_layers in *. cbn [fold_left]. rewrite E1, E2.
      rewrite fmap_cons. now rewrite <- app_assoc.
    + intros b' Hin. apply Hhold2. rewrite in_app_iff in *. cbn [In] in *. tauto.
Qed.

Lemma run_layers_hits (tex tex' : list Textures.Tile) (bins bins' : list Z) (w h : nat)
    (bs : list nat) (tiles : Composite.TileCache) (masks : Composite.MaskCache)
    (ops : list Composite.ThreadLayer) :
  caches_hold tex bins w h bs tiles masks ->
  run_layers tex' bins' w h bs (tiles, masks, ops)
  = (tiles, masks, ops ++ (fresh_layer tex bins w h <$> bs)).
Proof.
  revert ops. induction bs as [|b bs IH]; intros ops Hhold.
  - cbn. now rewrite app_nil_r.
  - unfold run_layers in *. cbn [fold_left].
    destruct (Hhold b (or_introl eq_refl)) as [Ht Hm].
    rewrite (thread_layer_hit _ _ _ _ _ _ _ _ _ _ Ht Hm).
    rewrite IH by (intros b' Hin; apply Hhold; now right).
    rewrite fmap_cons. now rewrite <- app_assoc.
Qed.

Lemma caches_from_empty (tex : list Textures.Tile) (bins : list Z) (w h : nat) :
  caches_from tex bins w h [] [].
Proof. split; intros b x; discriminate. Qed.

Lemma caches_hold_nil (tex : list Textures.Tile) (bins : list Z) (w h : nat)
    (tiles : Composite.TileCache) (masks : Composite.MaskCache) :
  caches_hold tex bins w h [] tiles masks.
Proof. intros b []. Qed.

Lemma run_layers_reuse (tex1 tex2 : list Textures.Tile) (bins1 bins2 : list Z)
    (w h : nat) (bs : list nat) :
  let r1 := run_layers tex1 bins1 w h bs ([], [], []) in
  run_layers tex2 bins2 w h bs (fst (fst r1), snd (fst r1), []) = r1 /\
  snd r1 = (fresh_layer tex1 bins1 w h <$> bs).
Proof.
  destruct (run_layers_from tex1 bins1 w h bs [] [] [] []
              (caches_from_empty _ _ _ _) (caches_hold_nil _ _ _ _ _ _))
    as (tiles1 & masks1 & E1 & _ & Hhold).
  cbv zeta.
  match goal with
  | |- context [run_layers tex1 bins1 w h bs ?st] =>
      set (r1 := run_layers tex1 bins1 w h bs st)
  end.
  assert (Er : r1 = (tiles1, masks1, fresh_layer tex1 bins1 w h <$> bs)) by exact E1.
  clearbody r1. subst r1. cbn [fst snd]. split; [|reflexivity].
  apply (run_layers_hits tex1 tex2 bins1 bins2).
  intros b Hin. apply Hhold. rewrite in_app_iff. now left.
Qed.

(** X9: the sheet and mask caches are keyed by bin and image size only: a
    second image of the same size is composited with the thread sheets and
    the orientation masks of the first image, whatever its own textures
    and orientation bins are (for as long as the entries stay cached). *)
Theorem thread_layers_reuse_first_image (tex1 tex2 : list Textures.Tile)
    (bins1 bins2 : list Z) (w h : nat) :
  length tex1 = length tex2 ->
  let fast1 := Composite.thread_layers_fast tex1 bins1 w h [] [] in
  let full1 := Composite.thread_layers_full tex1 bins1 w h [] [] in
  Composite.thread_layers_fast tex2 bins2 w h (fst (fst fast1)) (snd (fst fast1)) = fast1 /\
  Composite.thread_layers_full tex2 bins2 w h (fst (fst full1)) (snd (fst full1)) = full1 /\
  (forall l, In l (snd fast1) \/ In l (snd full1) ->
     Composite.layer_sheet l = Composite.Tiled (tex1 !! Composite.layer_bin l) w h /\
     Composite.layer_mask l
     = Orientation.createOrientationMask bins1 (Composite.layer_bin l) w h).
Proof.
  intros Hlen. cbv zeta.
  rewrite !thread_layers_fast_run, !thread_layers_full_run, <- Hlen.
  destruct (run_layers_reuse tex1 tex2 bins1 bins2 w h (fast_bins (length tex1)))
    as [Efast Ofast].
  destruct (run_layers_reuse tex1 tex2 bins1 bins2 w h (seq 0 (length tex1)))
    as [Efull Ofull].
  cbv zeta in *. split; [exact Efast|]. split; [exact Efull|].
  intros l Hin.
  assert (Hl : In l (fresh_layer tex1 bins1 w h <$> fast_bins (length tex1)) \/
               In l (fresh_layer tex1 bins1 w h <$> seq 0 (length tex1))).
  { destruct Hin as [Hin|Hin]; [left; rewrite <- Ofast|right; rewrite <- Ofull]; exact Hin. }
  destruct Hl as [Hl|Hl];
    apply list_elem_of_In, list_elem_of_fmap in Hl; destruct Hl as (b & -> & _);
    now split.
Qed.

Lemma thread_layers_reuse_first_image_witness :
  let tex1 := [Textures.ClearCanvas 1; Textures.ClearCanvas 2] in
  let tex2 := [Textures.ClearCanvas 3; Textures.ClearCanvas 4] in
  let fast1 := Composite.thread_layers_fast tex1 [0; 1] 2 1 [] [] in
  let full1 := Composite.thread_layers_full tex1 [0; 1] 2 1 [] [] in
  Composite.thread_layers_fast tex2 [1; 0] 2 1 (fst (fst fast1)) (snd (fst fast1)) = fast1 /\
  Composite.thread_layers_full tex2 [1; 0] 2 1 (fst (fst full1)) (snd (fst full1)) = full1 /\
  (forall l, In l (snd fast1) \/ In l (snd full1) ->
     Composite.layer_sheet l = Composite.Tiled (tex1 !! Composite.layer_bin l) 2 1 /\
     Composite.layer_mask l
     = Orientation.createOrientationMask [0; 1] (Composite.layer_bin l) 2 1).
Proof.
  apply (thread_layers_reuse_first_image
           [Textures.ClearCanvas 1; Textures.ClearCanvas 2]
           [Textures.ClearCanvas 3; Textures.ClearCanvas 4] [0; 1] [1; 0] 2 1).
  reflexivity.
Defined.

Example second_image_gets_first_masks :
  let first := Composite.thread_layers_full [Textures.ClearCanvas 1] [0; 0] 2 1 [] [] in
  Composite.layer_mask <$>
    snd (Composite.thread_layers_full [Textures.ClearCanvas 1] [7; 7] 2 1
           (fst (fst first)) (snd (fst first)))
  = [[255; 255]].
Proof. reflexivity. Qed.

(** X10: with the six thread textures the reduced loop builds layers for
    the bins 0, 2 and 4 only, the full loop one for every bin; a pixel is
    seen through the layer of its own bin alone, so in the reduced loop a
    pixel of bin 1, 3 or 5 gets no thread layer. *)
Theorem thread_layers_coverage (tex : list Textures.Tile) (bins : list Z)
    (w h i b0 : nat) :
  length tex = 6%nat -> (i < w * h)%nat -> bins !! i = Some (Z.of_nat b0) ->
  let fast := snd (Composite.thread_layers_fast tex bins w h [] []) in
  let full := snd (Composite.thread_layers_full tex bins w h [] []) in
  Composite.layer_bin <$> fast = [0; 2; 4]%nat /\
  Composite.layer_bin <$> full = [0; 1; 2; 3; 4; 5]%nat /\
  (forall l, In l fast \/ In l full ->
     Composite.layer_mask l !! i
     = Some (if (Composite.layer_bin l =? b0)%nat then 255 else 0)) /\
  (Nat.odd b0 = true -> forall l, In l fast -> Composite.layer_mask l !! i = Some 0).
Proof.
  intros Hlen Hi Hb. cbv zeta.
  rewrite thread_layers_fast_run, thread_layers_full_run, Hlen.
  destruct (run_layers_reuse tex tex bins bins w h (fast_bins 6)) as [_ Ofast].
  destruct (run_layers_reuse tex tex bins bins w h (seq 0 6)) as [_ Ofull].
  cbv zeta in *.
  match goal with
  | |- context [snd (run_layers tex bins w h (fast_bins 6) ?st)] =>
      replace (snd (run_layers tex bins w h (fast_bins 6) st))
        with (fresh_layer tex bins w h <$> [0; 2; 4]%nat) by (symmetry; exact Ofast)
  end.
  match goal with
  | |- context [snd (run_layers tex bins w h (seq 0 6) ?st)] =>
      replace (snd (run_layers tex bins w h (seq 0 6) st))
        with (fresh_layer tex bins w h <$> [0; 1; 2; 3; 4; 5]%nat)
        by (symmetry; exact Ofull)
  end.
  assert (Hpart := fun b0 Hb0 b => createOrientationMask_at bins w h i b0 b Hi Hb0).
  split; [reflexivity|]. split; [reflexivity|]. split.
  - intros l [Hin|Hin];
      apply list_elem_of_In, list_elem_of_fmap in Hin; destruct Hin as (b & -> & _);
      cbn [Composite.layer_mask Composite.layer_bin fresh_layer]; now apply Hpart.
  - intros Hodd l Hin.
    apply list_elem_of_In, list_elem_of_fmap in Hin. destruct Hin as (b & -> & Hb').
    cbn [Composite.layer_mask fresh_layer]. unfold fresh_mask.
    rewrite (Hpart b0 Hb b).
    destruct (Nat.eqb_spec b b0) as [->|Hne]; [|reflexivity].
    apply list_elem_of_In in Hb'. cbn in Hb'.
    destruct Hb' as [<-|[<-|[<-|[]]]]; discriminate Hodd.
Qed.

Lemma thread_layers_coverage_witness :
  let tex := replicate 6 (Textures.ClearCanvas 64) in
  let fast := snd (Composite.thread_layers_fast tex [3; 4] 2 1 [] []) in
  let full := snd (Composite.thread_layers_full tex [3; 4] 2 1 [] []) in
  Composite.layer_bin <$> fast = [0; 2; 4]%nat /\
  Composite.layer_bin <$> full = [0; 1; 2; 3; 4; 5]%nat /\
  (forall l, In l fast \/ In l full ->
     Composite.layer_mask l !! 0%nat
     = Some (if (Composite.layer_bin l =? 3)%nat then 255 else 0)) /\
  (Nat.odd 3 = true -> forall l, In l fast -> Composite.layer_mask l !! 0%nat = Some 0).
Proof.
  apply (thread_layers_coverage (replicate 6 (Textures.ClearCanvas 64)) [3; 4] 2 1 0 3);
    [reflexivity|lia|reflexivity].
Defined.

(** ** Loops that rewrite the set pixels of a mask *)

Lemma visit_step (rim init out : list Z) (g : nat -> Z) (k : nat) (v : Z) :
  length init = length rim ->
  (forall j, out !! j = if (j <? k)%nat && truthy (rim !! j) then Some (g j) else init !! j) ->
  v = g k ->
  forall j, (if truthy (rim !! k) then <[k := v]> out else out) !! j
            = if (j <? S k)%nat && truthy (rim !! j) then Some (g j) else init !! j.
Proof.
  intros Hlen Hout -> j.
  destruct (decide (j = k)) as [->|Hne].
  - replace (k <? S k)%nat with true by (symmetry; apply Nat.ltb_lt; lia).
    assert (Hk := Hout k). rewrite Nat.ltb_irrefl in Hk. cbn [andb] in *.
    destruct (truthy (rim !! k)) eqn:Et; [|exact Hk].
    apply list_lookup_insert_eq.
    destruct (rim !! k) as [r|] eqn:Er; [|discriminate].
    assert (Hlt : (k < length init)%nat)
      by (rewrite Hlen; apply lookup_lt_is_Some; eauto).
    apply lookup_lt_is_Some in Hlt. rewrite <- Hk in Hlt.
    now apply lookup_lt_is_Some.
  - replace (j <? S k)%nat with (j <? k)%nat.
    2:{ destruct (Nat.ltb_spec j k), (Nat.ltb_spec j (S k)); try reflexivity; lia. }
    rewrite <- Hout. destruct (truthy (rim !! k)); [|reflexivity].
    apply list_lookup_insert_ne. congruence.
Qed.

Lemma visit_init (rim : list Z) (g : nat -> Z) (j : nat) :
  replicate (length rim) 0 !! j
  = if (j <? 0)%nat && truthy (rim !! j) then Some (g j) else replicate (length rim) 0 !! j.
Proof. reflexivity. Qed.

Lemma truthy_lt (rim : list Z) (j : nat) : truthy (rim !! j) = true -> (j < length rim)%nat.
Proof.
  intros H. apply lookup_lt_is_Some. destruct (rim !! j); [eauto|discriminate].
Qed.

(** ** createSimpleStitchPattern *)

Lemma createSimpleStitchPattern_lookup (rim : list Z) (T w h j : nat) :
  Composite.createSimpleStitchPattern rim T w h !! j
  = if truthy (rim !! j)
    then Some (if negb (w =? 0)%nat && ((j mod w / Nat.max 4 (T * 2)) mod 2 =? 0)%nat
               then 255 else 0)
    else replicate (length rim) 0 !! j.
Proof.
  unfold Composite.createSimpleStitchPattern. cbv zeta.
  set (g := fun i : nat =>
    if negb (w =? 0)%nat && ((i mod w / Nat.max 4 (T * 2)) mod 2 =? 0)%nat then 255 else 0).
  assert (H : forall j, for_range (length rim)
      (fun i out => if truthy (rim !! i) then <[i := g i]> out else out)
      (replicate (length rim) 0) !! j
    = if (j <? length rim)%nat && truthy (rim !! j) then Some (g j)
      else replicate (length rim) 0 !! j).
  { apply (for_range_inv (fun k out => forall j,
      out !! j = if (j <? k)%nat && truthy (rim !! j) then Some (g j)
                 else replicate (length rim) 0 !! j)).
    - intros i. apply visit_init.
    - intros k out _ Hout. apply visit_step; [apply length_replicate|exact Hout|reflexivity]. }
  unfold g in H. rewrite H.
  destruct (truthy (rim !! j)) eqn:Et; [|now rewrite andb_false_r].
  apply truthy_lt in Et. apply Nat.ltb_lt in Et. now rewrite Et.
Qed.

(** X11: the horizontal dashes of the rim stitch pattern: a pixel is kept
    iff it is set in the rim band and its column lies in an even run of
    [max 4 (2 T)] columns; every row of the band is treated, whatever the
    [height] argument is. *)
Theorem createSimpleStitchPattern_keeps_iff (rim : list Z) (T w h x y : nat) :
  (x < w)%nat ->
  length (Composite.createSimpleStitchPattern rim T w h) = length rim /\
  (Edges.kept (Composite.createSimpleStitchPattern rim T w h) w x y = true <->
   Edges.kept rim w x y = true /\ ((x / Nat.max 4 (2 * T)) mod 2 = 0)%nat).
Proof.
  intros Hx. split.
  - unfold Composite.createSimpleStitchPattern. cbv zeta.
    apply (for_range_inv (fun _ out => length out = length rim)).
    + apply length_replicate.
    + intros k out _ Hout. destruct (truthy _); [now rewrite length_insert|exact Hout].
  - unfold Edges.kept. rewrite createSimpleStitchPattern_lookup.
    assert (Hmod : ((y * w + x) mod w = x)%nat).
    { rewrite Nat.add_comm, Nat.Div0.mod_add. now apply Nat.mod_small. }
    rewrite Hmod, (Nat.mul_comm T 2).
    replace (w =? 0)%nat with false by (symmetry; apply Nat.eqb_neq; lia).
    cbn [negb andb].
    destruct (truthy (rim !! (y * w + x)%nat)) eqn:Et.
    + rewrite truthy_flag, Nat.eqb_eq. tauto.
    + split; [|intros [? _]; discriminate].
      intros H. exfalso.
      destruct (replicate (length rim) 0 !! (y * w + x)%nat) as [v|] eqn:Ev; [|discriminate].
      apply lookup_replicate in Ev. destruct Ev as [-> _]. discriminate.
Qed.

Lemma createSimpleStitchPattern_keeps_iff_witness :
  length (Composite.createSimpleStitchPattern [255; 255; 255; 255; 255; 0] 2 6 1) = 6%nat /\
  (Edges.kept (Composite.createSimpleStitchPattern [255; 255; 255; 255; 255; 0] 2 6 1) 6 4 0
   = true <->
   Edges.kept [255; 255; 255; 255; 255; 0] 6 4 0 = true /\ ((4 / Nat.max 4 (2 * 2)) mod 2 = 0)%nat).
Proof. apply (createSimpleStitchPattern_keeps_iff [255; 255; 255; 255; 255; 0] 2 6 1 4 0). lia. Defined.

(** ** createEnhancedStitchPattern *)

Lemma createEnhancedStitchPattern_lookup (rim : list Z) (T w h j : nat) :
  Composite.createEnhancedStitchPattern rim T w h !! j
  = if (j <? h * w)%nat && truthy (rim !! j)
    then Some (if ((j mod w / Composite.enhanced_dash T
                    + j / w / Composite.enhanced_dash T) mod 2 =? 0)%nat
               then 255 else 0)
    else replicate (length rim) 0 !! j.
Proof.
  unfold Composite.createEnhancedStitchPattern. cbv zeta.
  set (d := Composite.enhanced_dash T).
  set (g := fun i : nat => if ((i mod w / d + i / w / d) mod 2 =? 0)%nat then 255 else 0).
  revert j.
  apply (raster_inv (fun k out => forall j,
    out !! j = if (j <? k)%nat && truthy (rim !! j) then Some (g j)
               else replicate (length rim) 0 !! j)).
  - intros i. apply visit_init.
  - intros y x out _ Hx Hout.
    apply visit_step; [apply length_replicate|exact Hout|].
    unfold g.
    replace ((y * w + x) mod w)%nat with x
      by (rewrite Nat.add_comm, Nat.Div0.mod_add; symmetry; now apply Nat.mod_small).
    replace ((y * w + x) / w)%nat with y
      by (apply (Nat.div_unique _ _ _ x); lia).
    reflexivity.
Qed.

(** X12: the checkerboard of the rim stitch pattern: a pixel is kept iff
    it is set in the rim band and the squares of side
    [max 2 (round (1.5 T))] it lies in have an even coordinate sum; two rim
    pixels one square apart in a row are never both kept. *)
Theorem createEnhancedStitchPattern_keeps_iff (rim : list Z) (T w h x y : nat) :
  (x < w)%nat -> (y < h)%nat ->
  let dash := Nat.max 2 ((3 * T + 1) / 2) in
  let out := Composite.createEnhancedStitchPattern rim T w h in
  (Edges.kept out w x y = true <->
   Edges.kept rim w x y = true /\ ((x / dash + y / dash) mod 2 = 0)%nat) /\
  ((x + dash < w)%nat ->
   Edges.kept rim w x y = true -> Edges.kept rim w (x + dash) y = true ->
   Edges.kept out w x y = negb (Edges.kept out w (x + dash) y)).
Proof.
  intros Hx Hy dash out.
  assert (Hkept : forall x', (x' < w)%nat ->
    Edges.kept out w x' y
    = Edges.kept rim w x' y && ((x' / dash + y / dash) mod 2 =? 0)%nat).
  { intros x' Hx'. unfold Edges.kept, out. rewrite createEnhancedStitchPattern_lookup.
    replace ((y * w + x') mod w)%nat with x'
      by (rewrite Nat.add_comm, Nat.Div0.mod_add; symmetry; now apply Nat.mod_small).
    replace ((y * w + x') / w)%nat with y
      by (apply (Nat.div_unique _ _ _ x'); lia).
    replace (y * w + x' <? h * w)%nat with true by (symmetry; apply Nat.ltb_lt; nia).
    cbn [andb]. fold dash.
    destruct (truthy (rim !! (y * w + x')%nat)) eqn:Et.
    - now rewrite truthy_flag.
    - destruct (replicate (length rim) 0 !! (y * w + x')%nat) as [v|] eqn:Ev; [|reflexivity].
      apply lookup_replicate in Ev. now destruct Ev as [-> _]. }
  split.
  - rewrite (Hkept x Hx), andb_true_iff, Nat.eqb_eq. tauto.
  - intros Hxd Hr Hr'. rewrite (Hkept x Hx), (Hkept (x + dash)%nat Hxd), Hr, Hr'.
    cbn [andb].
    assert (Hd : (0 < dash)%nat) by (unfold dash; lia).
    replace ((x + dash) / dash)%nat with (S (x / dash)).
    2:{ replace (x + dash)%nat with (x + 1 * dash)%nat by lia.
        rewrite Nat.div_add by lia. lia. }
    set (a := (x / dash + y / dash)%nat).
    replace (S (x / dash) + y / dash)%nat with (S a) by (unfold a; lia).
    assert (Ha := Nat.mod_upper_bound a 2 ltac:(lia)).
    assert (Hs : (S a mod 2 = (a mod 2 + 1) mod 2)%nat).
    { replace (S a) with (a + 1)%nat by lia.
      rewrite Nat.Div0.add_mod. now rewrite (Nat.mod_small 1 2) by lia. }
    rewrite Hs.
    destruct (a mod 2)%nat as [|[|n]]; [reflexivity|reflexivity|lia].
Qed.

Lemma createEnhancedStitchPattern_keeps_iff_witness :
  let dash := Nat.max 2 ((3 * 1 + 1) / 2) in
  let out := Composite.createEnhancedStitchPattern [255; 255; 255; 255; 0; 255; 255; 255] 1 4 2 in
  (Edges.kept out 4 1 0 = true <->
   Edges.kept [255; 255; 255; 255; 0; 255; 255; 255] 4 1 0 = true /\
   ((1 / dash + 0 / dash) mod 2 = 0)%nat) /\
  ((1 + dash < 4)%nat ->
   Edges.kept [255; 255; 255; 255; 0; 255; 255; 255] 4 1 0 = true ->
   Edges.kept [255; 255; 255; 255; 0; 255; 255; 255] 4 (1 + dash) 0 = true ->
   Edges.kept out 4 1 0 = negb (Edges.kept out 4 (1 + dash) 0)).
Proof.
  apply (createEnhancedStitchPattern_keeps_iff
           [255; 255; 255; 255; 0; 255; 255; 255] 1 4 2 1 0); lia.
Defined.

Example createEnhancedStitchPattern_4x4 :
  Composite.createEnhancedStitchPattern (replicate 16 255) 1 4 4
  = [255; 255; 0; 0; 255; 255; 0; 0; 0; 0; 255; 255; 0; 0; 255; 255].
Proof. reflexivity. Qed.

(** ** The rim band of detectEdges *)

(** X13: where the averaged alpha is 0 the pixel is never in the rim band,
    and where it is 255 (the inside of an opaque shape) the pixel is in the
    rim band exactly for the thread thicknesses 8 to 24; with a thickness
    of 8 or more the upper threshold excludes no byte at all. *)
Theorem rimBand_solid_regions (blurred : list Z) (T i : nat) :
  length (Edges.rimBand blurred T) = length blurred /\
  (blurred !! i = Some 0 -> Edges.rimBand blurred T !! i = Some 0) /\
  (blurred !! i = Some 255 ->
   Edges.rimBand blurred T !! i = Some (if (8 <=? T)%nat && (T <=? 24)%nat then 255 else 0)) /\
  (forall v, (8 <= T)%nat -> 0 <= v < 256 -> blurred !! i = Some v ->
     Edges.rimBand blurred T !! i
     = Some (if Z.of_nat ((2 * T + 1) * (2 * T + 1)) <? 10 * v then 255 else 0)).
Proof.
  unfold Edges.rimBand. split; [apply length_fmap|].
  split; [|split].
  - intros Hb. rewrite list_lookup_fmap, Hb. cbn [fmap option_fmap option_map].
    unfold Edges.rim_px. cbv zeta.
    destruct (Z.ltb_spec (Z.of_nat (Edges.kernel_size T * Edges.kernel_size T)) (10 * 0));
      [lia|reflexivity].
  - intros Hb. rewrite list_lookup_fmap, Hb. cbn [fmap option_fmap option_map].
    unfold Edges.rim_px, Edges.kernel_size. cbv zeta. f_equal.
    set (s := Nat.max 3 (T * 2 + 1)).
    destruct (Nat.leb_spec 8 T) as [H8|H8]; cbn [andb].
    + destruct (Nat.leb_spec T 24) as [H24|H24].
      * assert (17 <= s <= 49)%nat by (unfold s; lia).
        destruct (Z.ltb_spec (Z.of_nat (s * s)) (10 * 255)); [|nia].
        destruct (Z.ltb_spec (10 * 255) (9 * Z.of_nat (s * s))); [reflexivity|nia].
      * assert (51 <= s)%nat by (unfold s; lia).
        destruct (Z.ltb_spec (Z.of_nat (s * s)) (10 * 255)); [nia|reflexivity].
    + assert (3 <= s <= 15)%nat by (unfold s; lia).
      destruct (Z.ltb_spec (Z.of_nat (s * s)) (10 * 255)); [|nia].
      destruct (Z.ltb_spec (10 * 255) (9 * Z.of_nat (s * s))); [nia|reflexivity].
  - intros v H8 Hv Hb. rewrite list_lookup_fmap, Hb. cbn [fmap option_fmap option_map].
    unfold Edges.rim_px, Edges.kernel_size. cbv zeta. f_equal.
    replace (Nat.max 3 (T * 2 + 1)) with (2 * T + 1)%nat by lia.
    set (s := (2 * T + 1)%nat). assert (17 <= s)%nat by (unfold s; lia).
    destruct (Z.ltb_spec (Z.of_nat (s * s)) (10 * v)); [|reflexivity].
    destruct (Z.ltb_spec (10 * v) (9 * Z.of_nat (s * s))); [reflexivity|nia].
Qed.

Example rimBand_thickness_8 :
  Edges.rimBand [0; 28; 29; 128; 255] 8 = [0; 0; 255; 255; 255] /\
  Edges.rimBand [0; 28; 29; 128; 255] 3 = [0; 255; 255; 0; 0].
Proof. split; reflexivity. Qed.

(** ** The sizes of the analysis images *)



(** ** applyPaletteToImage: nearest colors *)

Lemma distance_nonneg (r g b : Z) (c : Quantize.Color) : 0 <= Quantize.distance r g b c.
Proof.
  unfold Quantize.distance. cbv zeta.
  assert (H1 := Z.square_nonneg (r - Quantize.red c)).
  assert (H2 := Z.square_nonneg (g - Quantize.green c)).
  assert (H3 := Z.square_nonneg (b - Quantize.blue c)). lia.
Qed.

Lemma closest_spec (r g b : Z) (rest pre : list Quantize.Color) (cur : Quantize.Color)
    (md : option Z) :
  (md = None /\ pre = []) \/
  (md = Some (Quantize.distance r g b cur) /\ exists i, nearest_at pre r g b i cur) ->
  pre ++ rest <> [] ->
  exists i, nearest_at (pre ++ rest) r g b i (Quantize.closest r g b rest cur md).
Proof.
  revert pre cur md.
  induction rest as [|c rest IH]; intros pre cur md Hst Hne; cbn [Quantize.closest].
  - rewrite app_nil_r in *. destruct Hst as [[_ ->]|[_ H]]; [congruence|exact H].
  - replace (pre ++ c :: rest) with ((pre ++ [c]) ++ rest) by (now rewrite <- app_assoc).
    assert (Hne' : (pre ++ [c]) ++ rest <> []) by (now destruct pre).
    destruct Hst as [[-> ->]|[-> (i & Hi & Hle & Hlt)]].
    + apply IH; [|exact Hne']. right. split; [reflexivity|].
      exists 0%nat. split; [reflexivity|]. split.
      * intros [|j] c' Hj; [|discriminate]. injection Hj as <-. lia.
      * intros j c' Hj. lia.
    + destruct (Z.ltb_spec (Quantize.distance r g b c) (Quantize.distance r g b cur))
        as [Hless|Hge].
      * apply IH; [|exact Hne']. right. split; [reflexivity|].
        exists (length pre). split; [|split].
        -- rewrite lookup_app_r by lia. now rewrite Nat.sub_diag.
        -- intros j c' Hj. apply lookup_app_Some in Hj.
           destruct Hj as [Hj|[_ Hj]].
           ++ specialize (Hle j c' Hj). lia.
           ++ destruct (j - length pre)%nat; [|discriminate]. injection Hj as <-. lia.
        -- intros j c' Hjl Hj. rewrite lookup_app_l in Hj by exact Hjl.
           specialize (Hle j c' Hj). lia.
      * apply IH; [|exact Hne']. right. split; [reflexivity|].
        assert (Hil : (i < length pre)%nat) by (apply lookup_lt_is_Some; eauto).
        exists i. split; [|split].
        -- rewrite lookup_app_l by exact Hil. exact Hi.
        -- intros j c' Hj. apply lookup_app_Some in Hj.
           destruct Hj as [Hj|[_ Hj]]; [now apply (Hle j)|].
           destruct (j - length pre)%nat; [|discriminate]. injection Hj as <-. lia.
        -- intros j c' Hjl Hj. rewrite lookup_app_l in Hj by lia. now apply (Hlt j).
Qed.

Lemma closest_nearest (r g b : Z) (palette : list Quantize.Color) (first : Quantize.Color) :
  palette <> [] ->
  exists i, nearest_at palette r g b i (Quantize.closest r g b palette first None).
Proof.
  intros Hne. apply (closest_spec r g b palette [] first None); [now left|exact Hne].
Qed.

Lemma remap_pixel_closest (palette : list Quantize.Color) (first : Quantize.Color)
    (data : list Z) (j : nat) (r g b a : Z) :
  pixel_at data j = Some (r, g, b, a) ->
  let c := Quantize.closest r g b palette first None in
  pixel_at (Quantize.remap palette first data) j
  = Some (toUint8 (Quantize.red c), toUint8 (Quantize.green c),
          toUint8 (Quantize.blue c), a).
Proof.
  revert data. induction j as [|j IH]; intros data Hp;
    assert (Hlen := pixel_at_length _ _ _ Hp);
    destruct data as [|x0 [|x1 [|x2 [|x3 rest]]]]; cbn [length] in Hlen; try lia.
  - injection Hp as -> -> -> ->. reflexivity.
  - rewrite pixel_at_cons4 in Hp. cbn [Quantize.remap]. cbv zeta.
    rewrite pixel_at_cons4. now apply IH.
Qed.

(** X15: every pixel of the remapped image carries (modulo 256) the
    channels of the palette entry nearest to the input pixel in squared RGB
    distance, the first such entry of the palette when several are equally
    near, and keeps the alpha of the input pixel. *)
Theorem applyPaletteToImage_nearest (data out : list Z) (palette : list Quantize.Color)
    (j : nat) (r g b a : Z) :
  Quantize.applyPaletteToImage data palette = Some out ->
  pixel_at data j = Some (r, g, b, a) ->
  exists i c, nearest_at palette r g b i c /\
    pixel_at out j = Some (toUint8 (Quantize.red c), toUint8 (Quantize.green c),
                           toUint8 (Quantize.blue c), a).
Proof.
  intros Happ Hp. unfold Quantize.applyPaletteToImage in Happ.
  destruct palette as [|first rest].
  - destruct data; [|discriminate Happ].
    apply pixel_at_length in Hp. cbn in Hp. lia.
  - injection Happ as <-.
    destruct (closest_nearest r g b (first :: rest) first ltac:(discriminate)) as [i Hi].
    exists i, (Quantize.closest r g b (first :: rest) first None).
    split; [exact Hi|]. now apply remap_pixel_closest.
Qed.

Lemma applyPaletteToImage_nearest_witness :
  exists i c,
    nearest_at [Quantize.mkColor 0 0 0 255; Quantize.mkColor 208 16 16 255;
                Quantize.mkColor 16 208 16 255] 120 100 16 i c /\
    pixel_at [208; 16; 16; 7] 0
    = Some (toUint8 (Quantize.red c), toUint8 (Quantize.green c),
            toUint8 (Quantize.blue c), 7).
Proof.
  apply (applyPaletteToImage_nearest [120; 100; 16; 7] [208; 16; 16; 7]
           [Quantize.mkColor 0 0 0 255; Quantize.mkColor 208 16 16 255;
            Quantize.mkColor 16 208 16 255] 0 120 100 16 7); reflexivity.
Defined.

(** ** applyPaletteToImage: length, alpha and a second pass *)

Lemma list_ind4 {A : Type} (P : list A -> Prop) :
  P [] -> (forall a, P [a]) -> (forall a b, P [a; b]) -> (forall a b c, P [a; b; c]) ->
  (forall a b c d rest, P rest -> P (a :: b :: c :: d :: rest)) ->
  forall l, P l.
Proof.
  intros H0 H1 H2 H3 H4 l.
  assert (H : forall n l, (length l <= n)%nat -> P l).
  { induction n as [|n IH]; intros l' Hl.
    - destruct l'; [exact H0|cbn in Hl; lia].
    - destruct l' as [|a [|b [|c [|d rest]]]]; auto.
      apply H4, IH. cbn in Hl. lia. }
  now apply (H (length l)).
Qed.

Lemma remap_length (palette : list Quantize.Color) (first : Quantize.Color) (data : list Z) :
  length (Quantize.remap palette first data) = length data.
Proof.
  induction data as [| | | |x0 x1 x2 x3 rest IH] using list_ind4; try reflexivity.
  cbn [Quantize.remap length]. cbv zeta. cbn [length]. now rewrite IH.
Qed.

Lemma remap_alpha (palette : list Quantize.Color) (first : Quantize.Color) (data : list Z)
    (p : nat) :
  Quantize.remap palette first data !! (4 * p + 3)%nat = data !! (4 * p + 3)%nat.
Proof.
  revert p. induction data as [| | | |x0 x1 x2 x3 rest IH] using list_ind4; intros p.
  - reflexivity.
  - cbn [Quantize.remap]. rewrite !(proj2 (lookup_ge_None _ _)); [reflexivity|cbn; lia..].
  - cbn [Quantize.remap]. rewrite !(proj2 (lookup_ge_None _ _)); [reflexivity|cbn; lia..].
  - cbn [Quantize.remap]. cbv zeta.
    rewrite !(proj2 (lookup_ge_None _ _)); [reflexivity|cbn; lia..].
  - cbn [Quantize.remap]. cbv zeta. destruct p as [|p]; [reflexivity|].
    replace (4 * S p + 3)%nat with (S (S (S (S (4 * p + 3))))) by lia.
    cbn [lookup list_lookup]. apply IH.
Qed.

Lemma applyPaletteToImage_alpha_bytes (data out : list Z) (palette : list Quantize.Color) :
  Quantize.applyPaletteToImage data palette = Some out ->
  length out = length data /\
  forall p, out !! (4 * p + 3)%nat = data !! (4 * p + 3)%nat.
Proof.
  intros Happ. unfold Quantize.applyPaletteToImage in Happ.
  destruct palette as [|first rest].
  - destruct data; [|discriminate Happ]. injection Happ as <-. now split.
  - injection Happ as <-. split; [apply remap_length|apply remap_alpha].
Qed.

Lemma extractAlpha_ext (a b : list Z) (w h : nat) :
  length a = length b ->
  (forall p, a !! (4 * p + 3)%nat = b !! (4 * p + 3)%nat) ->
  Utils.extractAlpha a w h 4 = Utils.extractAlpha b w h 4.
Proof.
  intros Hlen Halpha. unfold Utils.extractAlpha. cbn [Nat.ltb Nat.leb].
  apply list_fmap_ext. intros _ p _. now rewrite Hlen, Halpha.
Qed.

(** X16: the remapping keeps the size of the buffer and the alpha channel:
    the alpha mask later read from the quantized image is that of the input
    image. *)
Theorem applyPaletteToImage_keeps_alpha (data out : list Z)
    (palette : list Quantize.Color) (w h : nat) :
  Quantize.applyPaletteToImage data palette = Some out ->
  length out = length data /\
  Utils.extractAlpha out w h 4 = Utils.extractAlpha data w h 4.
Proof.
  intros Happ.
  destruct (applyPaletteToImage_alpha_bytes data out palette Happ) as [Hlen Halpha].
  split; [exact Hlen|].
  apply extractAlpha_ext; [exact Hlen|exact Halpha].
Qed.

Lemma applyPaletteToImage_keeps_alpha_witness :
  length [16; 16; 16; 7; 16; 16; 16; 0] = length [20; 9; 12; 7; 1; 2; 3; 0] /\
  Utils.extractAlpha [16; 16; 16; 7; 16; 16; 16; 0] 2 1 4
  = Utils.extractAlpha [20; 9; 12; 7; 1; 2; 3; 0] 2 1 4.
Proof.
  apply (applyPaletteToImage_keeps_alpha [20; 9; 12; 7; 1; 2; 3; 0]
           [16; 16; 16; 7; 16; 16; 16; 0] [Quantize.mkColor 16 16 16 255] 2 1).
  reflexivity.
Defined.

Lemma closest_of_entry (palette : list Quantize.Color) (first c : Quantize.Color) :
  In c palette ->
  let c' := Quantize.closest (Quantize.red c) (Quantize.green c) (Quantize.blue c)
              palette first None in
  In c' palette /\
  Quantize.red c' = Quantize.red c /\ Quantize.green c' = Quantize.green c /\
  Quantize.blue c' = Quantize.blue c.
Proof.
  intros Hin c'.
  assert (Hne : palette <> []) by (intros ->; destruct Hin).
  destruct (closest_nearest (Quantize.red c) (Quantize.green c) (Quantize.blue c)
              palette first Hne) as (i & Hi & Hle & _).
  fold c' in Hi, Hle.
  split; [apply list_elem_of_In, list_elem_of_lookup; eauto|].
  apply list_elem_of_In, list_elem_of_lookup in Hin. destruct Hin as [j Hj].
  specialize (Hle j c Hj). unfold Quantize.distance in Hle. cbv zeta in Hle.
  replace (Quantize.red c - Quantize.red c) with 0 in Hle by lia.
  replace (Quantize.green c - Quantize.green c) with 0 in Hle by lia.
  replace (Quantize.blue c - Quantize.blue c) with 0 in Hle by lia.
  set (dr := Quantize.red c - Quantize.red c') in *.
  set (dg := Quantize.green c - Quantize.green c') in *.
  set (db := Quantize.blue c - Quantize.blue c') in *.
  assert (H1 := Z.square_nonneg dr). assert (H2 := Z.square_nonneg dg).
  assert (H3 := Z.square_nonneg db).
  assert (E1 : dr * dr = 0) by lia. assert (E2 : dg * dg = 0) by lia.
  assert (E3 : db * db = 0) by lia.
  apply Z.eq_mul_0 in E1, E2, E3. unfold dr, dg, db in *. lia.
Qed.

Lemma remap_idempotent (palette : list Quantize.Color) (first : Quantize.Color)
    (data : list Z) :
  In first palette ->
  Forall (fun c => is_byte (Quantize.red c) /\ is_byte (Quantize.green c) /\
                   is_byte (Quantize.blue c)) palette ->
  Quantize.remap palette first (Quantize.remap palette first data)
  = Quantize.remap palette first data.
Proof.
  intros Hfirst Hbytes.
  assert (Hfix : forall r g b,
    let c := Quantize.closest r g b palette first None in
    let c' := Quantize.closest (toUint8 (Quantize.red c)) (toUint8 (Quantize.green c))
                (toUint8 (Quantize.blue c)) palette first None in
    toUint8 (Quantize.red c') = toUint8 (Quantize.red c) /\
    toUint8 (Quantize.green c') = toUint8 (Quantize.green c) /\
    toUint8 (Quantize.blue c') = toUint8 (Quantize.blue c)).
  { intros r g b c.
    assert (Hc : In c palette).
    { destruct (closest_in r g b palette first None) as [E|E]; [|exact E].
      fold c in E. now rewrite <- E. }
    rewrite Forall_forall in Hbytes.
    destruct (Hbytes c (proj2 (list_elem_of_In _ _) Hc)) as (Hr & Hg & Hb).
    unfold is_byte in *. cbv zeta.
    assert (Er : toUint8 (Quantize.red c) = Quantize.red c)
      by (apply Z.mod_small; lia).
    assert (Eg : toUint8 (Quantize.green c) = Quantize.green c)
      by (apply Z.mod_small; lia).
    assert (Eb : toUint8 (Quantize.blue c) = Quantize.blue c)
      by (apply Z.mod_small; lia).
    rewrite Er, Eg, Eb.
    destruct (closest_of_entry palette first c Hc) as (_ & -> & -> & ->).
    now rewrite Er, Eg, Eb. }
  induction data as [| | | |x0 x1 x2 x3 rest IH] using list_ind4; try reflexivity.
  - cbn [Quantize.remap]. cbv zeta.
    destruct (Hfix a b c) as (-> & -> & ->). reflexivity.
  - cbn [Quantize.remap]. cbv zeta.
    destruct (Hfix x0 x1 x2) as (-> & -> & ->). now rewrite IH.
Qed.

(** X17: quantizing is idempotent for a palette of byte colors: applying
    the palette to an image that was already remapped to it changes
    nothing. *)
Theorem applyPaletteToImage_idempotent (data out : list Z)
    (palette : list Quantize.Color) :
  Forall (fun c => is_byte (Quantize.red c) /\ is_byte (Quantize.green c) /\
                   is_byte (Quantize.blue c)) palette ->
  Quantize.applyPaletteToImage data palette = Some out ->
  Quantize.applyPaletteToImage out palette = Some out.
Proof.
  intros Hbytes Happ. unfold Quantize.applyPaletteToImage in *.
  destruct palette as [|first rest].
  - destruct data; [|discriminate Happ]. now injection Happ as <-.
  - injection Happ as <-. f_equal. apply remap_idempotent; [now left|exact Hbytes].
Qed.

Lemma applyPaletteToImage_idempotent_witness :
  Quantize.applyPaletteToImage [208; 16; 16; 7; 0; 0; 0; 9]
    [Quantize.mkColor 0 0 0 255; Quantize.mkColor 208 16 16 255]
  = Some [208; 16; 16; 7; 0; 0; 0; 9].
Proof.
  apply (applyPaletteToImage_idempotent [120; 100; 16; 7; 3; 2; 1; 9]).
  - repeat constructor; cbn; lia.
  - reflexivity.
Defined.

(** With a channel of 256 in the palette a second pass can change the image:
    white goes to (0, 0, 0) in the first pass and to (16, 16, 16) in the
    second. *)
Example applyPaletteToImage_second_pass_differs :
  let palette := [Quantize.mkColor 256 256 256 255; Quantize.mkColor 16 16 16 255] in
  Quantize.applyPaletteToImage [255; 255; 255; 255] palette = Some [0; 0; 0; 255] /\
  Quantize.applyPaletteToImage [0; 0; 0; 255] palette = Some [16; 16; 16; 255].
Proof. split; reflexivity. Qed.

(** ** extractPaletteFast: the entries *)

Lemma extractPaletteFast_sampled (rgba : list Z) (k : nat) (c : Quantize.Color) :
  In c (Quantize.extractPaletteFast rgba k) -> In c (Quantize.samples rgba).
Proof.
  intros Hin. apply list_elem_of_In. apply (firsts_elem (Quantize.samples rgba) c).
  rewrite <- colorFreq_keys.
  assert (Hp : Permutation (fst <$> Quantize.colorFreq rgba)
                 (fst <$> Quantize.sort_by_count (Quantize.colorFreq rgba)))
    by (apply fmap_Permutation, sort_by_count_perm).
  change (c ∈ fst <$> Quantize.colorFreq rgba). rewrite Hp.
  apply list_elem_of_In in Hin. unfold Quantize.extractPaletteFast in Hin.
  rewrite fmap_take in Hin.
  eapply elem_of_sublist; [exact Hin|apply sublist_take].
Qed.

Lemma round16_byte (v : Z) :
  0 <= v < 256 -> (16 | Quantize.round16 v) /\ 0 <= Quantize.round16 v <= 256.
Proof.
  intros Hv. unfold Quantize.round16. split.
  - exists ((v + 8) / 16). lia.
  - assert (0 <= (v + 8) / 16) by (apply Z.div_pos; lia).
    assert ((v + 8) / 16 < 17) by (apply Z.div_lt_upper_bound; lia). lia.
Qed.

Lemma or_else_byte (rgba : list Z) (i : nat) (d : Z) :
  Forall is_byte rgba -> 0 < d < 256 ->
  0 <= Quantize.or_else (rgba !! i) d < 256 /\
  (Quantize.or_else (rgba !! i) d = 0 -> False).
Proof.
  intros Hb Hd. unfold Quantize.or_else.
  destruct (rgba !! i) as [v|] eqn:Ev; [|lia].
  rewrite Forall_lookup in Hb. specialize (Hb i v Ev). unfold is_byte in Hb.
  destruct (Z.eqb_spec v 0); lia.
Qed.

Lemma or_else_byte0 (rgba : list Z) (i : nat) :
  Forall is_byte rgba -> 0 <= Quantize.or_else (rgba !! i) 0 < 256.
Proof.
  intros Hb. unfold Quantize.or_else.
  destruct (rgba !! i) as [v|] eqn:Ev; [|lia].
  rewrite Forall_lookup in Hb. specialize (Hb i v Ev). unfold is_byte in Hb.
  destruct (Z.eqb_spec v 0); lia.
Qed.

(** X18: a palette entry has channels that are multiples of 16 between 0
    and 256 (a channel of 248 or more rounds up to 256, which is no byte) and
    an alpha between 1 and 255: a transparent sample enters the palette as an
    opaque color. *)
Theorem extractPaletteFast_entries (rgba : list Z) (maxColors : nat) (c : Quantize.Color) :
  Forall is_byte rgba ->
  In c (Quantize.extractPaletteFast rgba maxColors) ->
  ((16 | Quantize.red c) /\ 0 <= Quantize.red c <= 256) /\
  ((16 | Quantize.green c) /\ 0 <= Quantize.green c <= 256) /\
  ((16 | Quantize.blue c) /\ 0 <= Quantize.blue c <= 256) /\
  1 <= Quantize.alpha c <= 255.
Proof.
  intros Hb Hin. apply extractPaletteFast_sampled in Hin.
  apply list_elem_of_In in Hin. unfold Quantize.samples in Hin.
  apply list_elem_of_fmap in Hin. destruct Hin as (j & -> & _).
  unfold Quantize.sample. cbv zeta.
  cbn [Quantize.red Quantize.green Quantize.blue Quantize.alpha].
  split; [apply round16_byte, or_else_byte0, Hb|].
  split; [apply round16_byte, or_else_byte0, Hb|].
  split; [apply round16_byte, or_else_byte0, Hb|].
  destruct (or_else_byte rgba (16 * j + 3) 255 Hb ltac:(lia)) as [H1 H2]. lia.
Qed.

Lemma extractPaletteFast_entries_witness :
  let c := Quantize.mkColor 256 0 128 255 in
  ((16 | Quantize.red c) /\ 0 <= Quantize.red c <= 256) /\
  ((16 | Quantize.green c) /\ 0 <= Quantize.green c <= 256) /\
  ((16 | Quantize.blue c) /\ 0 <= Quantize.blue c <= 256) /\
  1 <= Quantize.alpha c <= 255.
Proof.
  apply (extractPaletteFast_entries [250; 3; 121; 0] 4 (Quantize.mkColor 256 0 128 255)).
  - repeat constructor; unfold is_byte; lia.
  - now left.
Defined.

(** ** quantizeColors: failure and result *)

Lemma firsts_nil_iff {A : Type} `{EqDecision A} (l : list A) : firsts l = [] <-> l = [].
Proof.
  split; [|now intros ->].
  destruct l as [|x l]; [reflexivity|]. intros E.
  assert (H : x ∈ firsts (x :: l)) by (apply firsts_elem; left).
  rewrite E in H. now apply elem_of_nil in H.
Qed.

Lemma samples_nil_iff (rgba : list Z) : Quantize.samples rgba = [] <-> rgba = [].
Proof.
  unfold Quantize.samples. split; [|now intros ->].
  intros E. apply fmap_nil_inv in E.
  destruct rgba as [|x rgba]; [reflexivity|]. exfalso.
  assert (H : (1 <= (length (x :: rgba) + 15) / 16)%nat)
    by (apply Nat.div_le_lower_bound; cbn [length]; lia).
  destruct ((length (x :: rgba) + 15) / 16)%nat; [lia|discriminate E].
Qed.

Lemma extractPaletteFast_nil_iff (rgba : list Z) (k : nat) :
  Quantize.extractPaletteFast rgba k = [] <-> k = 0%nat \/ rgba = [].
Proof.
  rewrite <- length_zero_iff_nil, extractPaletteFast_length.
  rewrite <- samples_nil_iff, <- (firsts_nil_iff (Quantize.samples rgba)).
  rewrite <- (length_zero_iff_nil (firsts _)). lia.
Qed.

Lemma applyPaletteToImage_none_iff (data : list Z) (palette : list Quantize.Color) :
  Quantize.applyPaletteToImage data palette = None <-> palette = [] /\ data <> [].
Proof.
  unfold Quantize.applyPaletteToImage.
  destruct palette as [|c palette], data as [|x data]; split;
    try discriminate; try (intros [? ?]; congruence); auto.
Qed.

Lemma quantizeColors_result
    (resize : list Z -> nat -> nat -> nat -> nat -> option (list Z))
    (data : list Z) (w h k : nat) (q : Quantize.QuantizationResult) :
  Quantize.quantizeColors resize data w h k = Some q ->
  Quantize.q_width q = w /\ Quantize.q_height q = h /\
  length (Quantize.q_data q) = length data /\
  (forall w' h', Utils.extractAlpha (Quantize.q_data q) w' h' 4
                 = Utils.extractAlpha data w' h' 4) /\
  Quantize.paletteSize q = length (Quantize.q_palette q) /\
  (Quantize.paletteSize q <= k)%nat /\
  NoDup (Quantize.q_palette q).
Proof.
  unfold Quantize.quantizeColors. cbv zeta.
  destruct (resize data w h _ _) as [d|]; [|discriminate].
  destruct (Quantize.applyPaletteToImage data _) as [out|] eqn:Eout; [|discriminate].
  intros [= <-]. cbn.
  split; [reflexivity|]. split; [reflexivity|].
  destruct (applyPaletteToImage_alpha_bytes _ _ _ Eout) as [Hlen Halpha].
  split; [exact Hlen|].
  split; [intros w' h'; now apply extractAlpha_ext|].
  split; [reflexivity|].
  split; [rewrite extractPaletteFast_length; lia|apply extractPaletteFast_NoDup].
Qed.

(** X19: [quantizeColors] throws exactly when the codec's resize fails, or
    when the palette comes out empty ([maxColors] of 0, or an empty resized
    buffer) although the image has pixels; when it returns, the image keeps
    its size and its number of bytes and the palette has no repeated color
    and at most [maxColors] colors. *)
Theorem quantizeColors_outcome
    (resize : list Z -> nat -> nat -> nat -> nat -> option (list Z))
    (data : list Z) (w h maxColors : nat) :
  let s := Quantize.scale w h in
  (Quantize.quantizeColors resize data w h maxColors = None <->
   resize data w h (w / s)%nat (h / s)%nat = None \/
   exists downscaled, resize data w h (w / s)%nat (h / s)%nat = Some downscaled /\
                      (maxColors = 0%nat \/ downscaled = []) /\ data <> []) /\
  (forall q, Quantize.quantizeColors resize data w h maxColors = Some q ->
     Quantize.q_width q = w /\ Quantize.q_height q = h /\
     length (Quantize.q_data q) = length data /\
     Quantize.paletteSize q = length (Quantize.q_palette q) /\
     (Quantize.paletteSize q <= maxColors)%nat /\
     NoDup (Quantize.q_palette q)).
Proof.
  cbv zeta. split.
  - unfold Quantize.quantizeColors. cbv zeta.
    destruct (resize data w h _ _) as [d|]; [|split; [now left|reflexivity]].
    destruct (Quantize.applyPaletteToImage data _) as [out|] eqn:Eout.
    + split; [discriminate|]. intros [H|(d' & [= <-] & Hk & Hd)]; [discriminate|].
      exfalso. apply extractPaletteFast_nil_iff in Hk.
      assert (Hn : Quantize.applyPaletteToImage data (Quantize.extractPaletteFast d maxColors)
                   = None) by (apply applyPaletteToImage_none_iff; now split).
      congruence.
    + split; [|reflexivity]. intros _. right. exists d. split; [reflexivity|].
      apply applyPaletteToImage_none_iff in Eout. destruct Eout as [Hp Hd].
      apply extractPaletteFast_nil_iff in Hp. now split.
  - intros q Hq. destruct (quantizeColors_result resize data w h maxColors q Hq)
      as (H1 & H2 & H3 & _ & H4 & H5 & H6).
    now repeat split.
Qed.

Example quantizeColors_no_colors :
  Quantize.quantizeColors Quantize.resize_top_left white_2x2 2 2 0 = None.
Proof. reflexivity. Qed.

(** ** extractPaletteFromImage *)

(** X20: the scan-order palette is the first [k] distinct pixels of the
    buffer in scan order: it has no repeated entry and at most [k] entries,
    every entry is a pixel of the buffer, and when it has fewer than [k]
    entries every pixel of the buffer is in it. *)
Theorem extractPaletteFromImage_first_distinct (rgba : list Z) (k : nat) :
  let palette := Quantize.extractPaletteFromImage rgba k in
  palette = take k (firsts (Quantize.pixels rgba)) /\
  NoDup palette /\ (length palette <= k)%nat /\
  (forall c, In c palette -> In c (Quantize.pixels rgba)) /\
  ((length palette < k)%nat -> forall c, In c (Quantize.pixels rgba) -> In c palette).
Proof.
  cbv zeta. rewrite extractPaletteFromImage_spec.
  split; [reflexivity|]. split; [|split; [|split]].
  - rewrite <- extractPaletteFromImage_spec. apply extractPaletteFromImage_NoDup.
  - rewrite length_take. lia.
  - intros c Hc. apply list_elem_of_In. apply (firsts_elem (Quantize.pixels rgba) c).
    apply list_elem_of_In in Hc.
    eapply elem_of_sublist; [exact Hc|apply sublist_take].
  - intros Hlt c Hc. rewrite length_take in Hlt.
    rewrite take_ge by lia.
    apply list_elem_of_In, firsts_elem, list_elem_of_In, Hc.
Qed.

Example extractPaletteFromImage_scan :
  Quantize.extractPaletteFromImage [1; 2; 3; 255; 9; 9; 9; 255; 1; 2; 3; 255; 7; 7; 7; 0] 2
  = [(Some 1, Some 2, Some 3, Some 255); (Some 9, Some 9, Some 9, Some 255)].
Proof. reflexivity. Qed.

(** ** computeWarnings: dense detail *)

Lemma count_on_spec (edgeMask : list Z) :
  Warnings.count_on edgeMask = length (List.filter (fun v => negb (v =? 0)%Z) edgeMask).
Proof.
  unfold Warnings.count_on.
  assert (H : for_range (length edgeMask)
                (fun i on => if truthy (edgeMask !! i) then S on else on) 0%nat
              = length (List.filter (fun v => negb (v =? 0)%Z) (take (length edgeMask) edgeMask))).
  { apply (for_range_inv (fun k on =>
      on = length (List.filter (fun v => negb (v =? 0)%Z) (take k edgeMask)))).
    - reflexivity.
    - intros k on Hk ->.
      destruct (lookup_lt_is_Some_2 edgeMask k Hk) as [v Hv].
      rewrite (take_S_r _ _ _ Hv), List.filter_app, length_app, Hv.
      cbn [truthy List.filter]. destruct (negb (v =? 0)); cbn [length]; lia. }
  now rewrite firstn_all in H.
Qed.

Lemma dense_emitted_iff (alphaMask : list Z) (w h T : nat) (em : option (list Z))
    (mc ps : option nat) :
  In Warnings.dense_detail (Warnings.computeWarnings alphaMask w h T em mc ps) <->
  exists mask, em = Some mask /\
    (3 * length mask < 25 * length (List.filter (fun v => negb (v =? 0)%Z) mask))%nat.
Proof.
  unfold Warnings.computeWarnings. cbv zeta. rewrite !in_app_iff. split.
  - intros [H|[H|H]].
    + exfalso. destruct (_ && _); [|exact H].
      destruct H as [H|[]]. now apply thin_strokes_not_dense in H.
    + destruct em as [mask|]; [|destruct H]. exists mask. split; [reflexivity|].
      rewrite <- count_on_spec.
      destruct (Nat.ltb_spec (3 * length mask) (25 * Warnings.count_on mask)) as [Hlt|Hge];
        [exact Hlt|destruct H].
    + exfalso. destruct mc as [m|], ps as [p|]; try exact H.
      destruct (_ <? _)%nat; [|exact H].
      destruct H as [H|[]]. symmetry in H. now apply dense_not_reduced in H.
  - intros (mask & -> & Hlt). right. left.
    rewrite <- count_on_spec in Hlt. apply Nat.ltb_lt in Hlt. rewrite Hlt. now left.
Qed.

(** X21: the dense-detail warning is emitted iff an edge mask is given and
    more than 12 percent of its bytes are set; without an edge mask, or with
    an empty one, it is never emitted. *)
Theorem computeWarnings_dense_detail (alphaMask : list Z) (w h T : nat)
    (em : option (list Z)) (mc ps : option nat) :
  (In Warnings.dense_detail (Warnings.computeWarnings alphaMask w h T em mc ps) <->
   exists mask, em = Some mask /\
     (3 * length mask < 25 * length (List.filter (fun v => negb (v =? 0)%Z) mask))%nat) /\
  ~ In Warnings.dense_detail (Warnings.computeWarnings alphaMask w h T None mc ps) /\
  ~ In Warnings.dense_detail (Warnings.computeWarnings alphaMask w h T (Some []) mc ps).
Proof.
  split; [apply dense_emitted_iff|]. split.
  - intros H. apply dense_emitted_iff in H. now destruct H as (mask & E & _).
  - intros H. apply dense_emitted_iff in H. destruct H as (mask & [= <-] & Hlt).
    cbn in Hlt. lia.
Qed.

Example computeWarnings_edge_density :
  Warnings.computeWarnings [0; 0] 2 1 3 (Some [255; 0; 0; 0; 0; 0; 0; 0]) None None
  = [Warnings.dense_detail] /\
  Warnings.computeWarnings [0; 0] 2 1 3 (Some [255; 0; 0; 0; 0; 0; 0; 0; 0]) None None
  = [].
Proof. split; reflexivity. Qed.

(** ** The warnings of a run *)

Lemma extractAlpha_nonneg (rgba : list Z) (w h c : nat) :
  Forall (fun v => 0 <= v) (Utils.extractAlpha rgba w h c).
Proof.
  unfold Utils.extractAlpha. destruct (c <? 4)%nat.
  - apply Forall_replicate. lia.
  - apply Forall_fmap, Forall_forall. intros p _. cbn beta. unfold compose.
    destruct (c * p <? length rgba)%nat; [|lia].
    unfold toUint8. apply Z.mod_pos_bound. lia.
Qed.

(** C3: when the sampled pixels round to more than [maxColors] distinct
    colors, quantizing yields [paletteSize = maxColors], and the warnings of
    the run do not contain "Reduced colors to {maxColors}": the palette is
    cut to [maxColors] before its length is taken, and the notice compares
    that length with [maxColors].  The palette of the scan-order extractor
    is cut in the same way. *)
Theorem palette_clamp_drops_reduced_warning
    (resize : list Z -> nat -> nat -> nat -> nat -> option (list Z))
    (edgeMap_of : list Z -> nat -> nat -> nat -> list Z)
    (data downscaled rgba : list Z) (w h maxColors T : nat) :
  resize data w h (w / Quantize.scale w h)%nat (h / Quantize.scale w h)%nat = Some downscaled ->
  (1 <= maxColors < length (firsts (Quantize.samples downscaled)))%nat ->
  (maxColors < length (firsts (Quantize.pixels rgba)))%nat ->
  (exists q ws,
     Quantize.quantizeColors resize data w h maxColors = Some q /\
     Quantize.paletteSize q = maxColors /\
     Embroidery.processEmbroidery_warnings resize edgeMap_of data w h maxColors T = Some ws /\
     ~ In (Warnings.reduced_colors maxColors) ws) /\
  length (Quantize.extractPaletteFromImage rgba maxColors) = maxColors.
Proof.
  intros Hr Hfast Hscan.
  assert (Hlen : length (Quantize.extractPaletteFast downscaled maxColors) = maxColors)
    by (rewrite extractPaletteFast_length; lia).
  split.
  - destruct (quantizeColors_some resize data downscaled w h maxColors Hr)
      as (q & Hq & _ & Hsize).
    { intros E. rewrite E in Hlen. cbn in Hlen. lia. }
    exists q. eexists. split; [exact Hq|]. split; [now rewrite Hsize|].
    unfold Embroidery.processEmbroidery_warnings. rewrite Hq. cbv zeta.
    split; [reflexivity|].
    intros Hin. apply reduced_emitted_iff in Hin. rewrite Hsize, Hlen in Hin. lia.
  - rewrite extractPaletteFromImage_spec, length_take. lia.
Qed.

Lemma palette_clamp_drops_reduced_warning_witness :
  (exists q ws,
     Quantize.quantizeColors Quantize.resize_top_left banded_104x2 104 2 6 = Some q /\
     Quantize.paletteSize q = 6%nat /\
     Embroidery.processEmbroidery_warnings Quantize.resize_top_left
       (fun _ w h _ => replicate (w * h) 0) banded_104x2 104 2 6 3 = Some ws /\
     ~ In (Warnings.reduced_colors 6) ws) /\
  length (Quantize.extractPaletteFromImage banded_104x2 6) = 6%nat.
Proof.
  apply (palette_clamp_drops_reduced_warning Quantize.resize_top_left
           (fun _ w h _ => replicate (w * h) 0) banded_104x2 banded_52x1 banded_104x2
           104 2 6 3).
  - vm_compute. reflexivity.
  - vm_compute. lia.
  - vm_compute. lia.
Defined.

(** The run on the banded image, whose 13 sampled colors are cut to 6: only
    the thin-stroke warning is listed. *)
Example banded_run_warnings :
  length (firsts (Quantize.samples banded_52x1)) = 13%nat /\
  Embroidery.processEmbroidery_warnings Quantize.resize_top_left
    (fun _ w h _ => replicate (w * h) 0) banded_104x2 104 2 6 3
  = Some [Warnings.thin_strokes].
Proof. vm_compute. split; reflexivity. Qed.

(** X22: a run of the pipeline never reports reduced colors, because the
    palette is cut to [maxColors] before its size is compared with
    [maxColors]; its warnings are among thin strokes and dense detail, and
    thin strokes is reported iff the thread thickness is positive and some
    pixel of the input image has a non-zero alpha: quantization does not
    change the alpha channel. *)
Theorem processEmbroidery_warnings_kinds
    (resize : list Z -> nat -> nat -> nat -> nat -> option (list Z))
    (edgeMap_of : list Z -> nat -> nat -> nat -> list Z)
    (data : list Z) (w h maxColors T : nat) (ws : list string) :
  Embroidery.processEmbroidery_warnings resize edgeMap_of data w h maxColors T = Some ws ->
  (forall s, In s ws -> s = Warnings.thin_strokes \/ s = Warnings.dense_detail) /\
  (forall m, ~ In (Warnings.reduced_colors m) ws) /\
  (In Warnings.thin_strokes ws <->
   (exists p, (p < w * h)%nat /\ truthy (Utils.extractAlpha data w h 4 !! p) = true) /\
   (0 < T)%nat).
Proof.
  unfold Embroidery.processEmbroidery_warnings.
  destruct (Quantize.quantizeColors resize data w h maxColors) as [q|] eqn:Eq; [|discriminate].
  destruct (quantizeColors_result resize data w h maxColors q Eq)
    as (-> & -> & _ & Halpha & _ & Hsize & _).
  cbv zeta. rewrite Halpha. intros [= <-].
  assert (Hkinds : forall s,
    In s (Warnings.computeWarnings (Utils.extractAlpha data w h 4) w h T
            (Some (edgeMap_of (Quantize.q_data q) w h T)) (Some maxColors)
            (Some (Quantize.paletteSize q))) ->
    s = Warnings.thin_strokes \/ s = Warnings.dense_detail).
  { intros s. unfold Warnings.computeWarnings. cbv zeta.
    replace (maxColors <? Quantize.paletteSize q)%nat with false
      by (symmetry; apply Nat.ltb_ge; exact Hsize).
    rewrite !in_app_iff. intros [H|[H|[]]].
    - destruct (_ && _); [|destruct H]. destruct H as [<-|[]]. now left.
    - destruct (_ <? _)%nat; [|destruct H]. destruct H as [<-|[]]. now right. }
  split; [exact Hkinds|]. split.
  - intros m Hin. destruct (Hkinds _ Hin) as [E|E]; symmetry in E.
    + now apply thin_strokes_not_reduced in E.
    + now apply dense_not_reduced in E.
  - apply thin_strokes_emitted_iff, extractAlpha_nonneg.
Qed.

Lemma processEmbroidery_warnings_kinds_witness :
  let ws := [Warnings.thin_strokes] in
  (forall s, In s ws -> s = Warnings.thin_strokes \/ s = Warnings.dense_detail) /\
  (forall m, ~ In (Warnings.reduced_colors m) ws) /\
  (In Warnings.thin_strokes ws <->
   (exists p, (p < 18 * 2)%nat /\
              truthy (Utils.extractAlpha banded_18x2 18 2 4 !! p) = true) /\
   (0 < 3)%nat).
Proof.
  apply (processEmbroidery_warnings_kinds Quantize.resize_top_left
           (fun _ w h _ => replicate (w * h) 0) banded_18x2 18 2 2 3).
  vm_compute. reflexivity.
Defined.

(** ** generateTextures: the cache *)

Lemma key_eqb_refl (k : Textures.CacheKey) : Textures.key_eqb k k = true.
Proof.
  unfold Textures.key_eqb. rewrite Nat.eqb_refl, String.eqb_refl.
  now rewrite bool_decide_eq_true_2.
Qed.

Lemma cache_get_app_miss (cache : Textures.Cache) (k : Textures.CacheKey)
    (v : list Textures.Tile) :
  Textures.cache_get cache k = None ->
  Textures.cache_get (cache ++ [(k, v)]) k = Some v.
Proof.
  induction cache as [|[k' v'] cache IH]; cbn [Textures.cache_get app].
  - now rewrite key_eqb_refl.
  - destruct (Textures.key_eqb k k'); [discriminate|exact IH].
Qed.

(** X23: texture synthesis is idempotent on its cache: a second call with
    the same thickness, hatch and density scale returns the result of the
    first call and leaves the cache as the first call left it. *)
Theorem generateTextures_idempotent (cache : Textures.Cache) (thickness : nat)
    (hatch : string) (densityScale : option Qc) :
  let first := Textures.generateTextures cache thickness hatch densityScale in
  Textures.generateTextures (snd first) thickness hatch densityScale = first /\
  (length cache <= length (snd first) <= S (length cache))%nat.
Proof.
  cbv zeta. unfold Textures.generateTextures. cbv zeta.
  set (density := Textures.clampDensity densityScale).
  destruct (Textures.cache_get cache (thickness, hatch, density)) as [cached|] eqn:Hget.
  - cbn [snd]. rewrite Hget. split; [reflexivity|lia].
  - cbn [snd]. rewrite (cache_get_app_miss _ _ _ Hget).
    assert (Ht : length (Textures.generateThreadTexturesFast thickness density) = 6%nat)
      by reflexivity.
    rewrite take_app_length' by exact Ht. rewrite drop_app_length' by exact Ht.
    split; [reflexivity|]. rewrite length_app. cbn [length]. lia.
Qed.

Lemma clampDensity_range (densityScale : option Qc) :
  (Q2Qc (1 # 2) <= Textures.clampDensity densityScale)%Qc /\
  (Textures.clampDensity densityScale <= Q2Qc 2)%Qc.
Proof.
  unfold Textures.clampDensity. cbv zeta.
  set (d := default (Q2Qc 1) densityScale).
  assert (Hhalf : (Q2Qc (1 # 2) <= Q2Qc 2)%Qc) by (unfold Qcle, Qle; vm_compute; discriminate).
  destruct (Qclt_le_dec (Q2Qc 2) d) as [H2|H2].
  - destruct (Qclt_le_dec (Q2Qc 2) (Q2Qc (1 # 2))) as [H|H].
    + split; [apply Qcle_refl|exact Hhalf].
    + split; [exact H|apply Qcle_refl].
  - destruct (Qclt_le_dec d (Q2Qc (1 # 2))) as [H|H].
    + split; [apply Qcle_refl|exact Hhalf].
    + split; [exact H|exact H2].
Qed.

(** X24: the texture cache is transparent: from a cache filled by earlier
    calls, a call returns what a miss would draw for its thickness, its hatch
    and its density scale clamped to [0.5, 2], whether the entry was cached
    or not. *)
Theorem generateTextures_cache_transparent (cache : Textures.Cache) (thickness : nat)
    (hatch : string) (densityScale : option Qc) :
  cache_ok cache ->
  let density := Textures.clampDensity densityScale in
  fst (Textures.generateTextures cache thickness hatch densityScale)
  = Textures.Returned
      (Textures.mkTextures (Textures.generateThreadTexturesFast thickness density)
         (Textures.generateHatchPatternsFast hatch density) thickness) /\
  (Q2Qc (1 # 2) <= density)%Qc /\ (density <= Q2Qc 2)%Qc.
Proof.
  intros Hok. cbv zeta. split; [|apply clampDensity_range].
  unfold Textures.generateTextures. cbv zeta.
  set (density := Textures.clampDensity densityScale).
  destruct (Textures.cache_get cache (thickness, hatch, density)) as [cached|] eqn:Hget;
    [|reflexivity].
  apply (cache_get_ok _ _ _ Hok) in Hget. unfold generated in Hget. cbn [fst snd] in Hget.
  subst cached. cbn [fst].
  assert (Ht : length (Textures.generateThreadTexturesFast thickness density) = 6%nat)
    by reflexivity.
  rewrite take_app_length' by exact Ht. now rewrite drop_app_length' by exact Ht.
Qed.

Lemma generateTextures_cache_transparent_witness :
  let cache := snd (Textures.generateTextures [] 3 "cross" (Some (Q2Qc 5))) in
  let density := Textures.clampDensity (Some (Q2Qc 7)) in
  fst (Textures.generateTextures cache 3 "cross" (Some (Q2Qc 7)))
  = Textures.Returned
      (Textures.mkTextures (Textures.generateThreadTexturesFast 3 density)
         (Textures.generateHatchPatternsFast "cross" density) 3) /\
  (Q2Qc (1 # 2) <= density)%Qc /\ (density <= Q2Qc 2)%Qc.
Proof.
  intros cache.
  apply (generateTextures_cache_transparent cache 3 "cross" (Some (Q2Qc 7))).
  repeat constructor.
Defined.

(** ** The options of a request *)

(** X25: a request that passes the validation of the server runs with
    [maxColors] in 2..12, [threadThickness] in 1..10 and a hatch among none,
    diagonal and cross, for which the texture synthesis draws exactly one
    hatch pattern; its background, if any, is a color with a hex value or a
    fabric with a name. *)
Theorem validate_accepts (raw : Server.RawOptions) (options : Server.Options) :
  Server.validate raw = Server.Run options ->
  options = Server.normalize raw /\
  2 <= Server.maxColors options <= 12 /\
  1 <= Server.threadThickness options <= 10 /\
  Textures.valid_hatch (Server.hatch options) = true /\
  (forall density,
     length (Textures.generateHatchPatternsFast (Server.hatch options) density) = 1%nat) /\
  (forall bg, Server.background options = Some bg ->
     (Server.raw_type bg = "color"%string /\ Server.missing (Server.raw_hex bg) = false) \/
     (Server.raw_type bg = "fabric"%string /\ Server.missing (Server.raw_name bg) = false)).
Proof.
  unfold Server.validate. cbv zeta.
  destruct (Textures.valid_hatch (Server.hatch (Server.normalize raw))) eqn:Eh;
    cbn [negb]; [|discriminate].
  assert (Hrange : 2 <= Server.maxColors (Server.normalize raw) <= 12 /\
                   1 <= Server.threadThickness (Server.normalize raw) <= 10)
    by (unfold Server.normalize; cbn; lia).
  assert (Hone : forall density,
    length (Textures.generateHatchPatternsFast (Server.hatch (Server.normalize raw)) density)
    = 1%nat) by (intros d; rewrite hatch_patterns_length; now rewrite Eh).
  destruct (Server.background (Server.normalize raw)) as [bg|] eqn:Eb.
  - destruct (String.eqb_spec (Server.raw_type bg) "color") as [Ec|Ec];
    destruct (String.eqb_spec (Server.raw_type bg) "fabric") as [Ef|Ef];
      cbn [orb negb andb]; try discriminate.
    + rewrite Ec in Ef. discriminate.
    + destruct (Server.missing (Server.raw_hex bg)) eqn:Em; [discriminate|].
      intros [= <-]. rewrite Eb. repeat split; try tauto; try apply Hrange; try exact Hone.
      intros bg' [= <-]. now left.
    + destruct (Server.missing (Server.raw_name bg)) eqn:Em; [discriminate|].
      intros [= <-]. rewrite Eb. repeat split; try tauto; try apply Hrange; try exact Hone.
      intros bg' [= <-]. now right.
  - intros [= <-]. rewrite Eb. repeat split; try tauto; try apply Hrange; try exact Hone.
    discriminate.
Qed.

Lemma validate_accepts_witness :
  let raw := Server.mkRaw (Some 40) (Some 0) None (Some "cross"%string)
               (Some (Server.mkRawBackground "fabric" None (Some "linen"%string)))
               None None in
  let options := Server.mkOptions 12 1 true "cross"
                   (Some (Server.mkRawBackground "fabric" None (Some "linen"%string)))
                   true 0 in
  options = Server.normalize raw /\
  2 <= Server.maxColors options <= 12 /\
  1 <= Server.threadThickness options <= 10 /\
  Textures.valid_hatch (Server.hatch options) = true /\
  (forall density,
     length (Textures.generateHatchPatternsFast (Server.hatch options) density) = 1%nat) /\
  (forall bg, Server.background options = Some bg ->
     (Server.raw_type bg = "color"%string /\ Server.missing (Server.raw_hex bg) = false) \/
     (Server.raw_type bg = "fabric"%string /\ Server.missing (Server.raw_name bg) = false)).
Proof.
  intros raw options. apply (validate_accepts raw options). reflexivity.
Defined.

Example validate_rejects :
  Server.validate (Server.mkRaw None None None (Some "zigzag"%string) None None None)
  = Server.BadRequest "Invalid hatch option" /\
  Server.validate (Server.mkRaw None None None None
                     (Some (Server.mkRawBackground "color" (Some ""%string) None)) None None)
  = Server.BadRequest "Missing background color".
Proof. split; reflexivity. Qed.

(** ** applyBackgroundLocal: the background that is drawn *)

Section BackgroundDrawn.
Variable parseInt16 : string -> option Z.
Variable solid : nat -> nat -> Z * Z * Z -> list Z.
Variable opens : string -> bool.
Variable cover : string -> nat -> nat -> list Z.
Variable composite_over : list Z -> list Z -> list Z.

Lemma channel_nonzero (hex : string) (a : nat) (d : Z) :
  d <> 0 -> Embroidery.channel parseInt16 hex a d <> 0.
Proof.
  intros Hd. unfold Embroidery.channel.
  destruct (parseInt16 _) as [v|]; [|exact Hd].
  destruct (Z.eqb_spec v 0); [exact Hd|assumption].
Qed.

Lemma channel_zero_default (hex : string) (a : nat) (d : Z) :
  parseInt16 (substring a 2 hex) = Some 0 -> Embroidery.channel parseInt16 hex a d = d.
Proof. intros H. unfold Embroidery.channel. now rewrite H. Qed.

(** X26: a color background never has a zero channel: a channel of the hex
    value that reads 0, or does not parse, is replaced by the channel of the
    default color (229, 224, 214), so that black, #000000, is drawn as the
    default color. *)
Theorem applyBackgroundLocal_color_channels
    (composited : Embroidery.Composited) (options : Embroidery.Options) :
  Embroidery.preserveTransparency options = false ->
  Embroidery.is_color (Embroidery.background options) = true ->
  let result := Embroidery.applyBackgroundLocal parseInt16 solid opens cover
                  composite_over composited options in
  let w := Embroidery.width (Embroidery.c_info composited) in
  let h := Embroidery.height (Embroidery.c_info composited) in
  (exists r g b, r <> 0 /\ g <> 0 /\ b <> 0 /\
     Embroidery.buffer result
     = composite_over (solid w h (r, g, b)) (Embroidery.c_buffer composited)) /\
  (parseInt16 "00" = Some 0 ->
   (exists name, Embroidery.background options
                 = Some (Embroidery.mkBackground "color" (Some "#000000"%string) name)) ->
   Embroidery.buffer result
   = composite_over (solid w h (229, 224, 214)) (Embroidery.c_buffer composited)).
Proof.
  intros Hp Hc. cbv zeta. unfold Embroidery.applyBackgroundLocal.
  rewrite Hp, Hc. cbv zeta. cbn [Embroidery.buffer]. split.
  - eexists _, _, _. split; [|split; [|split; [|reflexivity]]];
      apply channel_nonzero; discriminate.
  - intros H0 [name ->]. cbn [Embroidery.bg_hex Embroidery.str_or Embroidery.remove_hash].
    cbn [Ascii.eqb Bool.eqb].
    rewrite !channel_zero_default by exact H0. reflexivity.
Qed.

(** X27: a fabric background never fails: the first of the files
    name.jpg, name.jpeg, name.png under assets/fabrics that opens is resized
    to cover the image, and when none opens the default color
    (229, 224, 214) is drawn instead. *)
Theorem applyBackgroundLocal_fabric
    (composited : Embroidery.Composited) (options : Embroidery.Options)
    (bg : Embroidery.Background) (name : string) :
  Embroidery.preserveTransparency options = false ->
  Embroidery.background options = Some bg ->
  Embroidery.bg_type bg <> "color"%string ->
  Embroidery.bg_name bg = Some name ->
  let result := Embroidery.applyBackgroundLocal parseInt16 solid opens cover
                  composite_over composited options in
  let w := Embroidery.width (Embroidery.c_info composited) in
  let h := Embroidery.height (Embroidery.c_info composited) in
  let file ext := String.append "assets/fabrics/" (String.append name ext) in
  let drawn p := composite_over (cover p w h) (Embroidery.c_buffer composited) in
  Embroidery.mime result = "image/png"%string /\
  Embroidery.info result = Embroidery.c_info composited /\
  (opens (file ".jpg"%string) = true -> Embroidery.buffer result = drawn (file ".jpg"%string)) /\
  (opens (file ".jpg"%string) = false -> opens (file ".jpeg"%string) = true ->
   Embroidery.buffer result = drawn (file ".jpeg"%string)) /\
  (opens (file ".jpg"%string) = false -> opens (file ".jpeg"%string) = false ->
   opens (file ".png"%string) = true -> Embroidery.buffer result = drawn (file ".png"%string)) /\
  (opens (file ".jpg"%string) = false -> opens (file ".jpeg"%string) = false ->
   opens (file ".png"%string) = false ->
   Embroidery.buffer result
   = composite_over (solid w h (229, 224, 214)) (Embroidery.c_buffer composited)).
Proof.
  intros Hp Hb Ht Hn. cbv zeta. unfold Embroidery.applyBackgroundLocal.
  rewrite Hp, Hb. unfold Embroidery.is_color.
  replace (String.eqb (Embroidery.bg_type bg) "color") with false
    by (symmetry; now apply String.eqb_neq).
  cbv zeta. rewrite Hn. cbn [Embroidery.str_of default].
  cbn [Embroidery.mime Embroidery.info Embroidery.buffer List.find]. unfold id.
  split; [reflexivity|]. split; [reflexivity|].
  split; [intros ->; reflexivity|].
  split; [intros -> ->; reflexivity|].
  split; [intros -> -> ->; reflexivity|intros -> -> ->; reflexivity].
Qed.

End BackgroundDrawn.

Lemma applyBackgroundLocal_color_channels_witness :
  let composited := Embroidery.mkComposited [7] (Embroidery.mkInfo 1 1) in
  let options := Embroidery.mkOptions false
    (Some (Embroidery.mkBackground "color" (Some "#000000"%string) None)) in
  let solid := fun (_ _ : nat) (c : Z * Z * Z) => [fst (fst c); snd (fst c); snd c] in
  let over := fun bg fg : list Z => bg ++ fg in
  let result := Embroidery.applyBackgroundLocal (fun _ => Some 0) solid
                  (fun _ => false) (fun _ _ _ => []) over composited options in
  (exists r g b, r <> 0 /\ g <> 0 /\ b <> 0 /\
     Embroidery.buffer result = over (solid 1%nat 1%nat (r, g, b)) [7]) /\
  ((fun _ : string => Some 0) "00"%string = Some 0 ->
   (exists name, Some (Embroidery.mkBackground "color" (Some "#000000"%string) None)
                 = Some (Embroidery.mkBackground "color" (Some "#000000"%string) name)) ->
   Embroidery.buffer result = over (solid 1%nat 1%nat (229, 224, 214)) [7]).
Proof.
  intros composited options solid over.
  apply (applyBackgroundLocal_color_channels (fun _ => Some 0) solid
           (fun _ => false) (fun _ _ _ => []) over composited options); reflexivity.
Defined.

Lemma applyBackgroundLocal_fabric_witness :
  let composited := Embroidery.mkComposited [7] (Embroidery.mkInfo 1 1) in
  let bg := Embroidery.mkBackground "fabric" None (Some "linen"%string) in
  let options := Embroidery.mkOptions false (Some bg) in
  let solid := fun (_ _ : nat) (c : Z * Z * Z) => [fst (fst c); snd (fst c); snd c] in
  let opens := fun p : string => String.eqb p "assets/fabrics/linen.png" in
  let cover := fun (p : string) (_ _ : nat) => [Z.of_nat (String.length p)] in
  let over := fun b f : list Z => b ++ f in
  let result := Embroidery.applyBackgroundLocal (fun _ => None) solid opens cover over
                  composited options in
  let file ext := String.append "assets/fabrics/" (String.append "linen" ext) in
  let drawn p := over (cover p 1%nat 1%nat) [7] in
  Embroidery.mime result = "image/png"%string /\
  Embroidery.info result = Embroidery.mkInfo 1 1 /\
  (opens (file ".jpg"%string) = true -> Embroidery.buffer result = drawn (file ".jpg"%string)) /\
  (opens (file ".jpg"%string) = false -> opens (file ".jpeg"%string) = true ->
   Embroidery.buffer result = drawn (file ".jpeg"%string)) /\
  (opens (file ".jpg"%string) = false -> opens (file ".jpeg"%string) = false ->
   opens (file ".png"%string) = true -> Embroidery.buffer result = drawn (file ".png"%string)) /\
  (opens (file ".jpg"%string) = false -> opens (file ".jpeg"%string) = false ->
   opens (file ".png"%string) = false ->
   Embroidery.buffer result = over (solid 1%nat 1%nat (229, 224, 214)) [7]).
Proof.
  intros composited bg options solid opens cover over.
  apply (applyBackgroundLocal_fabric (fun _ => None) solid opens cover over
           composited options bg "linen"); [reflexivity|reflexivity|discriminate|reflexivity].
Defined.
